(** * watex.tools.exmath: the ohmic-area and anomaly-shape core

    A shallow embedding of the numerical core of [watex/tools/exmath.py]
    ([find_limit_for_integration], [find_bound_for_integration], [fitfunc],
    [vesDataOperator], [dummy_basement_curve], [ohmicArea], [shape]) and the
    properties of it that the specification states.

    Conventions.
    - numpy integer arrays are [list Z]; numpy float arrays are [list Q]
      (exact rationals: rounding, NaN and infinities are outside the model),
      except for [shape], whose result rounding can change: its arrays are
      lists of binary64 floats;
    - a Python exception is a value of [exn]; a call that can raise returns
      [res A];
    - a Python list that is mutated in place is modelled by its contents
      before and after the call. *)

From Stdlib Require Import String Ascii.
From Stdlib Require Import ZArith QArith Qabs List Bool Lia Sorted.
From Stdlib Require PrimFloat.
Import ListNotations.

Set Implicit Arguments.

(** ** Exceptions and results *)

(** One constructor per raise site that the modelled code can reach. *)
Inductive exn : Type :=
| ValueError_zero_size      (* numpy reduction (min, max, argmin) of an empty array *)
| ValueError_empty_sequence (* builtin min()/max() of an empty sequence *)
| IndexError                (* index out of range *)
| RecursionError            (* recursion budget exhausted *)
| UnboundLocalError         (* local variable read before assignment *)
| StationError              (* exmath.shape: station index >= len(cz) *)
| ValueError_typeofop       (* vesDataOperator: unknown typeofop *)
| VESError_length           (* vesDataOperator: len(AB) != len(rhoa) *)
| ValueError_mask_assign    (* numpy: boolean-mask assignment of a wrong number of values *)
| ValueError_objective      (* ohmicArea: unknown objective *)
| ValueError_float          (* ohmicArea: ohmSkey could not be converted to float *)
| VESError_keydepth         (* ohmicArea: ohmSkey >= maxdepth *)
| ValueError_polyfit_deg    (* numpy.polyfit: expected deg >= 0 *)
| TypeError_polyfit_empty   (* numpy.polyfit: expected non-empty vector for x *)
| TypeError_polyfit_length  (* numpy.polyfit: expected x and y to have same length *)
| LinAlgError               (* numpy.polyfit: the least-squares solve did not converge *)
| ValueError_split          (* numpy.split: array split does not result in an equal division *)
| ValueError_unpack.        (* unpacking a sequence of the wrong length *)

(** The Python class of each exception. *)
Inductive pyclass : Type := ValueError | TypeError | LookupError | RuntimeError | NameError | VESError | StationErrorClass.

Definition class_of (e : exn) : pyclass :=
  match e with
  | ValueError_zero_size | ValueError_empty_sequence | ValueError_typeofop
  | ValueError_mask_assign | ValueError_objective | ValueError_float
  | ValueError_polyfit_deg | LinAlgError | ValueError_split | ValueError_unpack => ValueError
  | TypeError_polyfit_empty | TypeError_polyfit_length => TypeError
  | IndexError => LookupError
  | RecursionError => RuntimeError
  | UnboundLocalError => NameError
  | VESError_length | VESError_keydepth => VESError
  | StationError => StationErrorClass
  end.

(** The exceptions of the numerical part of [ohmicArea] (fits, bounds,
    quadrature) and those of [vesDataOperator]. *)
Definition numeric_error (e : exn) : bool :=
  match e with
  | ValueError_polyfit_deg | TypeError_polyfit_empty | TypeError_polyfit_length
  | LinAlgError | ValueError_empty_sequence | ValueError_zero_size | IndexError
  | ValueError_split | ValueError_unpack => true
  | _ => false
  end.

Definition reduce_error (e : exn) : bool :=
  match e with
  | ValueError_typeofop | VESError_length | IndexError | ValueError_mask_assign => true
  | _ => false
  end.

Inductive res (A : Type) : Type :=
| Ok (a : A)
| Err (e : exn).
Arguments Ok {A} a.
Arguments Err {A} e.

Definition bind {A B : Type} (m : res A) (k : A -> res B) : res B :=
  match m with
  | Ok a => k a
  | Err e => Err e
  end.

Declare Scope res_scope.
Delimit Scope res_scope with res.
Notation "'do' x <- m ; k" := (bind m (fun x => k))
  (at level 10, x pattern, m at level 100, k at level 200) : res_scope.
Open Scope res_scope.

Definition of_option {A : Type} (e : exn) (o : option A) : res A :=
  match o with
  | Some a => Ok a
  | None => Err e
  end.

(** ** Integer index arrays *)

Module IxArr.

Open Scope Z_scope.

(** [ix_arr.min()], [ix_arr.max()] and the builtins [min], [max]: no value on
    an empty array. *)
Definition np_min (l : list Z) : option Z :=
  match l with
  | [] => None
  | x :: l' => Some (fold_left Z.min l' x)
  end.

Definition np_max (l : list Z) : option Z :=
  match l with
  | [] => None
  | x :: l' => Some (fold_left Z.max l' x)
  end.

Definition nat_max (l : list nat) : option nat :=
  match l with
  | [] => None
  | x :: l' => Some (fold_left Nat.max l' x)
  end.

(** [a[i]] for a possibly negative index [i], as Python resolves it. *)
Definition py_getitem {A : Type} (a : list A) (i : Z) : option A :=
  let n := Z.of_nat (length a) in
  if i <? 0
  then (if i + n <? 0 then None else nth_error a (Z.to_nat (i + n)))
  else nth_error a (Z.to_nat i).

(** [np.arange(start, start + n, 1)]. *)
Fixpoint arange (start : Z) (n : nat) : list Z :=
  match n with
  | O => []
  | S k => start :: arange (start + 1) k
  end.

(** Elementwise [a - b] of two arrays of the same length. *)
Fixpoint np_sub (a b : list Z) : list Z :=
  match a, b with
  | x :: a', y :: b' => (x - y) :: np_sub a' b'
  | _, _ => []
  end.

(** [np.where(mask)]: the indices at which the mask holds, counted from [i]. *)
Fixpoint where_from (i : nat) (mask : list bool) : list nat :=
  match mask with
  | [] => []
  | b :: mask' => if b then i :: where_from (S i) mask' else where_from (S i) mask'
  end.

Definition np_where (mask : list bool) : list nat := where_from 0 mask.

(** [a[index]] for an array of valid indices. *)
Definition take (a : list Z) (index : list nat) : list Z :=
  map (fun i => nth i a 0) index.

End IxArr.

(** ** The two bound finders *)

(** How a call that works on a caller-visible list ends. *)
Inductive outcome : Type :=
| Returned           (* the call returned the list it was given, [b0] *)
| Raised (e : exn).

Module Bounds.

Import IxArr.
Open Scope Z_scope.

(** The [for jj, v in enumerate(ix_arr)] loop of [find_limit_for_integration]:
    [rest] is what is left to iterate, [jj] the index of its head; the loop
    state is [(s, oc, b0)]. *)
Fixpoint limit_loop (ix_arr : list Z) (jj : Z) (rest : list Z) (s oc : Z) (b0 : list Z)
  : res (Z * list Z) :=
  match rest with
  | [] => Ok (oc, b0)
  | v :: rest' =>
      let s := v - s in
      if negb (s =? 1)
      then do prev <- of_option IndexError (py_getitem ix_arr (jj - 1));
           limit_loop ix_arr (jj + 1) rest' v v (b0 ++ [oc; prev])
      else limit_loop ix_arr (jj + 1) rest' v oc b0
  end.

(** [find_limit_for_integration(ix_arr, b0)]: the final contents of the list
    [b0] and how the call ended. *)
Definition find_limit_for_integration (ix_arr b0 : list Z) : list Z * outcome :=
  match np_min ix_arr with
  | None => (b0, Raised ValueError_zero_size)
  | Some m =>
      match limit_loop ix_arr 0 ix_arr (m - 1) m b0 with
      | Err e => (b0, Raised e)
      | Ok (oc, b1) =>
          let v := last ix_arr 0 in
          match py_getitem ix_arr (-1) with
          | None => (b1, Raised IndexError)
          | Some l => if v =? l then (b1 ++ [oc; v], Returned) else (b1, Returned)
          end
      end
  end.

(** [find_bound_for_integration] with room for [fuel] frames on the
    interpreter's stack: each call, the first one included, takes one, and a
    call for which none is left raises RecursionError. *)
Fixpoint find_bound_fuel (fuel : nat) (ix_arr b0 : list Z) : list Z * outcome :=
  match fuel with
  | O => (b0, Raised RecursionError)
  | S fuel' =>
      match np_min ix_arr with
      | None => (b0, Raised ValueError_zero_size)
      | Some m =>
          let psdiff := arange m (length ix_arr) in
          let diff := np_sub ix_arr psdiff in
          let index := np_where (map (fun d => d =? 0) diff) in
          match np_min (take ix_arr index) with
          | None => (b0, Raised ValueError_empty_sequence)
          | Some lo =>
              let b1 := b0 ++ [lo] in
              match np_max (take ix_arr index) with
              | None => (b1, Raised ValueError_empty_sequence)
              | Some hi =>
                  let b2 := b1 ++ [hi] in
                  match nat_max index with
                  | None => (b2, Raised ValueError_empty_sequence)
                  | Some mi =>
                      let array_init := skipn (mi + 1) ix_arr in
                      if (length array_init =? 0)%nat
                      then (b2, Returned)
                      else find_bound_fuel fuel' array_init b2
                  end
              end
          end
      end
  end.

(** [find_bound_for_integration(ix_arr, b0)], entered with room for [limit]
    further nested calls: what is left of [sys.getrecursionlimit()] (1000
    unless it was changed) below the frame of this call. *)
Definition find_bound_for_integration (limit : nat) (ix_arr b0 : list Z)
  : list Z * outcome :=
  find_bound_fuel (S limit) ix_arr b0.

(** *** The default accumulator

    Both functions declare [b0 = []]: Python evaluates that default once, when
    the [def] is executed, and every call that omits [b0] works on that one
    list. The module state holds its contents. *)
Record defaults : Type := mkDefaults {
  limit_b0 : list Z;
  bound_b0 : list Z
}.

(** The state right after the module is imported. *)
Definition at_import : defaults := mkDefaults [] [].

(** [find_bound_for_integration(a)]: what the call hands back (the contents of
    the returned list at the time of the return) and the state it leaves. *)
Definition call_bound (limit : nat) (a : list Z) (st : defaults)
  : res (list Z) * defaults :=
  let '(b, o) := find_bound_for_integration limit a (bound_b0 st) in
  (match o with Returned => Ok b | Raised e => Err e end,
   mkDefaults (limit_b0 st) b).

(** [find_limit_for_integration(a)]. *)
Definition call_limit (a : list Z) (st : defaults) : res (list Z) * defaults :=
  let '(b, o) := find_limit_for_integration a (limit_b0 st) in
  (match o with Returned => Ok b | Raised e => Err e end,
   mkDefaults b (bound_b0 st)).

(** *** Reference: the maximal runs of consecutive indices *)

(** [runs_aux oc prev l]: the bounds of the runs of [oc .. prev] followed by
    [l], flattened. *)
Fixpoint runs_aux (oc prev : Z) (l : list Z) : list Z :=
  match l with
  | [] => [oc; prev]
  | v :: l' => if v - prev =? 1 then runs_aux oc v l' else oc :: prev :: runs_aux v v l'
  end.

Definition runs (l : list Z) : list Z :=
  match l with
  | [] => []
  | x :: l' => runs_aux x x l'
  end.

(** An index array of 1001 runs: [0, 2, 4, ..., 2000]. *)
Definition thousand_runs : list Z := map (fun i => 2 * Z.of_nat i) (seq 0 1001).

(** The number of runs: [runs] lists two bounds for each. *)
Definition count_runs (l : list Z) : nat := Nat.div2 (length (runs l)).

(** [take_run prev l]: the longest prefix of [l] that continues [prev] by
    steps of one, and what follows it. *)
Fixpoint take_run (prev : Z) (l : list Z) : list Z * list Z :=
  match l with
  | [] => ([], [])
  | v :: l' =>
      if v - prev =? 1
      then let '(r, t) := take_run v l' in (v :: r, t)
      else ([], l)
  end.

End Bounds.

(** ** Float arrays *)

Module QArr.

Open Scope Q_scope.

(** The comparisons of numpy scalars. *)
Definition Qleb (a b : Q) : bool := Qle_bool a b.
Definition Qltb (a b : Q) : bool := negb (Qle_bool b a).
Definition Qeqb (a b : Q) : bool := Qeq_bool a b.

(** [np.argmin(a)]: the index of the first occurrence of the minimum. *)
Fixpoint argmin_from (i besti : nat) (best : Q) (l : list Q) : nat :=
  match l with
  | [] => besti
  | x :: l' =>
      if Qltb x best then argmin_from (S i) i x l' else argmin_from (S i) besti best l'
  end.

Definition argmin (l : list Q) : option nat :=
  match l with
  | [] => None
  | x :: l' => Some (argmin_from 1 0 x l')
  end.

(** [a.min()] and [a.max()]. *)
Definition Qminimum (l : list Q) : option Q :=
  match l with
  | [] => None
  | x :: l' => Some (fold_left (fun m y => if Qltb y m then y else m) l' x)
  end.

Definition Qmaximum (l : list Q) : option Q :=
  match l with
  | [] => None
  | x :: l' => Some (fold_left (fun m y => if Qltb m y then y else m) l' x)
  end.

(** [scipy.signal.argrelextrema(data, comparator)] with its defaults
    [order=1, mode='clip']: index [i] is kept when [data[i]] compares
    successfully with both neighbours, a neighbour index beyond either end
    being clipped to that end. *)
Definition argrelextrema (data : list Q) (comparator : Q -> Q -> bool) : list nat :=
  let n := length data in
  filter (fun i =>
            comparator (nth i data 0) (nth (Nat.min (i + 1) (n - 1)) data 0)
            && comparator (nth i data 0) (nth (i - 1) data 0))
         (seq 0 n).

(** Sorting, for the order statistics. *)
Fixpoint insert (x : Q) (l : list Q) : list Q :=
  match l with
  | [] => [x]
  | y :: l' => if Qleb x y then x :: l else y :: insert x l'
  end.

Fixpoint sort (l : list Q) : list Q :=
  match l with
  | [] => []
  | x :: l' => insert x (sort l')
  end.

(** [a.sum()] and [a.mean()]. *)
Definition Qsum (l : list Q) : Q := fold_left Qplus l 0.

Definition mean (l : list Q) : Q := Qsum l / inject_Z (Z.of_nat (length l)).

(** [np.median(a)]: the middle element of the sorted array, or the mean of
    the two middle elements. *)
Definition median (l : list Q) : Q :=
  let s := sort l in
  let n := length s in
  if Nat.even n
  then (nth (n / 2 - 1) s 0 + nth (n / 2) s 0) / 2
  else nth (n / 2) s 0.

(** The slices [a[:stop]] and [a[start:]], for possibly negative bounds. *)
Definition slice_bound (n : nat) (i : Z) : nat :=
  if (i <? 0)%Z then Z.to_nat (Z.max (i + Z.of_nat n) 0) else Nat.min (Z.to_nat i) n.

Definition slice_to {A : Type} (a : list A) (stop : Z) : list A :=
  firstn (slice_bound (length a) stop) a.

Definition slice_from {A : Type} (a : list A) (start : Z) : list A :=
  skipn (slice_bound (length a) start) a.

End QArr.

(** ** Arrays of binary64 floats *)

Module FArr.

Import PrimFloat.
Open Scope float_scope.

(** [np.argmin(a)] on floats: the index of the first NaN if there is one,
    else of the first occurrence of the minimum (the loop of numpy's
    [DOUBLE_argmin], with its test [!(mp <= *ip)]). *)
Fixpoint argmin_from (i besti : nat) (best : float) (l : list float) : nat :=
  match l with
  | [] => besti
  | x :: l' =>
      if negb (best <=? x)
      then (if is_nan x then i else argmin_from (S i) i x l')
      else argmin_from (S i) besti best l'
  end.

Definition argmin (l : list float) : option nat :=
  match l with
  | [] => None
  | x :: l' => Some (if is_nan x then 0%nat else argmin_from 1 0 x l')
  end.

(** [scipy.signal.argrelextrema(data, comparator)] with its defaults
    [order=1, mode='clip']. *)
Definition argrelextrema (data : list float) (comparator : float -> float -> bool)
  : list nat :=
  let n := length data in
  filter (fun i =>
            comparator (nth i data 0) (nth (Nat.min (i + 1) (n - 1)) data 0)
            && comparator (nth i data 0) (nth (i - 1) data 0))
         (seq 0 n).

(** Sorting, for the order statistics of an array without NaN. *)
Fixpoint insert (x : float) (l : list float) : list float :=
  match l with
  | [] => [x]
  | y :: l' => if x <=? y then x :: l else y :: insert x l'
  end.

Fixpoint sort (l : list float) : list float :=
  match l with
  | [] => []
  | x :: l' => insert x (sort l')
  end.

(** [np.median(a)]: NaN if the array is empty or holds a NaN; else the
    middle element of the sorted array, or the mean of the two middle
    elements, their rounded sum divided by two. (Where the middle elements
    are zeros of both signs the sign of the result is not specified by
    numpy; no comparison depends on it.) *)
Definition median (l : list float) : float :=
  let s := sort l in
  let n := length s in
  if (n =? 0)%nat || existsb is_nan l then nan
  else if Nat.even n
  then (nth (n / 2 - 1) s 0 + nth (n / 2) s 0) / 2
  else nth (n / 2) s 0.

End FArr.

(** ** The shape of an anomaly *)

Module Shape.

Import IxArr FArr PrimFloat.
Open Scope float_scope.

Inductive anomaly_shape : Type := V | U | W | M | K | C | H.

(** The station argument [s] of [shape]: left at its default (the Ellipsis),
    [None], or an integer index. A station given by name (a string) is
    resolved from [s] and the positions [p] alone, before the conductive zone
    is looked at, and is not modelled. *)
Inductive station : Type :=
| S_default
| S_None
| S_index (i : Z).

(** Python's [a and b] on two floats: zero of either sign is false, NaN is
    true. *)
Definition py_and (a b : float) : float := if a =? 0 then a else b.

(** The decision table of [shape], from the two end values, the median and
    the numbers of local minima and maxima on each side. *)
Definition decide (ls rs med : float) (lminls lminrs lmaxls lmaxrs : nat)
  : anomaly_shape :=
  if (med <=? ls) && (rs <? med) || (ls <? med) && (med <=? rs)
  then
    if (lminls =? 0)%nat && (lminrs =? 0)%nat then C
    else if ((lminls =? 0)%nat && negb (lminrs =? 0)%nat)
            || (negb (lminls =? 0)%nat && (lminrs =? 0)%nat) then K
    else V
  else if med <? py_and ls rs
  then
    if (lminls =? 0)%nat && (lminrs =? 0)%nat then U
    else if ((lminls =? 0)%nat && (lminrs =? 1)%nat)
            || ((lminrs =? 0)%nat && (lminls =? 1)%nat) then H
    else if (1 <=? lminls)%nat && (1 <=? lminrs)%nat then W
    else V
  else if (ls <? med) && (rs <? med)
  then
    if ((1 <=? lmaxls)%nat && (0 <=? lmaxrs)%nat)
       || ((lmaxls <=? 0)%nat && (1 <=? lmaxrs)%nat) then M
    else V
  else V.

(** [shape(cz, s)] on an array of floats (an array of integers below
    [2 ** 53] behaves as the array of the same numbers as floats). *)
Definition shape (cz : list float) (s : station) : res anomaly_shape :=
  do s_index <-
     match s with
     | S_default => of_option ValueError_zero_size (option_map Z.of_nat (argmin cz))
     | S_None => Err UnboundLocalError
     | S_index i => Ok i
     end;
  if (Z.of_nat (length cz) <=? s_index)%Z then Err StationError
  else
    let lbound := QArr.slice_to cz (s_index + 1) in
    let rbound := QArr.slice_from cz s_index in
    do ls <- of_option IndexError (py_getitem lbound 0);
    do rs <- of_option IndexError (py_getitem rbound (-1));
    let lminls := argrelextrema lbound ltb in
    let lminrs := argrelextrema rbound ltb in
    let lmaxls := argrelextrema lbound (fun a b => b <? a) in
    let lmaxrs := argrelextrema rbound (fun a b => b <? a) in
    let med := median cz in
    Ok (decide ls rs med (length lminls) (length lminrs) (length lmaxls) (length lmaxrs)).

(** The conductive zone of the specification's second scenario. *)
Definition scenario2 : list float :=
  [60; 70; 65; 40; 30; 31; 34; 40; 38; 50; 61; 90].

(** A zone on which rounding decides: its second value is the float next
    above 1. *)
Definition tight_zone : list float := [1; 0x1.0000000000001p+0; 0.5; 3].

(** Multiplying by [k] keeps the order of [vals]: the products compare as
    the values do, are zero where they are and NaN where they are. *)
Definition keeps_order (k : float) (vals : list float) : bool :=
  forallb (fun a =>
             Bool.eqb (is_nan (k * a)) (is_nan a)
             && Bool.eqb (k * a =? 0) (a =? 0)
             && forallb (fun b =>
                           Bool.eqb (k * a <? k * b) (a <? b)
                           && Bool.eqb (k * a <=? k * b) (a <=? b))
                        vals)
          vals.

End Shape.

(** ** Strings *)

Module Str.

Open Scope string_scope.

(** [s.lower()], on ASCII text. *)
Definition lower_ascii (c : ascii) : ascii :=
  let n := nat_of_ascii c in
  if (65 <=? n)%nat && (n <=? 90)%nat then ascii_of_nat (n + 32) else c.

Fixpoint lower (s : string) : string :=
  match s with
  | EmptyString => EmptyString
  | String c s' => String (lower_ascii c) (lower s')
  end.

(** [s.replace(c, '')] for a one-character [c]. *)
Fixpoint remove_char (c : ascii) (s : string) : string :=
  match s with
  | EmptyString => EmptyString
  | String c' s' => if Ascii.eqb c' c then remove_char c s' else String c' (remove_char c s')
  end.

(** [s.find(sub) >= 0]. *)
Definition contains (s sub : string) : bool :=
  match String.index 0 sub s with
  | Some _ => true
  | None => false
  end.

End Str.

(** ** What the code takes from numpy, scipy and the interpreter

    [rng] is the state of numpy's global random generator. *)
Record externals (rng : Type) : Type := mkExternals {
  (* np.random.permutation(a): the shuffled array and the new generator state *)
  permutation : list Q -> rng -> list Q * rng;
  (* the least-squares solve inside np.polyfit(x, y, deg): the coefficients,
     highest power first, or None when it raises LinAlgError *)
  lstsq : list Q -> list Q -> nat -> option (list Q);
  (* scipy.integrate.quad(f, a, b): the value and the error estimate *)
  quad : (Q -> Q) -> Q -> Q -> Q * Q;
  (* np.sin(np.deg2rad(angle)) *)
  sin_deg : Q -> Q;
  (* float(s) of a string: None when it raises ValueError *)
  py_float : string -> option Q;
  (* the room left on the interpreter's stack where ohmicArea calls the
     recursive bound finder: the number of nested calls it can still make *)
  recursion_room : nat
}.

(** ** Polynomials and sampling *)

Module Poly.

Import QArr.
Open Scope Q_scope.

(** [np.poly1d(coeff)(x)]. *)
Definition polyval (coeff : list Q) (x : Q) : Q :=
  fold_left (fun acc c => acc * x + c) coeff 0.

Definition pad (n : nat) (p : list Q) : list Q := repeat 0 (n - length p) ++ p.

(** [p - q] of two [np.poly1d]: the shorter coefficient array is padded with
    leading zeros. *)
Definition poly_sub (p q : list Q) : list Q :=
  let n := Nat.max (length p) (length q) in
  map (fun ab => fst ab - snd ab) (combine (pad n p) (pad n q)).

(** [np.linspace(start, stop, num)]. *)
Definition linspace (start stop : Q) (num : nat) : list Q :=
  match num with
  | O => []
  | S O => [start]
  | S n =>
      let step := (stop - start) / inject_Z (Z.of_nat n) in
      map (fun i => start + inject_Z (Z.of_nat i) * step) (seq 0 n) ++ [stop]
  end.

End Poly.

(** ** Curve fitting *)

(** The degree [fitfunc] asks [np.polyfit] for. *)
Definition fit_degree (y : list Q) (deg : option Z) : Z :=
  match deg with
  | Some d => d
  | None =>
      Z.of_nat (length (QArr.argrelextrema y QArr.Qltb)
                + length (QArr.argrelextrema y (fun a b => QArr.Qltb b a))) + 1
  end.


Section Fit.

Import QArr Poly.
Open Scope Q_scope.

Variable rng : Type.
Variable E : externals rng.

(** [np.polyfit(x, y, deg)]: its argument checks, then the solve. *)
Definition polyfit (x y : list Q) (deg : Z) : res (list Q) :=
  if (deg <? 0)%Z then Err ValueError_polyfit_deg
  else if (length x =? 0)%nat then Err TypeError_polyfit_empty
  else if negb (length x =? length y)%nat then Err TypeError_polyfit_length
  else of_option LinAlgError (lstsq E x y (Z.to_nat deg)).

(** [fitfunc(x, y, deg, sample)]: the coefficients of [f], [xn] and [yp]. *)
Definition fitfunc (x y : list Q) (deg : option Z) (sample : nat)
  : res (list Q * list Q * list Q) :=
  let minl := argrelextrema y Qltb in
  let maxl := argrelextrema y (fun a b => Qltb b a) in
  let degree := (length minl + length maxl)%nat in
  do coeff <- polyfit x y (match deg with
                           | Some d => d
                           | None => Z.of_nat degree + 1
                           end)%Z;
  do lo <- of_option ValueError_empty_sequence (Qminimum x);
  do hi <- of_option ValueError_empty_sequence (Qmaximum x);
  let xn := linspace lo hi sample in
  Ok (coeff, xn, map (polyval coeff) xn).

(** [dummy_basement_curve(func, ks, slope)]: [func45] and [beta]. *)
Definition dummy_basement_curve (func : Q -> Q) (ks slope : Q) : (Q -> Q) * Q :=
  let beta := func ks in
  let slope := sin_deg E slope in
  (fun x => slope * x + beta, beta).

End Fit.

(** ** Reduction of duplicated spacings *)

(** The element type of a numpy array; storing into an integer array
    truncates towards zero. *)
Inductive dtype : Type := int64 | float64.

Definition cast (d : dtype) (x : Q) : Q :=
  match d with
  | int64 => inject_Z (Z.quot (Qnum x) (Z.pos (Qden x)))
  | float64 => x
  end.

Module Unique.

Import QArr.
Open Scope Q_scope.

(** [uniq_from p l]: [l] without the elements equal to the element kept last
    ([p] at first). *)
Fixpoint uniq_from (p : Q) (l : list Q) : list Q :=
  match l with
  | [] => []
  | x :: l' => if Qeqb x p then uniq_from p l' else x :: uniq_from x l'
  end.

(** [np.unique(a)]: the sorted distinct values. *)
Definition np_unique (a : list Q) : list Q :=
  match sort a with
  | [] => []
  | x :: s => x :: uniq_from x s
  end.

(** The index of the first occurrence of [x] in [a]. *)
Fixpoint first_index (x : Q) (a : list Q) : nat :=
  match a with
  | [] => O
  | y :: a' => if Qeqb y x then O else S (first_index x a')
  end.

(** The second component of [np.unique(a, return_index=True)]: for each
    distinct value the index of its first occurrence in [a]. *)
Definition unique_index (a : list Q) : list nat :=
  map (fun x => first_index x a) (np_unique a).

(** [mask = zeros; mask[unique_index] = True]: the first occurrences. *)
Definition first_mask (a : list Q) : list bool :=
  map (fun i => existsb (Nat.eqb i) (unique_index a)) (seq 0 (length a)).

(** [a[~mask]]: the values at the other occurrences, in the order of [a]. *)
Definition duplicated (a : list Q) : list Q :=
  map (fun i => nth i a 0)
      (filter (fun i => negb (nth i (first_mask a) false)) (seq 0 (length a))).

(** The value [p] is at index [i] of [a] and nowhere else. *)
Definition occurs_once (a : list Q) (i : nat) (p : Q) : Prop :=
  nth_error a i = Some p
  /\ forall j p', nth_error a j = Some p' -> p' == p -> j = i.

(** [np.isin(a, b)]. *)
Definition isin (a b : list Q) : list bool :=
  map (fun x => existsb (Qeqb x) b) a.

(** The values assigned by [Y[mask] = vals], in order. *)
Fixpoint assign_masked (Y : list Q) (mask : list bool) (vals : list Q) : list Q :=
  match Y, mask with
  | y :: Y', true :: mask' =>
      match vals with
      | v :: vals' => v :: assign_masked Y' mask' vals'
      | [] => y :: assign_masked Y' mask' []
      end
  | y :: Y', false :: mask' => y :: assign_masked Y' mask' vals
  | _, _ => Y
  end.

(** [Y[mask] = vals] for an array [Y] of element type [d]: as many values as
    the mask selects, or a single value for all of them. *)
Definition mask_assign (d : dtype) (Y : list Q) (mask : list bool) (vals : list Q)
  : res (list Q) :=
  let c := length (filter (fun b => b) mask) in
  if (length vals =? c)%nat then Ok (assign_masked Y mask (map (cast d) vals))
  else match vals with
       | [v] => Ok (assign_masked Y mask (repeat (cast d v) c))
       | _ => Err ValueError_mask_assign
       end.

End Unique.

(** ** Effects of the numerical pipeline

    [vesDataOperator] draws from the global generator; [ohmicArea] goes
    through its stages in a fixed order. A computation threads the state of
    the generator and the list of the stages entered so far. *)

Inductive stage : Type :=
| Stage_reduce      (* vesDataOperator *)
| Stage_fit         (* fitfunc on the whole profile *)
| Stage_bounds      (* search of the integration bounds *)
| Stage_integrate.  (* local fit and quadrature *)

Section Pipeline.

Import IxArr QArr Poly Unique Str.
Open Scope Q_scope.

Variable rng : Type.
Variable E : externals rng.

Record world : Type := mkWorld {
  gen : rng;
  entered : list stage
}.

Definition M (A : Type) : Type := world -> res A * world.

Definition ret {A : Type} (a : A) : M A := fun w => (Ok a, w).

Definition raise {A : Type} (e : exn) : M A := fun w => (Err e, w).

Definition mbind {A B : Type} (m : M A) (k : A -> M B) : M B :=
  fun w =>
    match m w with
    | (Ok a, w') => k a w'
    | (Err e, w') => (Err e, w')
    end.

Definition lift {A : Type} (r : res A) : M A := fun w => (r, w).

Definition enter (s : stage) : M unit :=
  fun w => (Ok tt, mkWorld (gen w) (entered w ++ [s])).

Definition draw (a : list Q) : M (list Q) :=
  fun w => let '(p, g) := permutation E a (gen w) in (Ok p, mkWorld g (entered w)).

Notation "x <- m ;; k" := (mbind m (fun x => k))
  (at level 61, m at next level, right associativity).
Notation "' p <- m ;; k" := (mbind m (fun x => match x with p => k end))
  (at level 61, p pattern, m at next level, right associativity).

(** A computation that enters no stage and raises only the exceptions of
    [vesDataOperator]. *)
Definition quiet {A : Type} (m : M A) : Prop :=
  forall w,
    entered (snd (m w)) = entered w
    /\ forall e, fst (m w) = Err e -> reduce_error e = true.

(** *** vesDataOperator *)

Inductive operation : Type := Op_mean | Op_median | Op_leaveoneout.

(** [typeofop = str(typeofop).lower()], the membership test, and the alias
    of ['none']. *)
Definition parse_typeofop (typeofop : option string) : res operation :=
  let t := lower (match typeofop with
                  | None => "None"
                  | Some s => s
                  end) in
  if String.eqb t "none" then Ok Op_mean
  else if String.eqb t "mean" then Ok Op_mean
  else if String.eqb t "median" then Ok Op_median
  else if String.eqb t "leaveoneout" then Ok Op_leaveoneout
  else Err ValueError_typeofop.

(** The value kept for the resistivities [vals] measured at one spacing. *)
Definition aggregate (op : operation) (vals : list Q) : M Q :=
  match op with
  | Op_mean => ret (mean vals)
  | Op_median => ret (median vals)
  | Op_leaveoneout => p <- draw vals ;; lift (of_option IndexError (hd_error p))
  end.

(** The loop [for ii, d in enumerate(dup_values)] that fills [d0], an array
    of the element type of [AB]. *)
Fixpoint fill_d0 (op : operation) (dtAB : dtype) (AB rhoa dup_values : list Q)
  : M (list Q) :=
  match dup_values with
  | [] => ret []
  | d :: rest =>
      let index := filter (fun i => Qeqb (nth i AB 0) d) (seq 0 (length AB)) in
      v <- aggregate op (map (fun i => nth i rhoa 0) index) ;;
      vs <- fill_d0 op dtAB AB rhoa rest ;;
      ret (cast dtAB v :: vs)
  end.

(** [vesDataOperator(AB, rhoa, typeofop=typeofop)] on two arrays of element
    types [dtAB] and [dtrho]: the pair [(X, Y)]. (With [outdf=True] the same
    two columns are returned as a data frame. The comparison
    [AB_ == dup_values] of two arrays of different lengths, whose result
    [indexes] is never read, is left out: the numpy releases the code was
    written for answer it with False and a DeprecationWarning.) *)
Definition vesDataOperator (typeofop : option string) (dtAB dtrho : dtype)
    (AB rhoa : list Q) : M (list Q * list Q) :=
  op <- lift (parse_typeofop typeofop) ;;
  if negb (length AB =? length rhoa)%nat then raise VESError_length
  else
    let rindex := unique_index AB in
    let dup_values := duplicated AB in
    let X := np_unique AB in
    let Y := map (fun i => nth i rhoa 0) rindex in
    d0 <- fill_d0 op dtAB AB rhoa dup_values ;;
    let maskr := isin X dup_values in
    Y' <- lift (mask_assign dtrho Y maskr d0) ;;
    ret (X, Y').

(** *** ohmicArea *)

Definition objkeys : list string :=
  ["ohms"; "none"; "eval"; "area"; "ohmic"; "true";
   "plot"; "mpl"; "false"; "graph"; "visual"; "view"]%string.

(** The loop over [zip(compout, viewout)]. *)
Fixpoint objective_loop (pairs : list (string * string)) (objective : string) : string :=
  match pairs with
  | [] => objective
  | (oo, pp) :: rest =>
      if contains objective oo then "ohms"%string
      else if contains objective pp then "graph"%string
      else objective_loop rest objective
  end.

Definition parse_objective (objective : string) : res string :=
  let o := objective_loop (combine (firstn 6 objkeys) (skipn 6 objkeys)) (lower objective) in
  if existsb (String.eqb o) (objkeys ++ ["full"; "coverall"]%string) then Ok o
  else Err ValueError_objective.

(** The argument [ohmSkey]: [None], a number, or a string. *)
Inductive keyarg : Type :=
| Key_None
| Key_num (q : Q)
| Key_str (s : string).

(** The [try] block that turns [ohmSkey] into a float, on the text [s] of
    [str(ohmSkey)]; any exception inside the block, that of [X.max()] on an
    empty [X] included, is replaced by the ValueError of the [except]
    clause. *)
Definition coerce_text (s : string) (X : list Q) : res Q :=
  let t := remove_char "m"%char (lower s) in
  if contains t "none"
  then match Qmaximum X with
       | Some m => Ok (m / 2)
       | None => Err ValueError_float
       end
  else of_option ValueError_float (py_float E t).

(** [str(None)] is ['None']. The text of a number holds neither an ['m'] nor
    ['none'] and [float] reads it back, so a number comes out as it went
    in. *)
Definition coerce_key (ohmSkey : keyarg) (X : list Q) : res Q :=
  match ohmSkey with
  | Key_None => coerce_text "None" X
  | Key_num q => Ok q
  | Key_str s => coerce_text s X
  end.

(** The test [ohmSkey >= X.max()]. *)
Definition check_key (key : Q) (X : list Q) : res unit :=
  do m <- of_option ValueError_zero_size (Qmaximum X);
  if Qleb m key then Err VESError_keydepth else Ok tt.

(** [np.split(a, k)] into [k] parts of equal length. *)
Fixpoint chunks (fuel size : nat) (a : list Q) : list (list Q) :=
  match fuel with
  | O => []
  | S fuel' => firstn size a :: chunks fuel' size (skipn size a)
  end.

Definition np_split (a : list Q) (k : nat) : res (list (list Q)) :=
  if (k =? 0)%nat then Err ValueError_split
  else if negb (length a mod k =? 0)%nat then Err ValueError_split
  else Ok (chunks k (length a / k) a).

(** The quadrature loop: the areas and the error estimates. *)
Fixpoint integrate_pairs (ff : Q -> Q) (pairwise_r : list (list Q)) : res (list Q * list Q) :=
  match pairwise_r with
  | [] => Ok ([], [])
  | [inf; sup] :: rest =>
      let '(values, err) := quad E ff inf sup in
      do r <- integrate_pairs ff rest;
      Ok ((if Qltb values 0 then 0 else values) :: fst r, err :: snd r)
  | _ :: _ => Err ValueError_unpack
  end.

(** The first component of the result: one area per pair of roots, or their
    sum when [sum] is set. *)
Inductive ohms_value : Type :=
| Areas (a : list Q)
| Total (s : Q).

Record ohms_out : Type := mkOhms {
  ohmS : ohms_value;
  err_ohmS : list Q;
  roots : list Q
}.

Record view_out : Type := mkView {
  XY : list (Q * Q);
  fitXY : list (Q * Q);
  XYohmSarea : list (Q * Q)
}.

(** The search of the bounds: the recursive finder on a fresh list and, if it
    raises, the iterative one on another fresh list. *)
Definition integration_bounds (indexes : list Z) : res (list Z) :=
  match Bounds.find_bound_for_integration (recursion_room E) indexes [] with
  | (b, Returned) => Ok b
  | (_, Raised _) =>
      match Bounds.find_limit_for_integration indexes [] with
      | (b, Returned) => Ok b
      | (_, Raised e) => Err e
      end
  end.

(** The numerical part of [ohmicArea], from the comment "construct the
    fitting curves for 1000 points" on: the list [rv], an entry replaced by
    [(None, None, None)] being [None]. *)
Definition ohmic_numerics (objective : string) (X Y : list Q) (ohmSkey : Q) (sum : bool)
  : M (option ohms_out * option view_out) :=
  _ <- enter Stage_fit ;;
  '(f_rhotl, x_new, y_projected) <- lift (fitfunc E X Y None 1000) ;;
  oIx <- lift (of_option ValueError_zero_size
                 (argmin (map (fun x => Qabs (x - ohmSkey)) X))) ;;
  let oB := skipn oIx X in
  let '(f_brl, beta) := dummy_basement_curve E (polyval f_rhotl) ohmSkey 45 in
  lo <- lift (of_option ValueError_zero_size (Qminimum oB)) ;;
  hi <- lift (of_option ValueError_zero_size (Qmaximum oB)) ;;
  let xx := linspace lo hi 1000 in
  let b45_projected := map f_brl xx in
  let diff_arr := map (fun d => fst d - snd d)
                      (combine b45_projected (map (polyval f_rhotl) xx)) in
  let indexes :=
    filter (fun i => let d := nth i diff_arr 0 in negb (Qltb d 0) && negb (Qeqb d 0))
           (seq 0 (length diff_arr)) in
  _ <- enter Stage_bounds ;;
  ib_indexes <- lift (integration_bounds (map Z.of_nat indexes)) ;;
  let roots := map (fun i => nth (Z.to_nat i) xx 0) ib_indexes in
  _ <- enter Stage_integrate ;;
  '(f45, _, _) <- lift (fitfunc E oB (skipn oIx Y) None 1000) ;;
  let ff := poly_sub f45 f_rhotl in
  pairwise_r <- lift (if (2 <? length roots)%nat
                      then np_split roots (length roots / 2)
                      else Ok [roots]) ;;
  '(areas, errs) <- lift (integrate_pairs (polyval ff) pairwise_r) ;;
  let ohmS := if sum then Total (Qsum areas) else Areas areas in
  let rv0 := mkOhms ohmS errs roots in
  let rv1 := mkView (combine X Y) (combine x_new y_projected) (combine oB (map f_brl oB)) in
  ret (if String.eqb objective "ohms" then (Some rv0, None)
       else if String.eqb objective "graph" then (None, Some rv1)
       else (Some rv0, Some rv1)).

(** [ohmicArea(AB=AB, rhoa=rhoa, ohmSkey=ohmSkey, sum=sum,
    objective=objective, typeofop=typeofop)]. *)
Definition ohmicArea (dtAB dtrho : dtype) (AB rhoa : list Q) (ohmSkey : keyarg)
    (sum : bool) (objective : string) (typeofop : option string)
  : M (option ohms_out * option view_out) :=
  objective <- lift (parse_objective objective) ;;
  _ <- enter Stage_reduce ;;
  '(X, Y) <- vesDataOperator typeofop dtAB dtrho AB rhoa ;;
  ohmSkey <- lift (coerce_key ohmSkey X) ;;
  _ <- lift (check_key ohmSkey X) ;;
  ohmic_numerics objective X Y ohmSkey sum.

End Pipeline.

(** The number that a text of decimal digits writes. *)
Fixpoint digits_from (acc : Z) (s : string) : option Z :=
  match s with
  | EmptyString => Some acc
  | String c s' =>
      let n := nat_of_ascii c in
      if (48 <=? n)%nat && (n <=? 57)%nat
      then digits_from (10 * acc + Z.of_nat (n - 48)) s'
      else None
  end.

Definition digits (s : string) : option Z :=
  match s with
  | EmptyString => None
  | _ => digits_from 0 s
  end.

(** An instance of the externals, to run the pipeline on concrete inputs: a
    generator that reverses, a solver that returns the line through the first
    and the last point, the trapezoid rule with a constant error estimate, a
    [float] that reads decimal digits, and room for 990 nested calls. *)
Definition sample_externals : externals unit :=
  mkExternals
    (fun a g => (rev a, g))
    (fun x y deg =>
       match x, y with
       | x0 :: _, y0 :: _ =>
           let x1 := last x x0 in
           let y1 := last y y0 in
           if Qeq_bool x1 x0 then Some [0; y0]
           else let a := Qred ((y1 - y0) / (x1 - x0)) in Some [a; Qred (y0 - a * x0)]
       | _, _ => None
       end)
    (fun f a b => (Qred ((b - a) * (f a + f b) / 2), 1 # 1000))
    (fun angle => 7071 # 10000)
    (fun s => option_map inject_Z (digits s))
    990.

(** The profile of the specification's first scenario, and what the
    pipeline returns for it at [ohmSkey = 20] with the sample externals. *)
Definition sample_AB : list Q := [0; 10; 20; 30; 40; 50; 60].
Definition sample_rhoa : list Q := [50; 55; 40; 20; 25; 60; 65].


Definition sample_ohms : ohms_out :=
  Eval vm_compute in
    match fst (ohmicArea sample_externals float64 float64 sample_AB sample_rhoa
                         (Key_num 20) false "ohmS" None (mkWorld tt [])) with
    | Ok (Some o, _) => o
    | _ => mkOhms (Areas []) [] []
    end.

(** ** Reading integration bounds back *)

Module BoundsRead.

Open Scope Z_scope.

(** [expand b]: the indices covered by a flattened list of inclusive bounds
    [lo0, hi0, lo1, hi1, ...]. *)
Fixpoint expand (b : list Z) : list Z :=
  match b with
  | lo :: hi :: b' => IxArr.arange lo (Z.to_nat (hi - lo + 1)) ++ expand b'
  | _ => []
  end.

(** The bounds come in pairs [lo <= hi], each pair more than one step to the
    right of the pair before it. *)
Fixpoint separated (b : list Z) : Prop :=
  match b with
  | [] => True
  | lo :: hi :: b' =>
      lo <= hi
      /\ match b' with
         | lo' :: _ => hi + 1 < lo'
         | [] => True
         end
      /\ separated b'
  | [_] => False
  end.

End BoundsRead.

(** ** One step of the evaluation of a polynomial *)

Module PolyRead.

Open Scope Q_scope.

(** Horner's step: what [polyval] folds over the coefficients. *)
Definition horner (x : Q) (acc c : Q) : Q := acc * x + c.

End PolyRead.

(** ** The other functions of [exmath]

    Their exceptions: those met so far, and a few more. *)

Inductive failure : Type :=
| Exn (e : exn)
| ValueError_not_a_subset    (* _find_cz_bound_indexes: cz is not a subset of erp *)
| ZeroDivisionError          (* integer modulo by zero *)
| TypeError_operand          (* unsupported operand types for - *)
| TypeError_int_of_array     (* int() of an array that has not exactly one element *)
| WATexError_station         (* detect_station_position: station not found, or index too large *)
| StationError_out_of_range. (* detect_station_position: station beyond the last position *)

Inductive pyres (A : Type) : Type :=
| Return (a : A)
| Raise (f : failure).
Arguments Return {A} a.
Arguments Raise {A} f.

Definition pybind {A B : Type} (m : pyres A) (k : A -> pyres B) : pyres B :=
  match m with
  | Return a => k a
  | Raise f => Raise f
  end.

Definition or_raise {A : Type} (f : failure) (o : option A) : pyres A :=
  match o with
  | Some a => Return a
  | None => Raise f
  end.

Declare Scope pyres_scope.
Delimit Scope pyres_scope with pyres.
Notation "'let*' x := m 'in' k" := (pybind m (fun x => k))
  (at level 10, x pattern, m at level 100, k at level 200) : pyres_scope.

Module Zone.

Import IxArr QArr Unique.
Open Scope Q_scope.
Open Scope pyres_scope.

(** [_find_cz_bound_indexes(erp, cz)]: the first and the last index of [erp]
    whose value is in [cz]. *)
Definition _find_cz_bound_indexes (erp cz : list Q) : pyres (nat * nat) :=
  if negb (existsb (fun b : bool => b) (isin erp cz))
  then Raise ValueError_not_a_subset
  else
    let cz_indexes := np_where (isin erp cz) in
    let* lb := or_raise (Exn IndexError) (py_getitem cz_indexes 0) in
    let* ub := or_raise (Exn IndexError) (py_getitem cz_indexes (-1)) in
    Return (lb, ub).

(** [erp[i]] is one of the values of [cz]. *)
Definition in_zone (erp cz : list Q) (i : nat) : Prop :=
  (i < length erp)%nat /\ existsb (Qeqb (nth i erp 0)) cz = true.

(** The integer dtypes of numpy: signed or unsigned, of [bits] bits. Their
    arithmetic wraps around. *)
Inductive int_dtype : Type :=
| signed (bits : Z)
| unsigned (bits : Z).

Definition wrap (dt : int_dtype) (z : Z) : Z :=
  match dt with
  | signed bits => ((z + 2 ^ (bits - 1)) mod 2 ^ bits - 2 ^ (bits - 1))%Z
  | unsigned bits => (z mod 2 ^ bits)%Z
  end.

Definition fits (dt : int_dtype) (z : Z) : Prop :=
  match dt with
  | signed bits => (- 2 ^ (bits - 1) <= z < 2 ^ (bits - 1))%Z
  | unsigned bits => (0 <= z < 2 ^ bits)%Z
  end.

(** The arrays [magnitude] and [power] are given: of floats, or of an
    integer dtype, whose values are within the dtype; and the numpy scalars
    they return. *)
Inductive ndarray : Type :=
| float_array (a : list Q)
| int_array (dt : int_dtype) (a : list Z).

Inductive scalar : Type :=
| float_scalar (x : Q)
| int_scalar (dt : int_dtype) (x : Z).

(** [magnitude(cz)] and [power(p)]: the subtraction and [np.abs] are those of
    the dtype of the array. *)
Definition magnitude (cz : ndarray) : pyres scalar :=
  match cz with
  | float_array a =>
      let* hi := or_raise (Exn ValueError_zero_size) (Qmaximum a) in
      let* lo := or_raise (Exn ValueError_zero_size) (Qminimum a) in
      Return (float_scalar (Qabs (hi - lo)))
  | int_array dt a =>
      let* hi := or_raise (Exn ValueError_zero_size) (np_max a) in
      let* lo := or_raise (Exn ValueError_zero_size) (np_min a) in
      Return (int_scalar dt (wrap dt (Z.abs (wrap dt (hi - lo)))))
  end.

Definition power (p : ndarray) : pyres scalar :=
  match p with
  | float_array a =>
      let* lo := or_raise (Exn ValueError_zero_size) (Qminimum a) in
      let* hi := or_raise (Exn ValueError_zero_size) (Qmaximum a) in
      Return (float_scalar (Qabs (lo - hi)))
  | int_array dt a =>
      let* lo := or_raise (Exn ValueError_zero_size) (np_min a) in
      let* hi := or_raise (Exn ValueError_zero_size) (np_max a) in
      Return (int_scalar dt (wrap dt (Z.abs (wrap dt (lo - hi)))))
  end.

Inductive side_name : Type := leftside | rightside.

(** The loop [for _, sid in zip((rmax_ls, rmax_rs), ('leftside',
    'rightside')): side = sid; break] of [__sves__], from [side = ...]. *)
Definition side_loop (sides : list (Q * side_name)) (side : option side_name)
  : option side_name :=
  match sides with
  | [] => side
  | (_, sid) :: _ => Some sid
  end.

(** [__sves__(s_index, cz)]: [((rho_ls, side), (rmax_ls, rmax_rs))]; a side
    left at the Ellipsis is [None]. *)
Definition __sves__ (s_index : Z) (cz : list Q)
  : pyres ((Q * option side_name) * (Q * Q)) :=
  let* rmax_ls := or_raise (Exn ValueError_empty_sequence)
                           (Qmaximum (slice_to cz (s_index + 1))) in
  let* rmax_rs := or_raise (Exn ValueError_empty_sequence)
                           (Qmaximum (slice_from cz s_index)) in
  let rho_ls := if Qltb rmax_ls rmax_rs then rmax_ls else rmax_rs in
  let side := side_loop [(rmax_ls, leftside); (rmax_rs, rightside)] None in
  Return ((rho_ls, side), (rmax_ls, rmax_rs)).

End Zone.


(** ** The type of an anomaly *)

Module AnomalyType.

Import IxArr QArr Unique.
Open Scope Q_scope.
Open Scope pyres_scope.

Inductive status_name : Type := yes | no.

Inductive type_name : Type := PC | EC | NC | CB2P.

(** An index taken out of an array, or the array left as it is. *)
Inductive ix : Type := Scalar (i : Z) | Array (a : list Z).

(** [int(ixl)]: of an array, the element of one that has exactly one. *)
Definition int_of (x : ix) : pyres Z :=
  match x with
  | Scalar i => Return i
  | Array [i] => Return i
  | Array _ => Raise TypeError_int_of_array
  end.

(** [np.where(a == m)]. *)
Definition where_eq (a : list Q) (m : Q) : list Z :=
  map Z.of_nat (np_where (map (fun x => Qeqb x m) a)).

Definition _type_mechanism (cz : list Q) (dipolelength : Q) : pyres (status_name * Q) :=
  let* s_index := or_raise (Exn ValueError_zero_size) (option_map Z.of_nat (argmin cz)) in
  let lc := slice_to cz (s_index + 1) in
  let rc := slice_from cz s_index in
  let* lm := or_raise (Exn ValueError_zero_size) (Qmaximum lc) in
  let* rm := or_raise (Exn ValueError_zero_size) (Qmaximum rc) in
  let ixl := where_eq lc lm in
  let ixr := where_eq rc rm in
  let* ixl := if (1 <? length ixl)%nat
              then let* i := or_raise (Exn IndexError) (py_getitem ixl 0) in
                   Return (Scalar i)
              else Return (Array ixl) in
  let* ixr := if (1 <? length ixr)%nat
              then let* i := or_raise (Exn IndexError) (py_getitem ixr (-1)) in
                   Return (Scalar (i + s_index))
              else Return (Array (map (fun i => (i + s_index)%Z) ixr)) in
  let* il := int_of ixl in
  let* ir := int_of ixr in
  let wcz := dipolelength * inject_Z (Z.abs (il - ir)) in
  let status := if Qltb (4 * dipolelength) wcz then yes else no in
  Return (status, wcz).

(** [np.split(a, sections)] for a number of sections: the remainder
    [len(a) % sections] is taken first. *)
Definition np_split_sections (a : list Q) (sections : nat) : pyres (list (list Q)) :=
  if (sections =? 0)%nat then Raise ZeroDivisionError
  else if negb (length a mod sections =? 0)%nat then Raise (Exn ValueError_split)
  else Return (chunks sections (length a / sections) a).

(** [np.arange(start, stop, step)] of naturals, for [step > 0]. *)
Definition np_arange (start stop step : nat) : list nat :=
  map (fun i => (start + i * step)%nat) (seq 0 ((stop - start + step - 1) / step)).

(** [np.split(a, indices)]: [a[0:i1], a[i1:i2], ..., a[ik:]]. *)
Fixpoint split_from (a : list Q) (st : nat) (indices : list nat) : list (list Q) :=
  match indices with
  | [] => [skipn st a]
  | en :: indices' => skipn st (firstn en a) :: split_from a en indices'
  end.

Definition np_split_indices (a : list Q) (indices : list nat) : list (list Q) :=
  split_from a 0 indices.

(** The windows [ssets] of [type_]: the [try] and its [except ValueError]. *)
Definition ssets (erp : list Q) : pyres (list (list Q)) :=
  match np_split_sections erp (length erp / 7) with
  | Raise (Exn e) =>
      match class_of e with
      | ValueError =>
          if (length erp <? 7)%nat then Return [erp]
          else
            let remains := (length erp mod 7)%nat in
            let indices := np_arange 7 (length erp - remains) 7 in
            Return (np_split_indices erp indices)
      | _ => Raise (Exn e)
      end
  | r => r
  end.

(** The loop that fills [status], one call of [_type_mechanism] (with its
    default dipole length) per window. *)
Fixpoint status_loop (windows : list (list Q)) : pyres (list status_name) :=
  match windows with
  | [] => Return []
  | czx :: windows' =>
      let* (sta, _) := _type_mechanism czx 10 in
      let* status := status_loop windows' in
      Return (sta :: status)
  end.

Definition status_eq_dec (a b : status_name) : {a = b} + {a <> b}.
Proof. decide equality. Defined.

Definition status_eqb (a b : status_name) : bool :=
  if status_eq_dec a b then true else false.

(** ['no' < 'yes'], and [-] on two strings. *)
Definition str_lt (a b : status_name) : bool :=
  match a, b with
  | no, yes => true
  | _, _ => false
  end.

Definition str_sub (a b : status_name) : pyres Z := Raise TypeError_operand.

(** [(a[i], a[i+1]) for i in range(len(a) - 1)]. *)
Fixpoint pairs {A : Type} (l : list A) : list (A * A) :=
  match l with
  | [] => []
  | a :: l' =>
      match l' with
      | [] => []
      | b :: _ => (a, b) :: pairs l'
      end
  end.

(** A list comprehension whose element may raise. *)
Fixpoint comprehension {A B : Type} (f : A -> pyres B) (l : list A) : pyres (list B) :=
  match l with
  | [] => Return []
  | a :: l' =>
      let* b := f a in
      let* r := comprehension f l' in
      Return (b :: r)
  end.

(** [==] of two sets given by their elements. *)
Definition set_eq (a b : list Z) : bool :=
  forallb (fun x => existsb (Z.eqb x) b) a && forallb (fun x => existsb (Z.eqb x) a) b.

(** From [if len(set(status)) == 1] to the end of [type_]. *)
Definition classify (status : list status_name) : pyres type_name :=
  let n := length (nodup status_eq_dec status) in
  if (n =? 1)%nat then
    match py_getitem status 0 with
    | Some yes => Return EC
    | Some no => Return NC
    | None => Raise (Exn IndexError)
    end
  else if (n =? 2)%nat then
    let yes_ix := map Z.of_nat (np_where (map (status_eqb yes) status)) in
    let no_ix := skipn (length yes_ix) status in
    let sort_ix_yes := forallb (fun '(a, b) => (a <? b)%Z) (pairs yes_ix) in
    let sort_ix_no := forallb (fun '(a, b) => str_lt a b) (pairs no_ix) in
    if Bool.eqb sort_ix_no sort_ix_yes && Bool.eqb sort_ix_yes true then
      let yes_set := map (fun '(a, b) => Z.abs (a - b)) (pairs yes_ix) in
      let* no_set := comprehension
                       (fun '(a, b) => let* d := str_sub a b in Return (Z.abs d))
                       (pairs no_ix) in
      if set_eq yes_set no_set && set_eq no_set [1%Z] then Return CB2P else Return PC
    else Return PC
  else Return PC.

Definition type_ (erp : list Q) : pyres type_name :=
  let* windows := ssets erp in
  let* status := status_loop windows in
  classify status.

End AnomalyType.

(** ** The station of the drilling *)

Module Station.

Import IxArr QArr.
Open Scope Q_scope.
Open Scope pyres_scope.

(** Arithmetic of [np.int32]. *)
Definition int32 (z : Z) : Prop := (- 2 ^ 31 <= z < 2 ^ 31)%Z.

Definition wrap32 (z : Z) : Z := ((z + 2 ^ 31) mod 2 ^ 32 - 2 ^ 31)%Z.

Definition floor (q : Q) : Z := (Qnum q / QDen q)%Z.

(** [a / b] of an [np.int32] by an [int]: [0 / 0] is [nan], here [None]. *)
Definition true_divide (a b : Z) : option Q :=
  if (b =? 0)%Z then None else Some (inject_Z a / inject_Z b).

(** [x % d] and [x // d] of floats; [x % 0.0] is [nan], here [None]. *)
Definition remainder (x d : Q) : option Q :=
  if Qeqb d 0 then None else Some (x - d * inject_Z (floor (x / d))).

Definition floor_divide (x d : Q) : Q := inject_Z (floor (x / d)).

(** [detect_station_position(s, p)] for an integer [s] and integer
    positions [p]. The cast [np.array(p, dtype=np.int32)] keeps the low 32
    bits of each position; the difference of the two [np.int32] extremes
    wraps as well. The spacing [dl] is a float, here exact: the model
    agrees with the code where [s] and the quotients are floats exactly. *)
Definition detect_station_position (s : Z) (p : list Z) : pyres (Z * Q) :=
  let p := map wrap32 p in
  let* hi := or_raise (Exn ValueError_zero_size) (np_max p) in
  let* lo := or_raise (Exn ValueError_zero_size) (np_min p) in
  let len_p := Z.of_nat (length p) in
  let dl := true_divide (wrap32 (hi - lo)) (len_p - 1) in
  if (len_p <? s)%Z then
    match dl with
    | None => Raise WATexError_station
    | Some dl =>
        match remainder (inject_Z s) dl with
        | None => Raise WATexError_station
        | Some r =>
            if negb (Qeqb r 0) then Raise WATexError_station
            else if Qeqb r 0 && Qleb (inject_Z s) (inject_Z hi) then
              let s_index := floor_divide (inject_Z s) dl in
              Return (floor s_index, s_index * dl)
            else Raise StationError_out_of_range
        end
    end
  else
    if (len_p <=? s)%Z then Raise WATexError_station
    else
      let* v := or_raise (Exn IndexError) (py_getitem p s) in
      Return (s, inject_Z v).

End Station.

(** ** The shape of a range of resistivities *)

Module RangeShape.

Import IxArr QArr Shape.
Open Scope Q_scope.
Open Scope pyres_scope.

(** The float [1.2]. *)
Definition float_1_2 : Q := 5404319552844595 # 4503599627370496.

Definition get_shape (rhoa_range : list Q) : pyres anomaly_shape :=
  let minlocals := map Z.of_nat (argrelextrema rhoa_range Qltb) in
  let average_curve := mean rhoa_range in
  if (1 <? length minlocals)%nat then
    let* first := or_raise (Exn IndexError) (py_getitem minlocals 0) in
    let* last := or_raise (Exn IndexError) (py_getitem minlocals (-1)) in
    let minlocals_slices := slice_from (slice_to rhoa_range (last + 1)) first in
    let average_minlocals_slices := mean minlocals_slices in
    if Qleb (float_1_2 * average_minlocals_slices) average_curve then
      let* r_last := or_raise (Exn IndexError) (py_getitem rhoa_range (-1)) in
      if Qltb r_last average_curve then
        let* r_last := or_raise (Exn IndexError) (py_getitem rhoa_range (-1)) in
        let* ix := or_raise (Exn IndexError)
                     (py_getitem (argrelextrema minlocals_slices (fun a b => Qltb b a)) 0) in
        let* top := or_raise (Exn IndexError) (py_getitem minlocals_slices (Z.of_nat ix)) in
        if Qltb top r_last then Return K else Return U
      else Return U
    else
      let* r_first := or_raise (Exn IndexError) (py_getitem rhoa_range 0) in
      if Qltb r_first average_curve then
        let* r_last := or_raise (Exn IndexError) (py_getitem rhoa_range (-1)) in
        if Qltb r_last average_curve then Return M else Return W
      else Return W
  else if (length minlocals =? 1)%nat then
    let* r_first := or_raise (Exn IndexError) (py_getitem rhoa_range 0) in
    let* r_last := or_raise (Exn IndexError) (py_getitem rhoa_range (-1)) in
    if Qltb r_first average_curve && Qltb r_last average_curve then Return M
    else if Qleb r_last average_curve then Return C
    else Return V
  else Return V.

End RangeShape.
(* ------------------------------------------------------------------ *)
(** * Properties *)

(** ** Properties of the bound finders *)

Module BoundsFacts.

Import IxArr Bounds.
Open Scope Z_scope.

(** *** Indexing *)

Lemma py_getitem_app_last {A : Type} (pre : list A) (x : A) (rest : list A) :
  py_getitem (pre ++ x :: rest) (Z.of_nat (length pre)) = Some x.
Proof.
  unfold py_getitem.
  destruct (Z.of_nat (length pre) <? 0) eqn:E; [apply Z.ltb_lt in E; lia|].
  rewrite Nat2Z.id, nth_error_app2 by lia.
  now rewrite Nat.sub_diag.
Qed.

Lemma py_getitem_prev (pre : list Z) (p : Z) (rest : list Z) :
  py_getitem ((pre ++ [p]) ++ rest) (Z.of_nat (length (pre ++ [p])) - 1) = Some p.
Proof.
  rewrite length_app. simpl length.
  replace (Z.of_nat (length pre + 1) - 1) with (Z.of_nat (length pre)) by lia.
  rewrite <- app_assoc. simpl. apply py_getitem_app_last.
Qed.

Lemma py_getitem_minus1 (l : list Z) (d : Z) :
  l <> [] -> py_getitem l (-1) = Some (last l d).
Proof.
  intros Hl. destruct (exists_last Hl) as [pre [x ->]].
  rewrite last_last. unfold py_getitem.
  rewrite length_app. simpl length.
  replace (-1 <? 0) with true by reflexivity.
  destruct (-1 + Z.of_nat (length pre + 1) <? 0) eqn:E; [apply Z.ltb_lt in E; lia|].
  replace (Z.to_nat (-1 + Z.of_nat (length pre + 1))) with (length pre) by lia.
  rewrite nth_error_app2 by lia. now rewrite Nat.sub_diag.
Qed.

(** *** The iterative finder computes the runs *)

(** Once the loop is past the first element, [s] holds the previous element
    and so does [ix_arr[jj-1]]: the loop appends exactly what [runs_aux]
    lists, except the last pair. *)
Lemma limit_loop_runs (rest pre : list Z) (p oc : Z) (b0 : list Z) :
  exists oc' b1,
    limit_loop ((pre ++ [p]) ++ rest) (Z.of_nat (length (pre ++ [p]))) rest p oc b0
      = Ok (oc', b1)
    /\ b1 ++ [oc'; last ((pre ++ [p]) ++ rest) 0] = b0 ++ runs_aux oc p rest.
Proof.
  revert pre p oc b0.
  induction rest as [|v rest IH]; intros pre p oc b0.
  - exists oc, b0. split; [reflexivity|].
    now rewrite app_nil_r, last_last.
  - cbn [limit_loop runs_aux].
    rewrite py_getitem_prev. cbn [of_option bind].
    specialize (IH (pre ++ [p]) v).
    replace ((pre ++ [p]) ++ v :: rest) with (((pre ++ [p]) ++ [v]) ++ rest)
      by (now rewrite <- (app_assoc _ [v])).
    replace (Z.of_nat (length (pre ++ [p])) + 1)
      with (Z.of_nat (length ((pre ++ [p]) ++ [v])))
      by (rewrite (length_app _ [v]); simpl length; lia).
    destruct (v - p =? 1); cbn [negb].
    + apply IH.
    + destruct (IH v (b0 ++ [oc; p])) as (oc' & b1 & H1 & H2).
      exists oc', b1. split; [exact H1|].
      rewrite H2, <- app_assoc. reflexivity.
Qed.

(** The head of a strictly increasing array is its minimum. *)
Lemma fold_min_head (l : list Z) (x : Z) :
  Forall (fun y => x < y) l -> fold_left Z.min l x = x.
Proof.
  revert x. induction l as [|y l IH]; intros x H; [reflexivity|].
  inversion H; subst. simpl.
  replace (Z.min x y) with x by lia. now apply IH.
Qed.

Lemma np_min_sorted (x : Z) (l : list Z) :
  StronglySorted Z.lt (x :: l) -> np_min (x :: l) = Some x.
Proof.
  intros H. inversion H; subst. simpl. f_equal. now apply fold_min_head.
Qed.

Lemma find_limit_runs (ix_arr b0 : list Z) :
  ix_arr <> [] -> StronglySorted Z.lt ix_arr ->
  find_limit_for_integration ix_arr b0 = (b0 ++ runs ix_arr, Returned).
Proof.
  intros Hne Hs. destruct ix_arr as [|x l]; [congruence|].
  unfold find_limit_for_integration.
  rewrite (np_min_sorted Hs).
  cbn [limit_loop].
  replace (x - (x - 1) =? 1) with true by (symmetry; apply Z.eqb_eq; lia).
  cbn [negb].
  destruct (limit_loop_runs l [] x x b0) as (oc' & b1 & H1 & H2).
  cbn [app length] in H1, H2. change (Z.of_nat 1) with (0 + 1) in H1.
  rewrite H1.
  rewrite (@py_getitem_minus1 (x :: l) 0) by congruence.
  rewrite Z.eqb_refl. now rewrite H2.
Qed.


(** *** The recursive finder computes the runs *)

Lemma take_run_app (p : Z) (l : list Z) :
  l = fst (take_run p l) ++ snd (take_run p l).
Proof.
  revert p. induction l as [|v l IH]; intros p; [reflexivity|].
  cbn [take_run]. destruct (v - p =? 1); [|reflexivity].
  specialize (IH v). destruct (take_run v l) as [r t]. cbn [fst snd] in *.
  cbn [app]. now f_equal.
Qed.

Lemma last_cons_default (v p : Z) (r : list Z) : last (v :: r) p = last r v.
Proof.
  revert v p. induction r as [|z r IH]; intros v p; [reflexivity|].
  change (last (v :: z :: r) p) with (last (z :: r) p).
  now rewrite !IH.
Qed.

Lemma runs_take_run (oc p : Z) (l : list Z) :
  runs_aux oc p l = oc :: last (fst (take_run p l)) p :: runs (snd (take_run p l)).
Proof.
  revert oc p. induction l as [|v l IH]; intros oc p; [reflexivity|].
  cbn [runs_aux take_run]. destruct (v - p =? 1).
  - rewrite IH. destruct (take_run v l) as [r t]. cbn [fst snd].
    f_equal. f_equal. symmetry. apply last_cons_default.
  - reflexivity.
Qed.

(** Past a gap, a strictly increasing array stays above the progression. *)
Lemma where_from_gap (l : list Z) (e : Z) (n i : nat) :
  StronglySorted Z.lt l -> Forall (fun y => e < y) l ->
  where_from i (map (fun d => d =? 0) (np_sub l (arange e n))) = [].
Proof.
  revert e n i. induction l as [|v l IH]; intros e n i Hs Hb; [reflexivity|].
  destruct n as [|n]; [reflexivity|].
  inversion Hs as [|? ? Hs' Hv]; subst. inversion Hb as [|? ? Hev Hb']; subst.
  cbn [arange np_sub map where_from].
  replace (v - e =? 0) with false by (symmetry; apply Z.eqb_neq; lia).
  apply IH; [assumption|].
  rewrite Forall_forall in *. intros y Hy. specialize (Hv y Hy). lia.
Qed.

(** Up to the first gap it follows the progression. *)
Lemma where_from_run (l : list Z) (p : Z) (i : nat) :
  StronglySorted Z.lt (p :: l) ->
  where_from i (map (fun d => d =? 0) (np_sub l (arange (p + 1) (length l))))
  = seq i (length (fst (take_run p l))).
Proof.
  revert p i. induction l as [|v l IH]; intros p i Hs; [reflexivity|].
  inversion Hs as [|? ? Hs' Hp]; subst.
  cbn [length arange np_sub map where_from take_run].
  destruct (v - p =? 1) eqn:E.
  - apply Z.eqb_eq in E.
    replace (v - (p + 1) =? 0) with true by (symmetry; apply Z.eqb_eq; lia).
    replace (p + 1 + 1) with (v + 1) by lia.
    rewrite (IH v (S i) Hs').
    destruct (take_run v l) as [r t]. reflexivity.
  - apply Z.eqb_neq in E. inversion Hp as [|? ? Hpv Hp']; subst.
    replace (v - (p + 1) =? 0) with false by (symmetry; apply Z.eqb_neq; lia).
    cbn [fst length seq]. apply where_from_gap.
    + now inversion Hs'.
    + inversion Hs' as [|? ? ? Hv]; subst.
      rewrite Forall_forall in *. intros y Hy. specialize (Hv y Hy). lia.
Qed.

Lemma take_seq (a : list Z) (k : nat) :
  (k <= length a)%nat -> take a (seq 0 k) = firstn k a.
Proof.
  unfold take. revert k. induction a as [|x a IH]; intros k Hk.
  - destruct k; [reflexivity | simpl in Hk; lia].
  - destruct k as [|k]; [reflexivity|].
    cbn [seq map firstn nth]. f_equal.
    rewrite <- seq_shift, map_map. cbn [nth]. apply IH. simpl in Hk. lia.
Qed.

Lemma fold_max_last (l : list Z) (x : Z) :
  StronglySorted Z.lt (x :: l) -> fold_left Z.max l x = last l x.
Proof.
  revert x. induction l as [|y l IH]; intros x H; [reflexivity|].
  inversion H as [|? ? Hs Hx]; subst. inversion Hx; subst.
  cbn [fold_left]. replace (Z.max x y) with y by lia.
  rewrite (IH y Hs). symmetry. apply last_cons_default.
Qed.

Lemma nat_max_seq (n : nat) : nat_max (seq 0 (S n)) = Some n.
Proof.
  cbn [seq nat_max]. f_equal.
  enough (H : forall a, fold_left Nat.max (seq (S a) n) a = (a + n)%nat) by apply (H 0%nat).
  induction n as [|n IH]; intros a; [simpl; lia|].
  cbn [seq fold_left]. replace (Nat.max a (S a)) with (S a) by lia.
  rewrite IH. lia.
Qed.

Lemma sorted_app_r (l1 l2 : list Z) :
  StronglySorted Z.lt (l1 ++ l2) -> StronglySorted Z.lt l2.
Proof.
  induction l1 as [|x l1 IH]; [trivial|].
  intros H. inversion H; subst. auto.
Qed.

Lemma sorted_app_l (l1 l2 : list Z) :
  StronglySorted Z.lt (l1 ++ l2) -> StronglySorted Z.lt l1.
Proof.
  induction l1 as [|x l1 IH]; intros H; [constructor|].
  inversion H as [|? ? Hs Hx]; subst. constructor; [auto|].
  rewrite Forall_app in Hx. tauto.
Qed.

Lemma count_runs_aux (oc p : Z) (l : list Z) :
  Nat.div2 (length (runs_aux oc p l))
  = S (Nat.div2 (length (runs (snd (take_run p l))))).
Proof.
  rewrite runs_take_run. reflexivity.
Qed.

(** On a strictly increasing array every frame takes one run: with room for
    the runs the call returns their bounds, and with less it has appended the
    bounds of as many runs as it had frames when the next call fails. *)
Lemma find_bound_fuel_sorted (fuel : nat) (ix_arr b0 : list Z) :
  ix_arr <> [] -> StronglySorted Z.lt ix_arr ->
  find_bound_fuel fuel ix_arr b0
  = if (count_runs ix_arr <=? fuel)%nat
    then (b0 ++ runs ix_arr, Returned)
    else (b0 ++ firstn (2 * fuel) (runs ix_arr), Raised RecursionError).
Proof.
  revert ix_arr b0. induction fuel as [|fuel IH]; intros ix_arr b0 Hne Hs.
  - destruct ix_arr as [|x l]; [congruence|].
    unfold count_runs. cbn [runs]. rewrite count_runs_aux.
    cbn [find_bound_fuel Nat.leb Nat.mul firstn]. now rewrite app_nil_r.
  - destruct ix_arr as [|x l]; [congruence|].
    cbn [find_bound_fuel]. rewrite (np_min_sorted Hs).
    cbn [length arange np_sub map].
    replace (x - x =? 0) with true by (symmetry; apply Z.eqb_eq; lia).
    unfold np_where. cbn [where_from].
    rewrite (where_from_run 1 Hs).
    pose proof (take_run_app x l) as Hl.
    unfold count_runs. cbn [runs]. rewrite count_runs_aux, runs_take_run.
    destruct (take_run x l) as [r t] eqn:Et. cbn [fst snd] in Hl.
    cbn [fst snd]. change (0%nat :: seq 1 (length r)) with (seq 0 (S (length r))).
    assert (Hlen : (S (length r) <= length (x :: l))%nat).
    { rewrite Hl. cbn [length]. rewrite length_app. lia. }
    rewrite (take_seq _ Hlen). cbn [firstn].
    assert (Hfr : firstn (length r) l = r).
    { rewrite Hl. rewrite firstn_app, firstn_all, Nat.sub_diag. cbn [firstn]. apply app_nil_r. }
    rewrite Hfr.
    assert (Hsr : StronglySorted Z.lt (x :: r)).
    { apply (@sorted_app_l (x :: r) t). cbn [app]. now rewrite <- Hl. }
    rewrite (np_min_sorted Hsr). cbn [np_max]. rewrite (fold_max_last Hsr).
    rewrite nat_max_seq.
    replace (length r + 1)%nat with (S (length r)) by lia. cbn [skipn].
    assert (Hsk : skipn (length r) l = t).
    { rewrite Hl. rewrite skipn_app, skipn_all, Nat.sub_diag. reflexivity. }
    rewrite Hsk.
    replace (2 * S fuel)%nat with (S (S (2 * fuel))) by lia. cbn [firstn Nat.leb].
    destruct t as [|y t'].
    + cbn [length Nat.eqb runs Nat.div2 Nat.leb]. rewrite <- !app_assoc. reflexivity.
    + cbn [length Nat.eqb].
      rewrite IH.
      * fold (count_runs (y :: t')).
        destruct (count_runs (y :: t') <=? fuel)%nat; rewrite <- !app_assoc; reflexivity.
      * congruence.
      * apply (@sorted_app_r (x :: r)). cbn [app]. now rewrite <- Hl.
Qed.

Lemma find_bound_runs (limit : nat) (ix_arr b0 : list Z) :
  ix_arr <> [] -> StronglySorted Z.lt ix_arr -> (count_runs ix_arr <= S limit)%nat ->
  find_bound_for_integration limit ix_arr b0 = (b0 ++ runs ix_arr, Returned).
Proof.
  intros Hne Hs Hc. unfold find_bound_for_integration.
  rewrite find_bound_fuel_sorted by assumption.
  now replace (count_runs ix_arr <=? S limit)%nat with true
    by (symmetry; apply Nat.leb_le; exact Hc).
Qed.

Lemma find_bound_out_of_room (limit : nat) (ix_arr b0 : list Z) :
  ix_arr <> [] -> StronglySorted Z.lt ix_arr -> (S limit < count_runs ix_arr)%nat ->
  find_bound_for_integration limit ix_arr b0
  = (b0 ++ firstn (2 * S limit) (runs ix_arr), Raised RecursionError).
Proof.
  intros Hne Hs Hc. unfold find_bound_for_integration.
  rewrite find_bound_fuel_sorted by assumption.
  now replace (count_runs ix_arr <=? S limit)%nat with false
    by (symmetry; apply Nat.leb_gt; exact Hc).
Qed.

(** A run holds an index at least: there are no more runs than indices. *)
Lemma length_runs_aux (oc p : Z) (l : list Z) :
  (length (runs_aux oc p l) <= 2 * S (length l))%nat.
Proof.
  revert oc p. induction l as [|v l IH]; intros oc p; cbn [runs_aux length]; [lia|].
  destruct (v - p =? 1).
  - specialize (IH oc v). lia.
  - cbn [length]. specialize (IH v v). lia.
Qed.

Lemma even_runs_aux (oc p : Z) (l : list Z) :
  Nat.even (length (runs_aux oc p l)) = true.
Proof.
  revert oc p. induction l as [|v l IH]; intros oc p; cbn [runs_aux]; [reflexivity|].
  destruct (v - p =? 1); [apply IH|]. cbn [length Nat.even]. apply IH.
Qed.

Lemma count_runs_le_length (l : list Z) : (count_runs l <= length l)%nat.
Proof.
  unfold count_runs. destruct l as [|x l]; [cbn; lia|]. cbn [runs length].
  pose proof (length_runs_aux x x l) as H.
  pose proof (Nat.div2_odd (length (runs_aux x x l))) as Hd.
  pose proof (even_runs_aux x x l) as He.
  rewrite <- Nat.negb_odd in He. apply negb_true_iff in He. rewrite He in Hd.
  cbn [Nat.b2n] in Hd. lia.
Qed.

(** Both finders list the runs of a strictly increasing array, whatever the
    accumulator held before, when the recursive one has the room to. *)
Lemma finders_agree (limit : nat) (ix_arr b0 : list Z) :
  ix_arr <> [] -> StronglySorted Z.lt ix_arr -> (count_runs ix_arr <= S limit)%nat ->
  find_bound_for_integration limit ix_arr b0 = find_limit_for_integration ix_arr b0.
Proof.
  intros Hne Hs Hc. now rewrite find_bound_runs, find_limit_runs.
Qed.

(** The indices [0, 2, 4, ...]: every one is a run of its own. *)
Lemma sorted_evens (a n : nat) :
  StronglySorted Z.lt (map (fun i => 2 * Z.of_nat i) (seq a n)).
Proof.
  revert a. induction n as [|n IH]; intros a; cbn [seq map]; constructor; [apply IH|].
  apply Forall_forall. intros y Hy. apply in_map_iff in Hy.
  destruct Hy as (i & <- & Hi). apply in_seq in Hi. lia.
Qed.

Lemma runs_aux_evens (a n : nat) :
  length (runs_aux (2 * Z.of_nat a) (2 * Z.of_nat a)
                   (map (fun i => 2 * Z.of_nat i) (seq (S a) n)))
  = (2 * S n)%nat.
Proof.
  revert a. induction n as [|n IH]; intros a; cbn [seq map runs_aux]; [reflexivity|].
  replace (2 * Z.of_nat (S a) - 2 * Z.of_nat a =? 1) with false
    by (symmetry; apply Z.eqb_neq; lia).
  cbn [length]. rewrite IH. lia.
Qed.

Lemma count_runs_evens (n : nat) :
  count_runs (map (fun i => 2 * Z.of_nat i) (seq 0 n)) = n.
Proof.
  unfold count_runs. destruct n as [|n]; [reflexivity|].
  cbn [seq map runs]. rewrite (runs_aux_evens 0 n).
  replace (2 * S n)%nat with (2 * S n + 0)%nat by lia.
  pose proof (Nat.div2_double (S n)) as H. rewrite Nat.add_0_r. exact H.
Qed.

(** C5, as stated, fails: [thousand_runs] is well formed and the iterative
    finder returns its bounds, but the recursive finder, which enters one
    frame per run, raises RecursionError on it, even when it is called with
    the whole of the interpreter's default limit of 1000 frames before it. *)
Lemma C5_recursion_limit_is_reached :
  thousand_runs <> []
  /\ StronglySorted Z.lt thousand_runs
  /\ Forall (fun i => 0 <= i) thousand_runs
  /\ snd (find_limit_for_integration thousand_runs []) = Returned
  /\ snd (find_bound_for_integration 999 thousand_runs []) = Raised RecursionError.
Proof.
  assert (Hne : thousand_runs <> []) by discriminate.
  assert (Hs : StronglySorted Z.lt thousand_runs) by apply sorted_evens.
  split; [exact Hne|]. split; [exact Hs|]. split; [|split].
  - apply Forall_forall. intros y Hy. apply in_map_iff in Hy.
    destruct Hy as (i & <- & _). lia.
  - now rewrite find_limit_runs.
  - rewrite find_bound_out_of_room; [reflexivity | assumption | assumption |].
    unfold thousand_runs. rewrite count_runs_evens. lia.
Qed.

(** C5 (amended): on a non-empty array of strictly increasing non-negative
    indices, the iterative [find_limit_for_integration] returns the bounds of
    the maximal runs of consecutive indices; the recursive
    [find_bound_for_integration], each started on a fresh empty list, returns
    the same list when the interpreter leaves it room for one frame per run,
    and otherwise raises RecursionError after appending the bounds of the runs
    it had room for; so whenever both return they return the same list. *)
Theorem C5_finders_identical_within_the_recursion_limit (limit : nat) (ix_arr : list Z) :
  ix_arr <> [] ->
  StronglySorted Z.lt ix_arr ->
  Forall (fun i => 0 <= i) ix_arr ->
  find_limit_for_integration ix_arr [] = (runs ix_arr, Returned)
  /\ ((count_runs ix_arr <= S limit)%nat ->
      find_bound_for_integration limit ix_arr [] = (runs ix_arr, Returned))
  /\ ((S limit < count_runs ix_arr)%nat ->
      find_bound_for_integration limit ix_arr []
      = (firstn (2 * S limit) (runs ix_arr), Raised RecursionError))
  /\ (snd (find_bound_for_integration limit ix_arr []) = Returned ->
      find_bound_for_integration limit ix_arr [] = find_limit_for_integration ix_arr []).
Proof.
  intros Hne Hs _.
  assert (Hl : find_limit_for_integration ix_arr [] = (runs ix_arr, Returned))
    by now rewrite find_limit_runs.
  split; [exact Hl|]. split; [|split].
  - intros Hc. now rewrite find_bound_runs.
  - intros Hc. now rewrite find_bound_out_of_room.
  - destruct (Nat.le_gt_cases (count_runs ix_arr) (S limit)) as [Hc|Hc].
    + intros _. rewrite Hl. now rewrite find_bound_runs.
    + rewrite find_bound_out_of_room by assumption. discriminate.
Qed.

Lemma C5_witness :
  find_limit_for_integration [1; 2; 3; 7; 8; 10] [] = (runs [1; 2; 3; 7; 8; 10], Returned)
  /\ ((count_runs [1; 2; 3; 7; 8; 10]%Z <= S 2)%nat ->
      find_bound_for_integration 2 [1; 2; 3; 7; 8; 10] []
      = (runs [1; 2; 3; 7; 8; 10], Returned))
  /\ ((S 2 < count_runs [1; 2; 3; 7; 8; 10]%Z)%nat ->
      find_bound_for_integration 2 [1; 2; 3; 7; 8; 10] []
      = (firstn (2 * S 2) (runs [1; 2; 3; 7; 8; 10]), Raised RecursionError))
  /\ (snd (find_bound_for_integration 2 [1; 2; 3; 7; 8; 10] []) = Returned ->
      find_bound_for_integration 2 [1; 2; 3; 7; 8; 10] []
      = find_limit_for_integration [1; 2; 3; 7; 8; 10] []).
Proof.
  apply (@C5_finders_identical_within_the_recursion_limit 2 [1; 2; 3; 7; 8; 10]).
  - discriminate.
  - repeat (constructor; [|repeat (constructor; try lia)]). constructor.
  - repeat (constructor; try lia).
Defined.

(** C3, as stated, fails: on the empty array neither finder returns. *)
Lemma C3_empty_input_does_not_return :
  (forall limit, snd (find_bound_for_integration limit [] []) <> Returned)
  /\ snd (find_limit_for_integration [] []) <> Returned.
Proof.
  split; [intros limit|]; cbn; discriminate.
Qed.

(** C3 (amended): on the empty array both finders fail in their first
    statement, [ix_arr.min()], with numpy's ValueError for a reduction of a
    zero-size array; nothing has been appended to the accumulator by then. *)
Theorem C3_empty_input_raises (limit : nat) (b0 : list Z) :
  find_bound_for_integration limit [] b0 = (b0, Raised ValueError_zero_size)
  /\ find_limit_for_integration [] b0 = (b0, Raised ValueError_zero_size).
Proof.
  split; reflexivity.
Qed.

(** Two calls that leave [b0] at its default work on one list: the second
    call of either finder returns the bounds twice. *)
Lemma default_calls_accumulate (limit : nat) (a : list Z) :
  a <> [] -> StronglySorted Z.lt a -> (count_runs a <= S limit)%nat ->
  let '(r1, st1) := call_bound limit a at_import in
  let '(r2, _) := call_bound limit a st1 in
  r1 = Ok (runs a) /\ r2 = Ok (runs a ++ runs a).
Proof.
  intros Hne Hs Hc. unfold call_bound, at_import. cbn [bound_b0 limit_b0].
  rewrite find_bound_runs by assumption. cbn [bound_b0 app].
  rewrite find_bound_runs by assumption. split; reflexivity.
Qed.

(** C4: the code at the failing input. After the import, two successive calls
    [find_bound_for_integration(a)] with [a = [1, 2]] return [[1, 2]] and then
    [[1, 2, 1, 2]]; [find_limit_for_integration] does the same. *)
Theorem C4_second_default_call_differs (limit : nat) :
  (let '(r1, st1) := call_bound limit [1; 2] at_import in
   let '(r2, _) := call_bound limit [1; 2] st1 in
   r1 = Ok [1; 2] /\ r2 = Ok [1; 2; 1; 2] /\ r1 <> r2)
  /\
  (let '(r1, st1) := call_limit [1; 2] at_import in
   let '(r2, _) := call_limit [1; 2] st1 in
   r1 = Ok [1; 2] /\ r2 = Ok [1; 2; 1; 2] /\ r1 <> r2).
Proof.
  split; cbn; repeat split; discriminate.
Qed.

End BoundsFacts.

(** ** Properties of the shape classifier *)

Module ShapeFacts.

Import IxArr FArr Shape PrimFloat.
Open Scope float_scope.

Lemma In_firstn (A : Type) (n : nat) (l : list A) (x : A) : In x (firstn n l) -> In x l.
Proof.
  intros H. rewrite <- (firstn_skipn n l). apply in_or_app. now left.
Qed.

Lemma In_skipn (A : Type) (n : nat) (l : list A) (x : A) : In x (skipn n l) -> In x l.
Proof.
  intros H. rewrite <- (firstn_skipn n l). apply in_or_app. now right.
Qed.

Lemma py_getitem_member (A : Type) (l : list A) (i : Z) (x : A) :
  py_getitem l i = Some x -> In x l.
Proof.
  unfold py_getitem.
  destruct (i <? 0)%Z; [destruct (_ <? 0)%Z; [discriminate|]|]; apply nth_error_In.
Qed.

(** *** Rescaling by a factor that keeps the order of the values *)

Section Rescaling.

Variable k : float.
Variable vals : list float.
Hypothesis kept : keeps_order k vals = true.

Let scale (l : list float) : list float := map (mul k) l.

Lemma kept_at (a : float) :
  In a vals ->
  is_nan (k * a) = is_nan a
  /\ (k * a =? 0) = (a =? 0)
  /\ forall b, In b vals ->
               (k * a <? k * b) = (a <? b) /\ (k * a <=? k * b) = (a <=? b).
Proof.
  intros Ha. pose proof kept as K. unfold keeps_order in K.
  rewrite forallb_forall in K. specialize (K a Ha).
  apply andb_prop in K as [K K3]. apply andb_prop in K as [K1 K2].
  apply Bool.eqb_prop in K1, K2. split; [exact K1|]. split; [exact K2|].
  intros b Hb. rewrite forallb_forall in K3. specialize (K3 b Hb).
  apply andb_prop in K3 as [K3 K4].
  apply Bool.eqb_prop in K3, K4. now split.
Qed.

Lemma ltb_scale (a b : float) :
  In a vals -> In b vals -> (k * a <? k * b) = (a <? b).
Proof.
  intros Ha Hb. destruct (kept_at a Ha) as (_ & _ & H). now destruct (H b Hb).
Qed.

Lemma leb_scale (a b : float) :
  In a vals -> In b vals -> (k * a <=? k * b) = (a <=? b).
Proof.
  intros Ha Hb. destruct (kept_at a Ha) as (_ & _ & H). now destruct (H b Hb).
Qed.

Lemma length_scale (l : list float) : length (scale l) = length l.
Proof.
  apply length_map.
Qed.

Lemma argmin_from_scale (l : list float) (i besti : nat) (best : float) :
  In best vals -> incl l vals ->
  argmin_from i besti (k * best) (scale l) = argmin_from i besti best l.
Proof.
  revert i besti best.
  induction l as [|x l IH]; intros i besti best Hb Hl; [reflexivity|].
  cbn [scale map argmin_from].
  assert (Hx : In x vals) by (apply Hl; now left).
  assert (Hl' : incl l vals) by (intros y Hy; apply Hl; now right).
  rewrite (leb_scale best x Hb Hx). destruct (kept_at x Hx) as (-> & _ & _).
  destruct (negb (best <=? x)).
  - destruct (is_nan x); [reflexivity|]. now apply IH.
  - now apply IH.
Qed.

Lemma argmin_scale (l : list float) : incl l vals -> argmin (scale l) = argmin l.
Proof.
  destruct l as [|x l]; intros Hl; [reflexivity|].
  assert (Hx : In x vals) by (apply Hl; now left).
  cbn [scale map argmin]. f_equal.
  destruct (kept_at x Hx) as (-> & _ & _).
  destruct (is_nan x); [reflexivity|].
  apply argmin_from_scale; [exact Hx|]. intros y Hy. apply Hl. now right.
Qed.

Lemma nth_scale (l : list float) (i : nat) :
  (i < length l)%nat -> nth i (scale l) 0 = k * nth i l 0.
Proof.
  intros Hi. unfold scale.
  rewrite (nth_indep _ 0 (k * 0)) by now rewrite length_map.
  apply (map_nth (mul k)).
Qed.

Lemma argrelextrema_scale (comparator : float -> float -> bool) (l : list float) :
  (forall a b, In a vals -> In b vals -> comparator (k * a) (k * b) = comparator a b) ->
  incl l vals ->
  argrelextrema (scale l) comparator = argrelextrema l comparator.
Proof.
  intros Hc Hl. unfold argrelextrema. cbv zeta. rewrite length_scale.
  apply filter_ext_in. intros i Hi. apply in_seq in Hi.
  rewrite !nth_scale by lia.
  rewrite !Hc by (apply Hl, nth_In; lia). reflexivity.
Qed.

Lemma py_and_scale (a b : float) :
  In a vals -> py_and (k * a) (k * b) = k * py_and a b.
Proof.
  intros Ha. unfold py_and. destruct (kept_at a Ha) as (_ & -> & _).
  now destruct (a =? 0).
Qed.

Lemma py_and_In (a b : float) : In a vals -> In b vals -> In (py_and a b) vals.
Proof.
  intros Ha Hb. unfold py_and. now destruct (a =? 0).
Qed.

Lemma decide_scale (ls rs med : float) (a b c d : nat) :
  In ls vals -> In rs vals -> In med vals ->
  decide (k * ls) (k * rs) (k * med) a b c d = decide ls rs med a b c d.
Proof.
  intros Hls Hrs Hmed. unfold decide. rewrite (py_and_scale ls rs Hls).
  pose proof (py_and_In ls rs Hls Hrs) as Hand.
  rewrite !ltb_scale, !leb_scale by assumption. reflexivity.
Qed.

Lemma py_getitem_scale (l : list float) (i : Z) :
  py_getitem (scale l) i = option_map (mul k) (py_getitem l i).
Proof.
  unfold py_getitem, scale. rewrite length_map.
  destruct (i <? 0)%Z; [destruct (_ <? 0)%Z; [reflexivity|]|]; apply nth_error_map.
Qed.

Lemma slice_to_scale (l : list float) (i : Z) :
  QArr.slice_to (scale l) i = scale (QArr.slice_to l i).
Proof.
  unfold QArr.slice_to, scale. rewrite length_map. apply firstn_map.
Qed.

Lemma slice_from_scale (l : list float) (i : Z) :
  QArr.slice_from (scale l) i = scale (QArr.slice_from l i).
Proof.
  unfold QArr.slice_from, scale. rewrite length_map. apply skipn_map.
Qed.

Lemma shape_scale (cz : list float) (s : station) :
  incl cz vals -> In (median cz) vals ->
  median (scale cz) = k * median cz ->
  shape (scale cz) s = shape cz s.
Proof.
  intros Hcz Hmed Emed. unfold shape.
  assert (Hs : match s with
               | S_default => of_option ValueError_zero_size (option_map Z.of_nat (argmin (scale cz)))
               | S_None => Err UnboundLocalError
               | S_index i => Ok i
               end
               = match s with
                 | S_default => of_option ValueError_zero_size (option_map Z.of_nat (argmin cz))
                 | S_None => Err UnboundLocalError
                 | S_index i => Ok i
                 end).
  { destruct s; try reflexivity. now rewrite argmin_scale. }
  rewrite Hs. clear Hs.
  destruct (match s with S_default => _ | S_None => _ | S_index i => _ end) as [s_index|e];
    [|reflexivity].
  cbn [bind]. rewrite length_scale.
  destruct (Z.of_nat (length cz) <=? s_index)%Z; [reflexivity|].
  rewrite slice_to_scale, slice_from_scale, !py_getitem_scale.
  assert (Hl : incl (QArr.slice_to cz (s_index + 1)) vals).
  { intros x Hx. apply Hcz. exact (In_firstn _ _ _ Hx). }
  assert (Hr : incl (QArr.slice_from cz s_index) vals).
  { intros x Hx. apply Hcz. exact (In_skipn _ _ _ Hx). }
  destruct (py_getitem (QArr.slice_to cz (s_index + 1)) 0) as [ls|] eqn:Els; [|reflexivity].
  destruct (py_getitem (QArr.slice_from cz s_index) (-1)) as [rs|] eqn:Ers; [|reflexivity].
  cbn [option_map of_option bind]. f_equal.
  rewrite Emed.
  rewrite !(argrelextrema_scale ltb) by (assumption || (intros; now apply ltb_scale)).
  rewrite !(argrelextrema_scale (fun a b => b <? a))
    by (assumption || (intros; now apply ltb_scale)).
  apply decide_scale;
    [apply Hl, (py_getitem_member _ _ Els)|apply Hr, (py_getitem_member _ _ Ers)|exact Hmed].
Qed.

End Rescaling.

(** C9, as stated, fails: on the zone [1, 1 + 2^-52, 0.5, 3] the median is
    the rounded mean of its two middle values, [1], which is not below the
    left end value, and [shape] returns [U]; multiplied by [1.5] the two
    middle values become [1.5] and [1.5 + 2^-51], the median exceeds the
    left end value, and [shape] returns [C]. *)
Lemma C9_rounding_changes_the_shape :
  (0 <? 1.5) = true
  /\ shape tight_zone S_default = Ok U
  /\ shape (map (mul 1.5) tight_zone) S_default = Ok C.
Proof.
  repeat split.
Qed.

(** C9 (amended): for every conductive zone [cz], every station argument [s]
    and every factor [k] such that the products by [k] of the values of [cz]
    and of its median compare with each other, with zero and with NaN as the
    values themselves do, and such that the median of [k * cz] is [k] times
    the median of [cz], [shape] returns for [k * cz] what it returns for
    [cz] (the same shape, or the same exception). *)
Theorem C9_shape_invariant_under_exact_rescaling (k : float) (cz : list float)
  (s : station) :
  keeps_order k (median cz :: cz) = true ->
  median (map (mul k) cz) = k * median cz ->
  shape (map (mul k) cz) s = shape cz s.
Proof.
  intros Hk Hmed. apply (shape_scale Hk).
  - intros x Hx. now right.
  - now left.
  - exact Hmed.
Qed.

Lemma C9_witness :
  keeps_order 10 (median scenario2 :: scenario2) = true
  /\ median (map (mul 10) scenario2) = 10 * median scenario2
  /\ shape (map (mul 10) scenario2) S_default = shape scenario2 S_default.
Proof.
  split; [reflexivity|]. split; [reflexivity|].
  apply (@C9_shape_invariant_under_exact_rescaling 10 scenario2 S_default);
    reflexivity.
Defined.

(** C2, as stated, fails: the zone of scenario 2 is not classified [U]. *)
Lemma C2_scenario2_is_not_U : shape scenario2 S_default <> Ok U.
Proof.
  vm_compute. discriminate.
Qed.

(** C2 (amended): with no station given, the station of the zone
    [60,70,65,40,30,31,34,40,38,50,61,90] is its argmin (index 4); both end
    values exceed the median 45, the left side has no local minimum and the
    right side exactly one (38), and [shape] returns [H]. *)
Theorem C2_scenario2_is_H :
  argmin scenario2 = Some 4%nat
  /\ median scenario2 = 45
  /\ length (argrelextrema (QArr.slice_to scenario2 5) ltb) = 0%nat
  /\ length (argrelextrema (QArr.slice_from scenario2 4) ltb) = 1%nat
  /\ shape scenario2 S_default = Ok H.
Proof.
  repeat split.
Qed.

End ShapeFacts.

(** ** Properties of sorting and of [np.unique] *)

Module UniqueFacts.

Import QArr Unique.
Open Scope Q_scope.

Lemma Qleb_false (x y : Q) : Qleb x y = false -> y < x.
Proof.
  unfold Qleb. intros H. apply Qnot_le_lt. intros Hle.
  apply Qle_bool_iff in Hle. congruence.
Qed.

Lemma insert_In (x y : Q) (l : list Q) : In x (insert y l) <-> x = y \/ In x l.
Proof.
  induction l as [|z l IH]; cbn [insert].
  - cbn. intuition.
  - destruct (Qleb y z); cbn [In]; [intuition|].
    rewrite IH. intuition.
Qed.

Lemma sort_In (x : Q) (l : list Q) : In x (sort l) <-> In x l.
Proof.
  induction l as [|y l IH]; cbn [sort]; [reflexivity|].
  rewrite insert_In, IH. cbn [In]. intuition.
Qed.

Lemma insert_sorted (x : Q) (l : list Q) :
  StronglySorted Qle l -> StronglySorted Qle (insert x l).
Proof.
  induction l as [|y l IH]; intros Hs; cbn [insert].
  - repeat constructor.
  - inversion Hs as [|? ? Hs' Hy]; subst.
    destruct (Qleb x y) eqn:E.
    + apply Qle_bool_iff in E. constructor; [exact Hs|].
      constructor; [exact E|].
      rewrite Forall_forall in *. intros z Hz. specialize (Hy z Hz).
      now apply Qle_trans with y.
    + apply Qleb_false in E. constructor; [now apply IH|].
      rewrite Forall_forall in *. intros z Hz.
      apply insert_In in Hz. destruct Hz as [->|Hz]; [now apply Qlt_le_weak|auto].
Qed.

Lemma sort_sorted (l : list Q) : StronglySorted Qle (sort l).
Proof.
  induction l as [|x l IH]; cbn [sort]; [constructor|].
  now apply insert_sorted.
Qed.

Lemma uniq_from_In (x p : Q) (l : list Q) : In x (uniq_from p l) -> In x l.
Proof.
  revert p. induction l as [|y l IH]; intros p; cbn [uniq_from]; [trivial|].
  destruct (Qeqb y p); cbn [In]; intros H.
  - right. eapply IH, H.
  - destruct H as [H|H]; [now left | right; eapply IH, H].
Qed.

Lemma uniq_from_sorted (p : Q) (l : list Q) :
  StronglySorted Qle (p :: l) -> StronglySorted Qlt (p :: uniq_from p l).
Proof.
  revert p. induction l as [|x l IH]; intros p Hs; cbn [uniq_from].
  - repeat constructor.
  - inversion Hs as [|? ? Hs' Hp]; subst.
    inversion Hp as [|? ? Hpx Hp']; subst.
    inversion Hs' as [|? ? Hs'' Hx]; subst.
    destruct (Qeqb x p) eqn:E.
    + apply IH. constructor; assumption.
    + assert (Hlt : p < x).
      { apply Qle_lteq in Hpx. destruct Hpx as [Hpx|Hpx]; [exact Hpx|].
        exfalso. unfold Qeqb in E. symmetry in Hpx. apply Qeq_bool_iff in Hpx. congruence. }
      specialize (IH x Hs'). inversion IH as [|? ? IHs IHx]; subst.
      constructor; [exact IH|].
      constructor; [exact Hlt|].
      rewrite Forall_forall in *. intros z Hz. specialize (IHx z Hz).
      now apply Qlt_trans with x.
Qed.

Lemma uniq_from_Exists (q p : Q) (l : list Q) :
  Exists (Qeq q) (p :: l) <-> Exists (Qeq q) (p :: uniq_from p l).
Proof.
  revert p. induction l as [|x l IH]; intros p; cbn [uniq_from]; [reflexivity|].
  destruct (Qeqb x p) eqn:E.
  - unfold Qeqb in E. apply Qeq_bool_iff in E.
    rewrite <- IH. rewrite !Exists_cons. rewrite E. tauto.
  - rewrite Exists_cons, (IH x), (Exists_cons _ p). reflexivity.
Qed.

Lemma np_unique_sorted (a : list Q) : StronglySorted Qlt (np_unique a).
Proof.
  unfold np_unique. pose proof (sort_sorted a) as Hs.
  destruct (sort a) as [|x s]; [constructor|].
  now apply uniq_from_sorted.
Qed.

Lemma np_unique_In (x : Q) (a : list Q) : In x (np_unique a) -> In x a.
Proof.
  unfold np_unique. intros H. apply sort_In.
  destruct (sort a) as [|y s]; [exact H|].
  destruct H as [H|H]; [now left | right; eapply uniq_from_In, H].
Qed.

Lemma Exists_Qeq_In (q : Q) (l : list Q) :
  Exists (Qeq q) l <-> exists x, In x l /\ q == x.
Proof.
  apply Exists_exists.
Qed.

Lemma np_unique_Exists (q : Q) (a : list Q) :
  Exists (Qeq q) (np_unique a) <-> Exists (Qeq q) a.
Proof.
  unfold np_unique.
  assert (Hs : Exists (Qeq q) (sort a) <-> Exists (Qeq q) a).
  { rewrite !Exists_Qeq_In. split; intros (x & Hx & Hq); exists x; split; auto;
      now apply sort_In. }
  rewrite <- Hs. destruct (sort a) as [|x s]; [reflexivity|].
  symmetry. apply uniq_from_Exists.
Qed.

Lemma first_index_once (a : list Q) (i : nat) (p : Q) :
  occurs_once a i p -> first_index p a = i.
Proof.
  revert i. induction a as [|y a IH]; intros i [Hi Hu].
  - destruct i; discriminate.
  - cbn [first_index]. destruct (Qeqb y p) eqn:E.
    + unfold Qeqb in E. apply Qeq_bool_iff in E.
      assert (H0 : 0%nat = i) by (apply (Hu 0%nat y); [reflexivity | exact E]).
      now symmetry.
    + destruct i as [|i].
      * cbn in Hi. injection Hi as ->. unfold Qeqb in E.
        rewrite (proj2 (Qeq_bool_iff p p) (Qeq_refl p)) in E. discriminate.
      * f_equal. apply IH. split; [exact Hi|].
        intros j p' Hj Hp'. specialize (Hu (S j) p' Hj Hp'). congruence.
Qed.




End UniqueFacts.

(** ** Properties of [vesDataOperator] *)

Module VesFacts.

Import QArr Unique UniqueFacts.
Open Scope Q_scope.

Section WithExternals.

Variable rng : Type.
Variable E : externals rng.

(** What a successful call has computed. *)
Lemma vesDataOperator_inv typeofop dtAB dtrho AB rhoa (w : world rng) X Y :
  fst (vesDataOperator E typeofop dtAB dtrho AB rhoa w) = Ok (X, Y) ->
  length AB = length rhoa
  /\ X = np_unique AB
  /\ exists d0,
       mask_assign dtrho (map (fun i => nth i rhoa 0) (unique_index AB))
                   (isin X (duplicated AB)) d0 = Ok Y.
Proof.
  unfold vesDataOperator, mbind, lift, raise, ret.
  destruct (parse_typeofop typeofop) as [op|e]; [|discriminate].
  destruct (length AB =? length rhoa)%nat eqn:El; cbn [negb]; [|discriminate].
  apply Nat.eqb_eq in El.
  destruct (fill_d0 E op dtAB AB rhoa (duplicated AB) w) as [[d0|e] w']; [|discriminate].
  destruct (mask_assign dtrho _ _ d0) as [Y'|e] eqn:Em; [|discriminate].
  cbn [fst]. intros H. injection H as <- <-.
  split; [exact El|]. split; [reflexivity|]. now exists d0.
Qed.



End WithExternals.


End VesFacts.

(** ** Properties of [fitfunc] *)

Module FitFacts.

Import QArr Poly.
Open Scope Q_scope.

Lemma Qminimum_some (x : list Q) : x <> [] -> exists m, Qminimum x = Some m.
Proof.
  destruct x; [congruence|]. intros _. eexists. reflexivity.
Qed.

Lemma Qmaximum_some (x : list Q) : x <> [] -> exists m, Qmaximum x = Some m.
Proof.
  destruct x; [congruence|]. intros _. eexists. reflexivity.
Qed.

Lemma fitfunc_returns rng (E : externals rng) x y deg sample c :
  (0 <= fit_degree y deg)%Z -> x <> [] -> length x = length y ->
  lstsq E x y (Z.to_nat (fit_degree y deg)) = Some c ->
  exists xn, fitfunc E x y deg sample = Ok (c, xn, map (polyval c) xn).
Proof.
  intros Hd Hx Hl Hs. unfold fitfunc, polyfit. fold (fit_degree y deg).
  replace (fit_degree y deg <? 0)%Z with false by (symmetry; apply Z.ltb_ge; lia).
  destruct x as [|x0 x]; [congruence|].
  rewrite <- Hl, Nat.eqb_refl, Hs. cbn [length Nat.eqb negb of_option bind Qminimum Qmaximum].
  eexists. reflexivity.
Qed.

(** C7, as stated, fails: on the single point [x = [5]], [y = [7]] the call
    cannot fail once the least-squares solve has returned; [fitfunc] has no
    check of the number of points. *)
Lemma C7_single_point_is_not_rejected :
  ~ (exists (E : externals unit) c e,
       lstsq E [5] [7] 1 = Some c /\ fitfunc E [5] [7] None 1000 = Err e).
Proof.
  intros (E & c & e & Hs & Hf).
  destruct (@fitfunc_returns unit E [5] [7] None 1000%nat c) as [xn Hxn];
    try reflexivity; try discriminate; try exact Hs.
  congruence.
Qed.

(** C7 (amended): [fitfunc] validates nothing itself. With [deg] omitted or
    non-negative, the call fails with the TypeError of [np.polyfit] when [x]
    is empty or [len(x) != len(y)]; on every other input, a single point
    included, it returns the fit whenever the least-squares solve returns. *)
Theorem C7_fitfunc_failures rng (E : externals rng) x y deg sample :
  (0 <= fit_degree y deg)%Z ->
  (x = [] -> fitfunc E x y deg sample = Err TypeError_polyfit_empty)
  /\ (x <> [] -> length x <> length y ->
      fitfunc E x y deg sample = Err TypeError_polyfit_length)
  /\ (x <> [] -> length x = length y ->
      forall c, lstsq E x y (Z.to_nat (fit_degree y deg)) = Some c ->
      exists xn, fitfunc E x y deg sample = Ok (c, xn, map (polyval c) xn)).
Proof.
  intros Hd. repeat split.
  - intros ->. unfold fitfunc, polyfit. fold (fit_degree y deg).
    now replace (fit_degree y deg <? 0)%Z with false by (symmetry; apply Z.ltb_ge; lia).
  - intros Hx Hl. unfold fitfunc, polyfit. fold (fit_degree y deg).
    replace (fit_degree y deg <? 0)%Z with false by (symmetry; apply Z.ltb_ge; lia).
    destruct x as [|x0 x]; [congruence|]. cbn [length Nat.eqb].
    change (match length y with O => false | S m' => (length x =? m')%nat end)
      with (length (x0 :: x) =? length y)%nat.
    apply Nat.eqb_neq in Hl. now rewrite Hl.
  - intros Hx Hl c Hs. now apply fitfunc_returns.
Qed.

Lemma C7_witness :
  ([5] = [] -> fitfunc sample_externals [5] [7] None 1000 = Err TypeError_polyfit_empty)
  /\ ([5] <> [] -> length [5] <> length [7] ->
      fitfunc sample_externals [5] [7] None 1000 = Err TypeError_polyfit_length)
  /\ ([5] <> [] -> length [5] = length [7] ->
      forall c, lstsq sample_externals [5] [7] (Z.to_nat (fit_degree [7] None)) = Some c ->
      exists xn, fitfunc sample_externals [5] [7] None 1000 = Ok (c, xn, map (polyval c) xn)).
Proof.
  apply (@C7_fitfunc_failures unit sample_externals [5] [7] None 1000%nat).
  vm_compute. discriminate.
Defined.

End FitFacts.

(** ** Properties of [ohmicArea] *)

Module PipelineFacts.

Import IxArr Bounds QArr Poly Unique UniqueFacts Str.
Open Scope list_scope.
Open Scope Q_scope.

(** *** Maxima *)

Lemma fold_max_spec (l : list Q) (x : Q) :
  let r := fold_left (fun m y => if Qltb m y then y else m) l x in
  (r = x \/ In r l) /\ x <= r /\ Forall (fun y => y <= r) l.
Proof.
  revert x. induction l as [|y l IH]; intros x; cbn [fold_left].
  - split; [now left|]. split; [apply Qle_refl | constructor].
  - specialize (IH (if Qltb x y then y else x)).
    cbv zeta in IH. destruct IH as (H1 & H2 & H3).
    set (r := fold_left _ l _) in *.
    unfold Qltb in *. destruct (Qle_bool y x) eqn:El; cbn [negb] in *.
    + apply Qle_bool_iff in El. split; [destruct H1; [now left | right; now right]|].
      split; [exact H2|]. constructor; [now apply Qle_trans with x | exact H3].
    + apply (Qleb_false y x) in El.
      split; [right; destruct H1 as [->|H1]; [now left | now right]|].
      split; [apply Qle_trans with y; [now apply Qlt_le_weak | exact H2]|].
      constructor; [exact H2 | exact H3].
Qed.

Lemma Qmaximum_spec (l : list Q) (m : Q) :
  Qmaximum l = Some m -> In m l /\ Forall (fun y => y <= m) l.
Proof.
  destruct l as [|x l]; [discriminate|]. cbn [Qmaximum]. intros H. injection H as <-.
  destruct (fold_max_spec l x) as (H1 & H2 & H3). split.
  - destruct H1 as [->|H1]; [now left | now right].
  - constructor; assumption.
Qed.

(** [X.max()] is the largest spacing of [AB]. *)
Lemma Qmaximum_unique (AB : list Q) (m : Q) :
  Qmaximum AB = Some m -> exists mx, Qmaximum (np_unique AB) = Some mx /\ mx == m.
Proof.
  intros Hm. destruct (Qmaximum_spec _ Hm) as [Hin Hub].
  assert (Hne : np_unique AB <> []).
  { intros He. assert (Hex : Exists (Qeq m) (np_unique AB)).
    { apply np_unique_Exists, Exists_exists. exists m. split; [exact Hin | reflexivity]. }
    rewrite He in Hex. inversion Hex. }
  destruct (np_unique AB) as [|x0 X] eqn:EX; [congruence|].
  exists (fold_left (fun m y => if Qltb m y then y else m) X x0).
  split; [reflexivity|].
  assert (Hmx : Qmaximum (np_unique AB) = Some (fold_left (fun m y => if Qltb m y then y else m) X x0))
    by now rewrite EX.
  destruct (Qmaximum_spec _ Hmx) as [Hin' Hub'].
  set (mx := fold_left _ X x0) in *.
  apply Qle_antisym.
  - apply np_unique_In in Hin'. rewrite Forall_forall in Hub. now apply Hub.
  - assert (Hex : Exists (Qeq m) (np_unique AB)).
    { apply np_unique_Exists, Exists_exists. exists m. split; [exact Hin | reflexivity]. }
    apply Exists_exists in Hex. destruct Hex as (x & Hx & Hmx').
    rewrite Hmx'. rewrite Forall_forall in Hub'. now apply Hub'.
Qed.

Section WithExternals.

Variable rng : Type.
Variable E : externals rng.

(** *** The monad *)

Lemma mbind_ok_inv {A B : Type} (m : M rng A) (k : A -> M rng B) w b :
  fst (mbind m k w) = Ok b ->
  exists a w', m w = (Ok a, w') /\ fst (k a w') = Ok b.
Proof.
  unfold mbind. destruct (m w) as [[a|e] w']; [|discriminate].
  intros H. now exists a, w'.
Qed.

Lemma mbind_err_inv {A B : Type} (m : M rng A) (k : A -> M rng B) w e :
  fst (mbind m k w) = Err e ->
  fst (m w) = Err e \/ exists a w', m w = (Ok a, w') /\ fst (k a w') = Err e.
Proof.
  unfold mbind. destruct (m w) as [[a|e'] w']; intros H.
  - right. now exists a, w'.
  - left. cbn [fst] in *. injection H as ->. reflexivity.
Qed.

Lemma mbind_run {A B : Type} (m : M rng A) (k : A -> M rng B) w a w' :
  m w = (Ok a, w') -> mbind m k w = k a w'.
Proof.
  unfold mbind. now intros ->.
Qed.

Lemma mbind_fail {A B : Type} (m : M rng A) (k : A -> M rng B) w e w' :
  m w = (Err e, w') -> mbind m k w = (Err e, w').
Proof.
  unfold mbind. now intros ->.
Qed.

Lemma lift_ok_inv {A : Type} (r : res A) (w w' : world rng) a :
  lift r w = (Ok a, w') -> r = Ok a.
Proof.
  unfold lift. congruence.
Qed.

Lemma mbind_lift_ok_inv {A B : Type} (r : res A) (k : A -> M rng B) w b :
  fst (mbind (lift r) k w) = Ok b -> exists a, r = Ok a /\ fst (k a w) = Ok b.
Proof.
  unfold mbind, lift. destruct r as [a|e]; [|discriminate].
  intros H. now exists a.
Qed.

Lemma mbind_lift_err_inv {A B : Type} (r : res A) (k : A -> M rng B) w e :
  fst (mbind (lift r) k w) = Err e ->
  r = Err e \/ exists a, r = Ok a /\ fst (k a w) = Err e.
Proof.
  unfold mbind, lift. destruct r as [a|e']; intros H.
  - right. now exists a.
  - left. cbn [fst] in H. now injection H as ->.
Qed.

Lemma ret_ok_inv {A : Type} (a b : A) (w : world rng) :
  fst (ret a w) = Ok b -> a = b.
Proof.
  cbn. congruence.
Qed.

Lemma mbind_enter {B : Type} (s : stage) (k : unit -> M rng B) w :
  mbind (enter s) k w = k tt (mkWorld (gen w) (entered w ++ [s])).
Proof.
  reflexivity.
Qed.

(** A step [x <- lift r ;; k] of a run that returned: [r] returned [a]. *)
Tactic Notation "inv_lift" hyp(H) "as" simple_intropattern(a) ident(Hm) :=
  apply mbind_lift_ok_inv in H; destruct H as (a & Hm & H); cbn beta iota in H.

(** A step [x <- lift r ;; k] of a run that raised: [r] raised (a goal to
    close), or it returned and the exception comes from further down. *)
Tactic Notation "inv_fail" hyp(H) "as" simple_intropattern(a) :=
  let Hm := fresh "Hm" in
  apply mbind_lift_err_inv in H; destruct H as [H|(a & Hm & H)];
  [ | clear Hm; cbn beta iota in H ].

(** *** The quadrature loop *)

Lemma integrate_pairs_spec (ff : Q -> Q) (pr : list (list Q)) areas errs :
  integrate_pairs E ff pr = Ok (areas, errs) ->
  Forall (fun a => 0 <= a) areas
  /\ Forall2 (fun p a => exists inf sup,
                p = [inf; sup]
                /\ a = (let values := fst (quad E ff inf sup) in
                         if Qltb values 0 then 0 else values)) pr areas
  /\ Forall2 (fun p e => exists inf sup,
                p = [inf; sup] /\ e = snd (quad E ff inf sup)) pr errs.
Proof.
  revert areas errs. induction pr as [|p pr IH]; intros areas errs H.
  - cbn in H. injection H as <- <-. repeat constructor.
  - cbn [integrate_pairs] in H.
    destruct p as [|inf [|sup [|? ?]]]; try discriminate.
    destruct (quad E ff inf sup) as [values err] eqn:Eq.
    destruct (integrate_pairs E ff pr) as [[a' e']|] eqn:Er; [|discriminate].
    cbn [bind fst snd] in H. injection H as <- <-.
    destruct (IH a' e' eq_refl) as (H1 & H2 & H3).
    repeat split.
    + constructor; [|exact H1].
      unfold Qltb. destruct (Qle_bool 0 values) eqn:El; cbn [negb].
      * now apply Qle_bool_iff.
      * apply Qle_refl.
    + constructor; [|exact H2]. exists inf, sup. now rewrite Eq.
    + constructor; [|exact H3]. exists inf, sup. now rewrite Eq.
Qed.


Lemma select_ohms (objective : string) (rv0 : ohms_out) (rv1 : view_out) o v :
  (if String.eqb objective "ohms" then (Some rv0, None)
   else if String.eqb objective "graph" then (None, Some rv1)
   else (Some rv0, Some rv1)) = (Some o, v) ->
  o = rv0.
Proof.
  destruct (String.eqb objective "ohms"); [|destruct (String.eqb objective "graph")];
    congruence.
Qed.

(** What a call that returns the areas has computed. *)
Lemma ohmic_numerics_inv objective X Y key sum w o v :
  fst (ohmic_numerics E objective X Y key sum w) = Ok (Some o, v) ->
  exists ff pairwise_r areas,
    integrate_pairs E ff pairwise_r = Ok (areas, err_ohmS o)
    /\ ohmS o = (if sum then Total (Qsum areas) else Areas areas).
Proof.
  intros H. unfold ohmic_numerics in H.
  rewrite mbind_enter in H.
  inv_lift H as [[f_rhotl x_new] y_projected] Hfit.
  inv_lift H as oIx HoIx.
  destruct (dummy_basement_curve E (polyval f_rhotl) key 45) as [f_brl beta].
  inv_lift H as lo Hlo. inv_lift H as hi Hhi.
  rewrite mbind_enter in H.
  inv_lift H as ib Hib.
  rewrite mbind_enter in H.
  inv_lift H as [[f45 ?] ?] Hfit2.
  inv_lift H as pr Hpr. inv_lift H as [areas errs] Hint.
  apply ret_ok_inv, select_ohms in H.
  exists (polyval (poly_sub f45 f_rhotl)), pr, areas.
  subst o. cbn [ohmS err_ohmS]. split; [exact Hint | reflexivity].
Qed.

Lemma ohmicArea_inv dtAB dtrho AB rhoa ohmSkey sum objective typeofop w r :
  fst (ohmicArea E dtAB dtrho AB rhoa ohmSkey sum objective typeofop w) = Ok r ->
  exists obj X Y key w',
    fst (ohmic_numerics E obj X Y key sum w') = Ok r.
Proof.
  intros H. unfold ohmicArea in H.
  inv_lift H as obj Hobj.
  rewrite mbind_enter in H.
  apply mbind_ok_inv in H. destruct H as ([X Y] & w' & Hves & H). cbn beta iota in H.
  inv_lift H as key Hkey. inv_lift H as ? Hchk.
  do 5 eexists. exact H.
Qed.

(** The pairs of roots, put end to end, are the roots. *)
Lemma firstn_plus (A : Type) (l : list A) (n m : nat) :
  firstn (n + m) l = firstn n l ++ firstn m (skipn n l).
Proof.
  revert l. induction n as [|n IH]; intros l; [reflexivity|].
  destruct l as [|x l]; [cbn [Nat.add firstn skipn app]; now rewrite firstn_nil|].
  cbn [Nat.add firstn skipn app]. now rewrite IH.
Qed.

Lemma chunks_concat (k size : nat) (a : list Q) :
  concat (chunks k size a) = firstn (k * size) a.
Proof.
  revert a. induction k as [|k IH]; intros a; [reflexivity|].
  cbn [chunks concat Nat.mul]. now rewrite IH, firstn_plus.
Qed.




(** *** Which exceptions come from where *)

Lemma limit_loop_err ix_arr jj rest s oc b0 e :
  limit_loop ix_arr jj rest s oc b0 = Err e -> e = IndexError.
Proof.
  revert jj s oc b0. induction rest as [|v rest IH]; intros jj s oc b0 H; [discriminate|].
  cbn [limit_loop] in H. destruct (negb _).
  - destruct (py_getitem ix_arr (jj - 1)); cbn [of_option bind] in H; [eauto | congruence].
  - eauto.
Qed.

Lemma find_limit_raised ix_arr b0 e :
  snd (find_limit_for_integration ix_arr b0) = Raised e -> numeric_error e = true.
Proof.
  unfold find_limit_for_integration.
  destruct (np_min ix_arr); [|cbn; now intros [= <-]].
  destruct (limit_loop _ _ _ _ _ _) as [[oc b1]|e'] eqn:El.
  - destruct (py_getitem ix_arr (-1)); [destruct (_ =? _)%Z; discriminate|].
    cbn. now intros [= <-].
  - apply limit_loop_err in El. subst. cbn. now intros [= <-].
Qed.

Lemma integration_bounds_err indexes e :
  integration_bounds E indexes = Err e -> numeric_error e = true.
Proof.
  unfold integration_bounds.
  destruct (find_bound_for_integration (recursion_room E) indexes []) as [b [|e1]];
    [discriminate|].
  destruct (find_limit_for_integration indexes []) as [b' o] eqn:El.
  destruct o as [|e2]; [discriminate|]. intros [= <-].
  apply (find_limit_raised indexes []). now rewrite El.
Qed.

Lemma fitfunc_err x y deg sample e :
  fitfunc E x y deg sample = Err e -> numeric_error e = true.
Proof.
  unfold fitfunc, polyfit.
  destruct (_ <? 0)%Z; [now intros [= <-]|].
  destruct (length x =? 0)%nat; [now intros [= <-]|].
  destruct (negb _); [now intros [= <-]|].
  destruct (lstsq E x y _); cbn [of_option bind]; [|now intros [= <-]].
  destruct (Qminimum x); cbn [of_option bind]; [|now intros [= <-]].
  destruct (Qmaximum x); cbn [of_option bind]; [discriminate | now intros [= <-]].
Qed.

Lemma integrate_pairs_err ff pr e :
  integrate_pairs E ff pr = Err e -> numeric_error e = true.
Proof.
  induction pr as [|p pr IH]; [discriminate|].
  cbn [integrate_pairs].
  destruct p as [|inf [|sup [|? ?]]]; try (now intros [= <-]).
  destruct (quad E ff inf sup) as [values err].
  destruct (integrate_pairs E ff pr) as [r|e']; cbn [bind]; [discriminate|].
  intros [= <-]. now apply IH.
Qed.

Lemma np_split_err a k e : np_split a k = Err e -> numeric_error e = true.
Proof.
  unfold np_split. destruct (k =? 0)%nat; [now intros [= <-]|].
  destruct (negb _); [now intros [= <-] | discriminate].
Qed.

Lemma of_option_err {A : Type} (e0 e : exn) (o : option A) :
  of_option e0 o = Err e -> e = e0.
Proof.
  destruct o; [discriminate | now intros [= <-]].
Qed.

(** The numerical part raises none of the validation errors. *)
Lemma ohmic_numerics_err objective X Y key sum w e :
  fst (ohmic_numerics E objective X Y key sum w) = Err e -> numeric_error e = true.
Proof.
  intros H. unfold ohmic_numerics in H.
  rewrite mbind_enter in H.
  inv_fail H as [[f_rhotl x_new] y_projected]; [now apply fitfunc_err in H|].
  inv_fail H as oIx; [apply of_option_err in H; now subst|].
  destruct (dummy_basement_curve E (polyval f_rhotl) key 45) as [f_brl beta].
  inv_fail H as lo; [apply of_option_err in H; now subst|].
  inv_fail H as hi; [apply of_option_err in H; now subst|].
  rewrite mbind_enter in H.
  inv_fail H as ib; [now apply integration_bounds_err in H|].
  rewrite mbind_enter in H.
  inv_fail H as [[f45 ?] ?]; [now apply fitfunc_err in H|].
  inv_fail H as pr.
  { destruct (2 <? _)%nat; [now apply np_split_err in H | discriminate]. }
  inv_fail H as [areas errs]; [now apply integrate_pairs_err in H|].
  discriminate H.
Qed.

Lemma parse_typeofop_err typeofop e :
  parse_typeofop typeofop = Err e -> reduce_error e = true.
Proof.
  unfold parse_typeofop.
  repeat (match goal with |- context [if ?c then _ else _] => destruct c end;
          try discriminate).
  now intros [= <-].
Qed.

Lemma quiet_ret {A : Type} (a : A) : quiet (ret (rng:=rng) a).
Proof.
  intros w. split; [reflexivity | discriminate].
Qed.

Lemma quiet_lift {A : Type} (r : res A) :
  (forall e, r = Err e -> reduce_error e = true) -> quiet (lift (rng:=rng) r).
Proof.
  intros Hr w. split; [reflexivity | exact Hr].
Qed.

Lemma quiet_raise {A : Type} (e : exn) :
  reduce_error e = true -> quiet (raise (rng:=rng) (A:=A) e).
Proof.
  intros He w. split; [reflexivity|]. now intros e' [= <-].
Qed.

Lemma quiet_bind {A B : Type} (m : M rng A) (k : A -> M rng B) :
  quiet m -> (forall a, quiet (k a)) -> quiet (mbind m k).
Proof.
  intros Hm Hk w. unfold mbind. specialize (Hm w).
  destruct (m w) as [[a|e] w1]; cbn [fst snd] in Hm; destruct Hm as [He Hr].
  - destruct (Hk a w1) as [He' Hr']. split; [congruence | exact Hr'].
  - split; [exact He|]. cbn [fst]. intros e' [= <-]. now apply Hr.
Qed.

Lemma quiet_draw (a : list Q) : quiet (draw E a).
Proof.
  intros w. unfold draw. destruct (permutation E a (gen w)) as [p g].
  split; [reflexivity | discriminate].
Qed.

Lemma quiet_aggregate op vals : quiet (aggregate E op vals).
Proof.
  destruct op; cbn [aggregate]; try apply quiet_ret.
  apply quiet_bind; [apply quiet_draw|].
  intros p. apply quiet_lift. intros e He. apply of_option_err in He. now subst.
Qed.

Lemma quiet_fill_d0 op dtAB AB rhoa dups : quiet (fill_d0 E op dtAB AB rhoa dups).
Proof.
  induction dups as [|d dups IH]; cbn [fill_d0]; [apply quiet_ret|].
  apply quiet_bind; [apply quiet_aggregate|]. intros v.
  apply quiet_bind; [exact IH|]. intros vs. apply quiet_ret.
Qed.

Lemma mask_assign_err d Y mask vals e :
  mask_assign d Y mask vals = Err e -> reduce_error e = true.
Proof.
  unfold mask_assign. destruct (_ =? _)%nat; [discriminate|].
  destruct vals as [|? [|? ?]]; try discriminate; now intros [= <-].
Qed.

(** [vesDataOperator] raises its own errors only, and enters no stage. *)
Lemma quiet_vesDataOperator typeofop dtAB dtrho AB rhoa :
  quiet (vesDataOperator E typeofop dtAB dtrho AB rhoa).
Proof.
  unfold vesDataOperator.
  apply quiet_bind; [apply quiet_lift, parse_typeofop_err|]. intros op.
  destruct (negb _); [now apply quiet_raise|].
  apply quiet_bind; [apply quiet_fill_d0|]. intros d0.
  apply quiet_bind; [apply quiet_lift, mask_assign_err|]. intros Y'.
  apply quiet_ret.
Qed.

Lemma parse_objective_err objective e :
  parse_objective objective = Err e -> e = ValueError_objective.
Proof.
  unfold parse_objective. destruct (existsb _ _); [discriminate | now intros [= <-]].
Qed.

(** *** The first part of [ohmicArea] *)

Lemma ohmicArea_front dtAB dtrho AB rhoa ohmSkey sum objective typeofop w obj X Y w1 key :
  parse_objective objective = Ok obj ->
  vesDataOperator E typeofop dtAB dtrho AB rhoa
                  (mkWorld (gen w) (entered w ++ [Stage_reduce])) = (Ok (X, Y), w1) ->
  coerce_key E ohmSkey X = Ok key ->
  ohmicArea E dtAB dtrho AB rhoa ohmSkey sum objective typeofop w
  = match check_key key X with
    | Ok _ => ohmic_numerics E obj X Y key sum w1
    | Err e => (Err e, w1)
    end.
Proof.
  intros Hobj Hves Hkey. unfold ohmicArea.
  unfold mbind at 1. unfold lift at 1. rewrite Hobj.
  unfold mbind at 1. unfold enter at 1.
  unfold mbind at 1. rewrite Hves.
  unfold mbind at 1. unfold lift at 1. rewrite Hkey.
  unfold mbind, lift. now destruct (check_key key X).
Qed.

Lemma ohmicArea_reduce_fails dtAB dtrho AB rhoa ohmSkey sum objective typeofop w obj e w1 :
  parse_objective objective = Ok obj ->
  vesDataOperator E typeofop dtAB dtrho AB rhoa
                  (mkWorld (gen w) (entered w ++ [Stage_reduce])) = (Err e, w1) ->
  ohmicArea E dtAB dtrho AB rhoa ohmSkey sum objective typeofop w = (Err e, w1).
Proof.
  intros Hobj Hves. unfold ohmicArea.
  unfold mbind at 1. unfold lift at 1. rewrite Hobj.
  unfold mbind at 1. unfold enter at 1.
  unfold mbind at 1. now rewrite Hves.
Qed.

Lemma check_key_spec key X mx :
  Qmaximum X = Some mx ->
  check_key key X = if Qleb mx key then Err VESError_keydepth else Ok tt.
Proof.
  unfold check_key. now intros ->.
Qed.

Lemma ohmicArea_objective_fails dtAB dtrho AB rhoa ohmSkey sum objective typeofop w e :
  parse_objective objective = Err e ->
  ohmicArea E dtAB dtrho AB rhoa ohmSkey sum objective typeofop w = (Err e, w).
Proof.
  intros Hobj. unfold ohmicArea.
  unfold mbind at 1. unfold lift at 1. now rewrite Hobj.
Qed.

(** [str(None)] holds ['none']: the key depth defaults to [X.max() / 2]. *)
Lemma coerce_key_None (X : list Q) :
  coerce_key E Key_None X
  = match Qmaximum X with
    | Some m => Ok (m / 2)
    | None => Err ValueError_float
    end.
Proof.
  reflexivity.
Qed.

Lemma lower_app (s t : string) : lower (s ++ t)%string = (lower s ++ lower t)%string.
Proof.
  induction s as [|c s IH]; [reflexivity|]. cbn. now rewrite IH.
Qed.

Lemma remove_char_app (c : ascii) (s t : string) :
  remove_char c (s ++ t)%string = (remove_char c s ++ remove_char c t)%string.
Proof.
  induction s as [|c' s IH]; [reflexivity|]. cbn [String.append remove_char].
  destruct (Ascii.eqb c' c); [exact IH|]. cbn. now rewrite IH.
Qed.

Lemma append_empty (s : string) : (s ++ "")%string = s.
Proof.
  induction s as [|c s IH]; [reflexivity|]. cbn. now rewrite IH.
Qed.

(** A trailing ['m'] is gone before [float] sees the text. *)
Lemma coerce_text_trailing_m (s : string) (X : list Q) :
  coerce_text E (s ++ "m")%string X = coerce_text E s X.
Proof.
  unfold coerce_text. rewrite lower_app, remove_char_app.
  change (remove_char "m" (lower "m")) with ""%string.
  now rewrite append_empty.
Qed.

(** The largest of non-negative spacings, two of which differ, is positive. *)
Lemma Qmaximum_positive (AB : list Q) (m : Q) :
  Forall (fun p => 0 <= p) AB ->
  (exists p p', In p AB /\ In p' AB /\ ~ p == p') ->
  Qmaximum AB = Some m -> 0 < m.
Proof.
  intros Hnn (p & p' & Hp & Hp' & Hd) Hm.
  destruct (Qmaximum_spec _ Hm) as [_ Hub].
  rewrite Forall_forall in Hnn, Hub.
  apply Qnot_le_lt. intros Hle. apply Hd.
  assert (p == 0) by (apply Qle_antisym; [apply Qle_trans with m|]; auto).
  assert (p' == 0) by (apply Qle_antisym; [apply Qle_trans with m|]; auto).
  now transitivity 0.
Qed.

Lemma half_below (m : Q) : 0 < m -> Qleb m (m / 2) = false.
Proof.
  intros Hm. unfold Qleb. destruct (Qle_bool m (m / 2)) eqn:El; [exfalso|reflexivity].
  apply Qle_bool_iff in El.
  assert (H2 : m / 2 * 2 == m) by (field; discriminate).
  assert (H3 : m * 2 <= m / 2 * 2) by (apply Qmult_le_compat_r; [exact El | discriminate]).
  rewrite H2 in H3.
  assert (H4 : m * 2 == m + m) by ring. rewrite H4 in H3.
  apply (Qlt_irrefl m).
  apply Qlt_le_trans with (m + m); [|exact H3].
  rewrite <- (Qplus_0_r m) at 1. apply Qplus_lt_r. exact Hm.
Qed.

(** With [ohmSkey=None], the key depth that a finished reduction leads to. *)
Lemma default_key typeofop dtAB dtrho AB rhoa w0 w1 X Y m :
  Qmaximum AB = Some m -> 0 < m ->
  vesDataOperator E typeofop dtAB dtrho AB rhoa w0 = (Ok (X, Y), w1) ->
  exists key,
    coerce_key E Key_None X = Ok key /\ key == m / 2 /\ check_key key X = Ok tt.
Proof.
  intros Hm Hpos Hves.
  assert (HX : X = np_unique AB).
  { eapply (@VesFacts.vesDataOperator_inv rng E typeofop dtAB dtrho AB rhoa w0 X Y).
    now rewrite Hves. }
  destruct (Qmaximum_unique _ Hm) as (mx & Hmx & Hmxm). rewrite <- HX in Hmx.
  exists (mx / 2). rewrite coerce_key_None, Hmx. split; [reflexivity|].
  split; [now rewrite Hmxm|].
  rewrite check_key_spec with (mx := mx) by exact Hmx.
  rewrite half_below; [reflexivity|]. now rewrite Hmxm.
Qed.

(** *** The claims on [ohmicArea] *)


(** C6 (amended): for a numeric [ohmSkey], a valid objective and a reduction
    of the duplicated spacings that returns, [ohmicArea] raises a VESError if
    and only if [ohmSkey >= max(AB)], the boundary included; it does so after
    the reduction and before any fit, bound search or quadrature. *)
Theorem C6_key_depth_check dtAB dtrho AB rhoa q sum objective typeofop w obj X Y w1 m :
  parse_objective objective = Ok obj ->
  vesDataOperator E typeofop dtAB dtrho AB rhoa
                  (mkWorld (gen w) (entered w ++ [Stage_reduce])) = (Ok (X, Y), w1) ->
  Qmaximum AB = Some m ->
  let r := ohmicArea E dtAB dtrho AB rhoa (Key_num q) sum objective typeofop w in
  ((exists e, fst r = Err e /\ class_of e = VESError) <-> m <= q)
  /\ (m <= q ->
      fst r = Err VESError_keydepth /\ entered (snd r) = entered w ++ [Stage_reduce]).
Proof.
  intros Hobj Hves Hm r.
  assert (HX : X = np_unique AB).
  { eapply (@VesFacts.vesDataOperator_inv rng E typeofop dtAB dtrho AB rhoa _ X Y).
    now rewrite Hves. }
  destruct (Qmaximum_unique _ Hm) as (mx & Hmx & Hmxm). rewrite <- HX in Hmx.
  assert (Hr : r = match check_key q X with
                   | Ok _ => ohmic_numerics E obj X Y q sum w1
                   | Err e => (Err e, w1)
                   end)
    by (now apply ohmicArea_front).
  rewrite check_key_spec with (mx := mx) in Hr by exact Hmx.
  assert (Hent : entered w1 = entered w ++ [Stage_reduce]).
  { destruct (quiet_vesDataOperator typeofop dtAB dtrho AB rhoa
                (mkWorld (gen w) (entered w ++ [Stage_reduce]))) as [He _].
    now rewrite Hves in He. }
  destruct (Qleb mx q) eqn:El.
  - assert (Hle : m <= q) by (rewrite <- Hmxm; now apply Qle_bool_iff).
    rewrite Hr. cbn [fst snd]. split.
    + split; [trivial|]. intros _. now exists VESError_keydepth.
    + intros _. now split.
  - assert (Hlt : ~ m <= q).
    { intros Hle. rewrite <- Hmxm in Hle. apply Qle_bool_iff in Hle.
      unfold Qleb in El. congruence. }
    split; [|intros Hle; contradiction].
    split; [|intros Hle; contradiction].
    intros (e & He & Hc). rewrite Hr in He.
    apply ohmic_numerics_err in He. destruct e; discriminate.
Qed.

(** C10: on non-negative spacings two of which differ, [ohmicArea] with
    [ohmSkey=None] raises neither the conversion error nor the key-depth
    error: ['none'] is found in the text of [None], the key depth becomes
    [max(AB) / 2], which is below [max(AB)]; and the text of a key depth with
    a trailing ['m'] is converted as the text without it: what [float] is
    given, when the text does not hold ['none'], is the text in lower case
    with its ['m'] removed, and the key depth is what [float] makes of
    that. *)
Theorem C10_default_key_depth dtAB dtrho AB rhoa sum objective typeofop w :
  Forall (fun p => 0 <= p) AB ->
  (exists p p', In p AB /\ In p' AB /\ ~ p == p') ->
  let r := fst (ohmicArea E dtAB dtrho AB rhoa Key_None sum objective typeofop w) in
  r <> Err ValueError_float
  /\ r <> Err VESError_keydepth
  /\ (exists m,
        Qmaximum AB = Some m
        /\ forall X Y w0 w1,
             vesDataOperator E typeofop dtAB dtrho AB rhoa w0 = (Ok (X, Y), w1) ->
             exists key,
               coerce_key E Key_None X = Ok key /\ key == m / 2
               /\ check_key key X = Ok tt)
  /\ (forall s X, coerce_key E (Key_str (s ++ "m")%string) X = coerce_key E (Key_str s) X)
  /\ (forall s X,
        contains (remove_char "m" (lower s)) "none" = false ->
        coerce_key E (Key_str (s ++ "m")%string) X
        = of_option ValueError_float (py_float E (remove_char "m" (lower s)))).
Proof.
  intros Hnn Hd r.
  assert (Hne : AB <> []) by (destruct Hd as (p & _ & Hp & _); now destruct AB).
  destruct (FitFacts.Qmaximum_some Hne) as [m Hm].
  pose proof (Qmaximum_positive Hnn Hd Hm) as Hpos.
  assert (Hr : forall e, r = Err e -> numeric_error e = true \/ reduce_error e = true
                                      \/ e = ValueError_objective).
  { intros e He. subst r.
    destruct (parse_objective objective) as [obj|e0] eqn:Hobj.
    - destruct (vesDataOperator E typeofop dtAB dtrho AB rhoa
                  (mkWorld (gen w) (entered w ++ [Stage_reduce]))) as [[[X Y]|e1] w1] eqn:Hves.
      + pose proof Hves as Hk. apply default_key with (m := m) in Hk; [|assumption..].
        destruct Hk as (key & Hkey & _ & Hchk).
        rewrite ohmicArea_front with (obj := obj) (X := X) (Y := Y) (w1 := w1) (key := key)
          in He by assumption.
        rewrite Hchk in He.
        left. eapply ohmic_numerics_err, He.
      + rewrite ohmicArea_reduce_fails with (obj := obj) (e := e1) (w1 := w1)
          in He by assumption.
        cbn [fst] in He. injection He as <-. right. left.
        destruct (quiet_vesDataOperator typeofop dtAB dtrho AB rhoa
                    (mkWorld (gen w) (entered w ++ [Stage_reduce]))) as [_ Hq].
        apply Hq. now rewrite Hves.
    - rewrite ohmicArea_objective_fails with (e := e0) in He by assumption.
      cbn [fst] in He. injection He as <-. right. right.
      now apply parse_objective_err in Hobj. }
  split; [intros He; destruct (Hr _ He) as [H|[H|H]]; discriminate|].
  split; [intros He; destruct (Hr _ He) as [H|[H|H]]; discriminate|].
  split.
  - exists m. split; [exact Hm|]. intros X Y w0 w1 Hves.
    now apply default_key with (m := m) in Hves.
  - split; [intros s X; apply coerce_text_trailing_m|].
    intros s X Hn. cbn [coerce_key]. rewrite coerce_text_trailing_m.
    unfold coerce_text. now rewrite Hn.
Qed.

End WithExternals.

(** C6, as stated, fails: at [ohmSkey = max(AB) = 60] the call does raise the
    key-depth error, but not before it has gone through the reduction of the
    duplicated spacings. *)
Lemma C6_reduction_precedes_the_check :
  ~ (exists (E : externals unit) (w : world unit),
       let r := ohmicArea E float64 float64 sample_AB sample_rhoa (Key_num 60)
                          false "ohmS" None w in
       fst r = Err VESError_keydepth /\ entered (snd r) = entered w).
Proof.
  intros (E & w & _ & H).
  assert (Hl : length (entered w ++ [Stage_reduce]) = length (entered w))
    by (f_equal; exact H).
  rewrite length_app in Hl. cbn [length] in Hl. lia.
Qed.



Lemma C6_witness :
  let r := ohmicArea sample_externals float64 float64 sample_AB sample_rhoa (Key_num 60)
                     false "ohmS" None (mkWorld tt []) in
  ((exists e, fst r = Err e /\ class_of e = VESError) <-> 60 <= 60)
  /\ (60 <= 60 -> fst r = Err VESError_keydepth /\ entered (snd r) = [] ++ [Stage_reduce]).
Proof.
  apply (@C6_key_depth_check unit sample_externals float64 float64 sample_AB sample_rhoa
           60 false "ohmS" None (mkWorld tt []) "ohms" sample_AB sample_rhoa
           (mkWorld tt [Stage_reduce]) 60); reflexivity.
Defined.

Lemma C10_witness :
  let r := fst (ohmicArea sample_externals float64 float64 sample_AB sample_rhoa Key_None
                          false "ohmS" None (mkWorld tt [])) in
  r <> Err ValueError_float
  /\ r <> Err VESError_keydepth
  /\ (exists m,
        Qmaximum sample_AB = Some m
        /\ forall X Y w0 w1,
             vesDataOperator sample_externals None float64 float64 sample_AB sample_rhoa w0
               = (Ok (X, Y), w1) ->
             exists key,
               coerce_key sample_externals Key_None X = Ok key /\ key == m / 2
               /\ check_key key X = Ok tt)
  /\ (forall s X, coerce_key sample_externals (Key_str (s ++ "m")%string) X
                  = coerce_key sample_externals (Key_str s) X)
  /\ (forall s X,
        contains (remove_char "m" (lower s)) "none" = false ->
        coerce_key sample_externals (Key_str (s ++ "m")%string) X
        = of_option ValueError_float
            (py_float sample_externals (remove_char "m" (lower s)))).
Proof.
  apply (@C10_default_key_depth unit sample_externals float64 float64 sample_AB sample_rhoa
           false "ohmS" None (mkWorld tt [])).
  - repeat constructor; discriminate.
  - exists 0, 10. cbn [sample_AB In]. repeat split; auto. discriminate.
Defined.

End PipelineFacts.

(** * Further properties *)

(** ** The bound finders, read back *)

Module BoundsMore.

Import IxArr Bounds BoundsFacts BoundsRead.
Open Scope Z_scope.

Lemma arange_snoc (s : Z) (n : nat) :
  arange s (S n) = arange s n ++ [s + Z.of_nat n].
Proof.
  revert s. induction n as [|n IH]; intros s.
  - cbn. now rewrite Z.add_0_r.
  - change (arange s (S (S n))) with (s :: arange (s + 1) (S n)).
    rewrite IH. cbn [arange app]. do 3 f_equal. lia.
Qed.

Lemma runs_aux_head (oc p : Z) (l : list Z) :
  exists t, runs_aux oc p l = oc :: t.
Proof.
  revert oc p. induction l as [|v l IH]; intros oc p; cbn [runs_aux].
  - eauto.
  - destruct (v - p =? 1); [apply IH | eauto].
Qed.

Lemma expand_runs_aux (l : list Z) (oc p : Z) :
  StronglySorted Z.lt (p :: l) -> oc <= p ->
  expand (runs_aux oc p l) = arange oc (Z.to_nat (p - oc + 1)) ++ l.
Proof.
  revert oc p. induction l as [|v l IH]; intros oc p Hs Hle.
  - cbn [runs_aux expand]. reflexivity.
  - inversion Hs as [|? ? Hs' Hp]; subst. inversion Hp as [|? ? Hpv _]; subst.
    cbn [runs_aux]. destruct (v - p =? 1) eqn:E.
    + apply Z.eqb_eq in E. rewrite IH by (assumption || lia).
      replace (Z.to_nat (v - oc + 1)) with (S (Z.to_nat (p - oc + 1))) by lia.
      rewrite arange_snoc, <- app_assoc. cbn [app]. do 3 f_equal. lia.
    + cbn [expand]. rewrite IH by (assumption || lia).
      replace (Z.to_nat (v - v + 1)) with 1%nat by lia. reflexivity.
Qed.

Lemma expand_runs (l : list Z) : StronglySorted Z.lt l -> expand (runs l) = l.
Proof.
  destruct l as [|x l]; [reflexivity|]. intros Hs. cbn [runs].
  rewrite expand_runs_aux by (assumption || lia).
  replace (Z.to_nat (x - x + 1)) with 1%nat by lia. reflexivity.
Qed.

Lemma separated_runs_aux (l : list Z) (oc p : Z) :
  StronglySorted Z.lt (p :: l) -> oc <= p -> separated (runs_aux oc p l).
Proof.
  revert oc p. induction l as [|v l IH]; intros oc p Hs Hle.
  - cbn. auto.
  - inversion Hs as [|? ? Hs' Hp]; subst. inversion Hp as [|? ? Hpv _]; subst.
    cbn [runs_aux]. destruct (v - p =? 1) eqn:E.
    + apply IH; [assumption | lia].
    + apply Z.eqb_neq in E.
      destruct (runs_aux_head v v l) as [t Ht].
      assert (Hsep : separated (runs_aux v v l)) by (apply IH; [assumption | lia]).
      rewrite Ht in *. cbn [separated]. split; [exact Hle|]. split; [lia | exact Hsep].
Qed.

Lemma separated_runs (l : list Z) : StronglySorted Z.lt l -> separated (runs l).
Proof.
  destruct l as [|x l]; [cbn; trivial|]. intros Hs.
  apply separated_runs_aux; [assumption | lia].
Qed.

(** X1: the bounds that the iterative finder returns for a strictly
    increasing index array, read as inclusive intervals, list exactly the
    indices that were given: nothing is lost and nothing is added; the
    recursive finder returns the same bounds when the interpreter leaves it
    room for one frame per run. *)
Theorem bounds_expand_to_input (limit : nat) (ix_arr : list Z) :
  ix_arr <> [] -> StronglySorted Z.lt ix_arr ->
  exists b,
    find_limit_for_integration ix_arr [] = (b, Returned)
    /\ expand b = ix_arr
    /\ ((count_runs ix_arr <= S limit)%nat ->
        find_bound_for_integration limit ix_arr [] = (b, Returned)).
Proof.
  intros Hne Hs. exists (runs ix_arr).
  rewrite find_limit_runs by assumption.
  split; [reflexivity|]. split; [now apply expand_runs|].
  intros Hc. now rewrite find_bound_runs.
Qed.

Lemma bounds_expand_to_input_witness :
  exists b,
    find_limit_for_integration [2; 3; 4; 9; 11; 12] [] = (b, Returned)
    /\ expand b = [2; 3; 4; 9; 11; 12]
    /\ ((count_runs [2; 3; 4; 9; 11; 12]%Z <= S 5)%nat ->
        find_bound_for_integration 5 [2; 3; 4; 9; 11; 12] [] = (b, Returned)).
Proof.
  apply (@bounds_expand_to_input 5 [2; 3; 4; 9; 11; 12]).
  - discriminate.
  - repeat (constructor; [|repeat (constructor; try lia)]). constructor.
Defined.

Lemma separated_firstn (k : nat) (b : list Z) :
  separated b -> separated (firstn (2 * k) b).
Proof.
  revert b. induction k as [|k IH]; intros b Hb; [exact I|].
  replace (2 * S k)%nat with (S (S (2 * k))) by lia.
  destruct b as [|lo [|hi b']]; [exact I | destruct Hb |].
  cbn [firstn]. destruct Hb as (H1 & H2 & H3). cbn [separated].
  split; [exact H1|]. split; [|now apply IH].
  destruct k as [|k]; [exact I|].
  replace (2 * S k)%nat with (S (S (2 * k))) by lia.
  destruct b' as [|lo' b'']; [exact I | exact H2].
Qed.

(** X2: the bounds that a strictly increasing index array leaves in the list
    come in pairs [lo <= hi], and each pair starts more than one index after
    the end of the pair before it: the intervals do not touch, so each is a
    maximal run. This holds for the recursive finder however much room it is
    given, also when it runs out of it. *)
Theorem bounds_are_separated (limit : nat) (ix_arr : list Z) :
  ix_arr <> [] -> StronglySorted Z.lt ix_arr ->
  separated (fst (find_bound_for_integration limit ix_arr []))
  /\ separated (fst (find_limit_for_integration ix_arr [])).
Proof.
  intros Hne Hs. split.
  - unfold find_bound_for_integration. rewrite find_bound_fuel_sorted by assumption.
    destruct (count_runs ix_arr <=? S limit)%nat; cbn [app fst].
    + now apply separated_runs.
    + now apply separated_firstn, separated_runs.
  - rewrite find_limit_runs by assumption. cbn [app fst]. now apply separated_runs.
Qed.

Lemma bounds_are_separated_witness :
  separated (fst (find_bound_for_integration 1 [2; 3; 4; 9; 11; 12] []))
  /\ separated (fst (find_limit_for_integration [2; 3; 4; 9; 11; 12] [])).
Proof.
  apply (@bounds_are_separated 1 [2; 3; 4; 9; 11; 12]).
  - discriminate.
  - repeat (constructor; [|repeat (constructor; try lia)]). constructor.
Defined.

Lemma sorted_arange (a : Z) (n : nat) : StronglySorted Z.lt (arange a n).
Proof.
  revert a. induction n as [|n IH]; intros a; cbn [arange]; constructor; [apply IH|].
  assert (H : forall m b, a < b -> Forall (Z.lt a) (arange b m)).
  { induction m as [|m IHm]; intros b Hb; cbn [arange]; constructor; [exact Hb|].
    apply IHm. lia. }
  apply H. lia.
Qed.

Lemma runs_aux_arange (n : nat) (oc p : Z) :
  runs_aux oc p (arange (p + 1) n) = [oc; p + Z.of_nat n].
Proof.
  revert p. induction n as [|n IH]; intros p; cbn [arange runs_aux].
  - now rewrite Z.add_0_r.
  - replace (p + 1 - p =? 1) with true by (symmetry; apply Z.eqb_eq; lia).
    rewrite IH. do 2 f_equal. lia.
Qed.

(** X3: on an array of consecutive indices [a, a+1, ..., a+n] both finders
    return the single pair [(a, a+n)], its minimum and its maximum. *)
Theorem consecutive_indices_give_one_pair (limit : nat) (a : Z) (n : nat) :
  find_bound_for_integration limit (arange a (S n)) []
  = ([a; a + Z.of_nat n], Returned)
  /\ find_limit_for_integration (arange a (S n)) [] = ([a; a + Z.of_nat n], Returned).
Proof.
  assert (Hne : arange a (S n) <> []) by discriminate.
  pose proof (sorted_arange a (S n)) as Hs.
  assert (Hr : runs (arange a (S n)) = [a; a + Z.of_nat n])
    by (cbn [arange runs]; apply runs_aux_arange).
  rewrite find_bound_runs, find_limit_runs; try assumption.
  - cbn [app]. now rewrite Hr.
  - unfold count_runs. rewrite Hr. cbn. lia.
Qed.

(** *** The accumulator *)

Lemma limit_loop_frame ix_arr rest jj s oc b0 :
  limit_loop ix_arr jj rest s oc b0
  = match limit_loop ix_arr jj rest s oc [] with
    | Ok (oc', b) => Ok (oc', b0 ++ b)
    | Err e => Err e
    end.
Proof.
  revert jj s oc b0. induction rest as [|v rest IH]; intros jj s oc b0.
  - cbn. now rewrite app_nil_r.
  - cbn [limit_loop]. destruct (negb (v - s =? 1)).
    + destruct (py_getitem ix_arr (jj - 1)) as [prev|]; cbn [of_option bind]; [|reflexivity].
      rewrite (IH _ _ _ (b0 ++ [oc; prev])), (IH _ _ _ ([] ++ [oc; prev])).
      destruct (limit_loop ix_arr (jj + 1) rest v v []) as [[oc' b]|e]; [|reflexivity].
      now rewrite <- app_assoc.
    + apply IH.
Qed.

Lemma find_bound_fuel_frame fuel ix_arr b0 :
  find_bound_fuel fuel ix_arr b0
  = (b0 ++ fst (find_bound_fuel fuel ix_arr []), snd (find_bound_fuel fuel ix_arr [])).
Proof.
  revert ix_arr b0. induction fuel as [|fuel IH]; intros ix_arr b0.
  - cbn. now rewrite app_nil_r.
  - cbn [find_bound_fuel].
    destruct (np_min ix_arr); [|cbn; now rewrite app_nil_r].
    destruct (np_min (take ix_arr _)) as [lo|]; [|cbn; now rewrite app_nil_r].
    destruct (np_max (take ix_arr _)) as [hi|]; [|reflexivity].
    destruct (nat_max _) as [mi|]; [|cbn; now rewrite <- app_assoc].
    destruct (length (skipn (mi + 1) ix_arr) =? 0)%nat.
    + cbn. now rewrite <- app_assoc.
    + rewrite (IH _ ((b0 ++ [lo]) ++ [hi])), (IH _ (([] ++ [lo]) ++ [hi])).
      cbn [fst snd app]. now rewrite <- !app_assoc.
Qed.

(** X4: what a finder finds does not depend on what the accumulator [b0]
    already holds: the call ends the same way and leaves in [b0] its former
    contents followed by what the call on an empty list would have left. *)
Theorem accumulator_is_only_extended (limit : nat) (ix_arr b0 : list Z) :
  find_bound_for_integration limit ix_arr b0
  = (b0 ++ fst (find_bound_for_integration limit ix_arr []),
     snd (find_bound_for_integration limit ix_arr []))
  /\ find_limit_for_integration ix_arr b0
     = (b0 ++ fst (find_limit_for_integration ix_arr []),
        snd (find_limit_for_integration ix_arr [])).
Proof.
  split; [apply find_bound_fuel_frame|].
  unfold find_limit_for_integration.
  destruct (np_min ix_arr) as [m|]; [|cbn; now rewrite app_nil_r].
  rewrite limit_loop_frame.
  destruct (limit_loop ix_arr 0 ix_arr (m - 1) m []) as [[oc b]|e];
    [|cbn; now rewrite app_nil_r].
  destruct (py_getitem ix_arr (-1)) as [l|]; [|reflexivity].
  destruct (last ix_arr 0 =? l); cbn [fst snd app]; [now rewrite <- app_assoc | reflexivity].
Qed.

Lemma limit_loop_even ix_arr rest jj s oc oc' b :
  limit_loop ix_arr jj rest s oc [] = Ok (oc', b) -> Nat.even (length b) = true.
Proof.
  revert jj s oc oc' b. induction rest as [|v rest IH]; intros jj s oc oc' b.
  - cbn. now intros [= <- <-].
  - cbn [limit_loop]. destruct (negb (v - s =? 1)).
    + destruct (py_getitem ix_arr (jj - 1)) as [prev|]; cbn [of_option bind]; [|discriminate].
      rewrite limit_loop_frame.
      destruct (limit_loop ix_arr (jj + 1) rest v v []) as [[oc2 b2]|e] eqn:El; [|discriminate].
      intros [= <- <-]. cbn [app length Nat.even]. eapply IH, El.
    + apply IH.
Qed.

Lemma find_bound_fuel_even fuel ix_arr :
  Nat.even (length (fst (find_bound_fuel fuel ix_arr []))) = true.
Proof.
  revert ix_arr. induction fuel as [|fuel IH]; intros ix_arr; [reflexivity|].
  cbn [find_bound_fuel].
  destruct (np_min ix_arr); [|reflexivity].
  destruct (np_min (take ix_arr _)) as [lo|] eqn:Emin; [|reflexivity].
  destruct (np_max (take ix_arr _)) as [hi|] eqn:Emax.
  - destruct (nat_max _) as [mi|]; [|reflexivity].
    destruct (length (skipn (mi + 1) ix_arr) =? 0)%nat; [reflexivity|].
    rewrite find_bound_fuel_frame. cbn [fst app length Nat.even]. apply IH.
  - destruct (take ix_arr _); discriminate.
Qed.

Lemma bounds_come_in_pairs_aux (limit : nat) (ix_arr : list Z) :
  Nat.even (length (fst (find_bound_for_integration limit ix_arr []))) = true
  /\ Nat.even (length (fst (find_limit_for_integration ix_arr []))) = true.
Proof.
  split; [apply find_bound_fuel_even|].
  unfold find_limit_for_integration.
  destruct (np_min ix_arr) as [m|]; [|reflexivity].
  destruct (limit_loop ix_arr 0 ix_arr (m - 1) m []) as [[oc b]|e] eqn:El; [|reflexivity].
  apply limit_loop_even in El.
  destruct (py_getitem ix_arr (-1)) as [l|]; [|exact El].
  destruct (last ix_arr 0 =? l); cbn [fst]; [|exact El].
  rewrite length_app, Nat.even_add, El. reflexivity.
Qed.

(** X5: whatever the index array (unsorted, with repetitions, empty),
    whatever room the recursion is given and however the call ends, both
    finders leave an even number of entries in a
    list that was empty: bounds are only ever appended in pairs. *)
Theorem bounds_come_in_pairs (limit : nat) (ix_arr : list Z) :
  Nat.even (length (fst (find_bound_for_integration limit ix_arr []))) = true
  /\ Nat.even (length (fst (find_limit_for_integration ix_arr []))) = true.
Proof. apply bounds_come_in_pairs_aux. Qed.

End BoundsMore.

(** ** The bound search and the result of [ohmicArea] *)

Module PipelineMore.

Import IxArr Bounds BoundsFacts QArr Poly Unique PipelineFacts.
Open Scope list_scope.
Open Scope Q_scope.

Lemma sorted_mask_indexes (f : nat -> bool) (a n : nat) :
  StronglySorted Z.lt (map Z.of_nat (filter f (seq a n))).
Proof.
  revert a. induction n as [|n IH]; intros a; cbn [seq filter map]; [constructor|].
  destruct (f a); [|apply IH]. cbn [map]. constructor; [apply IH|].
  apply Forall_forall. intros z Hz. apply in_map_iff in Hz.
  destruct Hz as (i & <- & Hi). apply filter_In in Hi. destruct Hi as [Hi _].
  apply in_seq in Hi. lia.
Qed.

(** With or without room for the recursion, the search ends on the bounds of
    the runs: what the recursive finder cannot finish the iterative one
    does. *)
Lemma integration_bounds_sorted (rng : Type) (E : externals rng) (indexes : list Z) :
  StronglySorted Z.lt indexes ->
  integration_bounds E indexes
  = match indexes with
    | [] => Err ValueError_zero_size
    | _ :: _ => Ok (runs indexes)
    end.
Proof.
  intros Hs. unfold integration_bounds. destruct indexes as [|x l]; [reflexivity|].
  unfold find_bound_for_integration.
  rewrite find_bound_fuel_sorted by (assumption || discriminate).
  destruct (count_runs (x :: l) <=? S (recursion_room E))%nat; [reflexivity|].
  rewrite find_limit_runs by (assumption || discriminate). reflexivity.
Qed.

(** Two runs are two indices apart at least. *)
Lemma runs_aux_span (l : list Z) (oc p hi : Z) :
  StronglySorted Z.lt (p :: l) -> (oc <= p)%Z ->
  Forall (fun y => (y <= hi)%Z) (p :: l) ->
  (2 * Z.of_nat (Nat.div2 (length (runs_aux oc p l))) <= hi - oc + 2)%Z.
Proof.
  revert oc p. induction l as [|v l IH]; intros oc p Hs Hle Hhi.
  - cbn [runs_aux length Nat.div2]. inversion Hhi; subst. lia.
  - inversion Hs as [|? ? Hs' Hp]; subst. inversion Hp as [|? ? Hpv _]; subst.
    inversion Hhi as [|? ? _ Hhi']; subst.
    cbn [runs_aux]. destruct (v - p =? 1)%Z eqn:E.
    + apply IH; [assumption | lia | assumption].
    + apply Z.eqb_neq in E. cbn [length Nat.div2].
      specialize (IH v v Hs' ltac:(lia) Hhi'). lia.
Qed.

Lemma count_runs_mask (keep : nat -> bool) (n : nat) :
  (count_runs (map Z.of_nat (filter keep (seq 0 n))) <= (n + 1) / 2)%nat.
Proof.
  pose proof (sorted_mask_indexes keep 0 n) as Hs.
  assert (Hin : Forall (fun y => (0 <= y <= Z.of_nat n - 1)%Z)
                       (map Z.of_nat (filter keep (seq 0 n)))).
  { apply Forall_forall. intros z Hz. apply in_map_iff in Hz.
    destruct Hz as (i & <- & Hi). apply filter_In in Hi. destruct Hi as [Hi _].
    apply in_seq in Hi. lia. }
  unfold count_runs.
  destruct (map Z.of_nat (filter keep (seq 0 n))) as [|x l]; [cbn; lia|].
  cbn [runs].
  assert (Hx : (0 <= x)%Z) by (inversion Hin; subst; lia).
  pose proof (@runs_aux_span l x x (Z.of_nat n - 1) Hs ltac:(lia)) as H.
  assert (Hhi : Forall (fun y => (y <= Z.of_nat n - 1)%Z) (x :: l)).
  { eapply Forall_impl; [|exact Hin]. cbn beta. intros; lia. }
  specialize (H Hhi).
  apply Nat.div_le_lower_bound; lia.
Qed.

(** X6: the indices that [ohmicArea] keeps (those of a mask over a sampled
    range) are strictly increasing, so its [try]/[except] around the two
    finders never changes the outcome: when none is kept (the basement curve
    is nowhere above the fitted curve) the fallback fails like the first
    finder and the search raises ValueError; when at least one is kept the
    search returns the bounds of the runs, from the recursive finder when it
    has room for one frame per run (there are no more runs than half the
    samples, rounded up) and from the iterative finder when it has not. *)
Theorem bound_search_on_a_mask (rng : Type) (E : externals rng)
    (keep : nat -> bool) (n : nat) :
  let indexes := map Z.of_nat (filter keep (seq 0 n)) in
  (indexes = [] -> integration_bounds E indexes = Err ValueError_zero_size)
  /\ (indexes <> [] ->
      integration_bounds E indexes = Ok (runs indexes)
      /\ (count_runs indexes <= (n + 1) / 2)%nat
      /\ ((count_runs indexes <= S (recursion_room E))%nat ->
          find_bound_for_integration (recursion_room E) indexes []
          = (runs indexes, Returned))
      /\ ((S (recursion_room E) < count_runs indexes)%nat ->
          snd (find_bound_for_integration (recursion_room E) indexes [])
          = Raised RecursionError
          /\ find_limit_for_integration indexes [] = (runs indexes, Returned))).
Proof.
  intros indexes.
  pose proof (sorted_mask_indexes keep 0 n) as Hs. fold indexes in Hs.
  split.
  - intros He. rewrite integration_bounds_sorted by assumption. now rewrite He.
  - intros Hne. rewrite integration_bounds_sorted by assumption.
    split; [destruct indexes; [congruence | reflexivity]|].
    split; [apply count_runs_mask|]. split.
    + intros Hc. now rewrite find_bound_runs.
    + intros Hc. rewrite find_bound_out_of_room, find_limit_runs by assumption.
      split; reflexivity.
Qed.

Lemma integration_bounds_even (rng : Type) (E : externals rng) (indexes ib : list Z) :
  integration_bounds E indexes = Ok ib -> Nat.even (length ib) = true.
Proof.
  unfold integration_bounds.
  destruct (BoundsMore.bounds_come_in_pairs_aux (recursion_room E) indexes) as [Hb Hl].
  destruct (find_bound_for_integration (recursion_room E) indexes []) as [b [|e]].
  - now intros [= <-].
  - destruct (find_limit_for_integration indexes []) as [b' [|e']]; [|discriminate].
    now intros [= <-].
Qed.

Lemma even_half (n : nat) : Nat.even n = true -> (2 * (n / 2) = n)%nat.
Proof.
  intros H. apply Nat.even_spec in H. destruct H as [k ->].
  rewrite (Nat.mul_comm 2 k), Nat.div_mul by lia. lia.
Qed.

Lemma length_chunks (k size : nat) (a : list Q) : length (chunks k size a) = k.
Proof.
  revert a. induction k as [|k IH]; intros a; cbn [chunks length]; [reflexivity|].
  now rewrite IH.
Qed.

Section WithExternals.

Variable rng : Type.
Variable E : externals rng.

Lemma integrate_pairs_lengths ff pr areas errs :
  integrate_pairs E ff pr = Ok (areas, errs) ->
  length areas = length pr /\ length errs = length pr
  /\ Forall (fun p => length p = 2%nat) pr.
Proof.
  intros H. apply integrate_pairs_spec in H. destruct H as (_ & Ha & He).
  split; [symmetry; eapply Forall2_length, Ha|].
  split; [symmetry; eapply Forall2_length, He|].
  clear Ha. induction He as [|p e pr errs (inf & sup & -> & _) _ IH]; constructor; auto.
Qed.

Tactic Notation "inv_lift" hyp(H) "as" simple_intropattern(a) ident(Hm) :=
  apply mbind_lift_ok_inv in H; destruct H as (a & Hm & H); cbn beta iota in H.

(** What a call that returns the areas has computed, roots included. *)
Lemma ohmic_numerics_roots objective X Y key sum w o v :
  fst (ohmic_numerics E objective X Y key sum w) = Ok (Some o, v) ->
  exists indexes ib pairwise_r ff areas,
    integration_bounds E indexes = Ok ib
    /\ length (roots o) = length ib
    /\ (if (2 <? length (roots o))%nat
        then np_split (roots o) (length (roots o) / 2)
        else Ok [roots o]) = Ok pairwise_r
    /\ integrate_pairs E ff pairwise_r = Ok (areas, err_ohmS o)
    /\ ohmS o = (if sum then Total (Qsum areas) else Areas areas).
Proof.
  intros H. unfold ohmic_numerics in H.
  rewrite mbind_enter in H.
  inv_lift H as [[f_rhotl x_new] y_projected] Hfit.
  inv_lift H as oIx HoIx.
  destruct (dummy_basement_curve E (polyval f_rhotl) key 45) as [f_brl beta].
  inv_lift H as lo Hlo. inv_lift H as hi Hhi.
  rewrite mbind_enter in H.
  inv_lift H as ib Hib.
  rewrite mbind_enter in H.
  inv_lift H as [[f45 ?] ?] Hfit2.
  inv_lift H as pr Hpr. inv_lift H as [areas errs] Hint.
  apply ret_ok_inv, select_ohms in H. subst o. cbn [ohmS err_ohmS roots] in *.
  eexists _, ib, pr, _, areas.
  split; [exact Hib|]. split; [apply length_map|].
  split; [exact Hpr|]. split; [exact Hint | reflexivity].
Qed.

(** X7: whenever [ohmicArea] returns the areas, the roots come in pairs and
    there is one error estimate, and one area when [sum] is not set, for each
    pair: [len(err_ohmS) == len(roots) // 2], nothing left over. *)
Theorem one_area_per_pair_of_roots dtAB dtrho AB rhoa ohmSkey sum objective typeofop w o v :
  fst (ohmicArea E dtAB dtrho AB rhoa ohmSkey sum objective typeofop w) = Ok (Some o, v) ->
  (2 * length (err_ohmS o) = length (roots o))%nat
  /\ match ohmS o with
     | Areas a => sum = false /\ length a = length (err_ohmS o)
     | Total _ => sum = true
     end.
Proof.
  intros H. apply ohmicArea_inv in H. destruct H as (obj & X & Y & key & w' & H).
  apply ohmic_numerics_roots in H.
  destruct H as (indexes & ib & pr & ff & areas & Hib & Hlen & Hpr & Hint & Ho).
  apply integration_bounds_even in Hib. rewrite <- Hlen in Hib.
  apply integrate_pairs_lengths in Hint. destruct Hint as (Ha & He & H2).
  split.
  - rewrite He. destruct (2 <? length (roots o))%nat eqn:E2.
    + unfold np_split in Hpr.
      destruct (length (roots o) / 2 =? 0)%nat; [discriminate|].
      destruct (negb _); [discriminate|]. injection Hpr as <-.
      rewrite length_chunks. now apply even_half.
    + injection Hpr as <-. inversion H2 as [|? ? Hr _]; subst. cbn [length]. lia.
  - rewrite Ho. destruct sum; [reflexivity|]. split; [reflexivity | congruence].
Qed.

End WithExternals.

Lemma one_area_per_pair_of_roots_witness :
  (2 * length (err_ohmS sample_ohms) = length (roots sample_ohms))%nat
  /\ match ohmS sample_ohms with
     | Areas a => false = false /\ length a = length (err_ohmS sample_ohms)
     | Total _ => false = true
     end.
Proof.
  apply (@one_area_per_pair_of_roots unit sample_externals float64 float64
           sample_AB sample_rhoa (Key_num 20) false "ohmS"%string None (mkWorld tt [])
           sample_ohms None).
  vm_compute. reflexivity.
Defined.

End PipelineMore.

(** ** [vesDataOperator] on data without duplicates *)

Module VesMore.

Import QArr Unique UniqueFacts PipelineFacts.
Open Scope list_scope.
Open Scope Q_scope.

Lemma Qleb_lt (x y : Q) : x < y -> Qleb x y = true.
Proof.
  intros H. unfold Qleb. apply Qle_bool_iff. now apply Qlt_le_weak.
Qed.

Lemma Qeqb_lt (x y : Q) : x < y -> Qeqb y x = false.
Proof.
  intros H. unfold Qeqb. destruct (Qeq_bool y x) eqn:E; [|reflexivity].
  apply Qeq_bool_iff in E. rewrite E in H. now apply Qlt_irrefl in H.
Qed.

Lemma sort_sorted_id (l : list Q) : StronglySorted Qlt l -> sort l = l.
Proof.
  induction 1 as [|x l Hs IH Hx]; [reflexivity|].
  cbn [sort]. rewrite IH. destruct l as [|y l]; [reflexivity|].
  cbn [insert]. inversion Hx; subst. now rewrite Qleb_lt.
Qed.

Lemma uniq_from_sorted_id (p : Q) (l : list Q) :
  StronglySorted Qlt (p :: l) -> uniq_from p l = l.
Proof.
  revert p. induction l as [|x l IH]; intros p Hs; [reflexivity|].
  inversion Hs as [|? ? Hs' Hp]; subst. inversion Hp; subst.
  cbn [uniq_from]. rewrite Qeqb_lt by assumption. f_equal. now apply IH.
Qed.

Lemma np_unique_sorted_id (l : list Q) : StronglySorted Qlt l -> np_unique l = l.
Proof.
  intros Hs. unfold np_unique. rewrite sort_sorted_id by assumption.
  destruct l as [|x l]; [reflexivity|]. f_equal. now apply uniq_from_sorted_id.
Qed.

Lemma sorted_nth_lt (l : list Q) (i j : nat) (p q : Q) :
  StronglySorted Qlt l -> (i < j)%nat ->
  nth_error l i = Some p -> nth_error l j = Some q -> p < q.
Proof.
  intros Hs. revert i j. induction Hs as [|x l Hs IH Hx]; intros i j Hij Hi Hj.
  - destruct i; discriminate.
  - destruct j as [|j]; [lia|]. cbn [nth_error] in Hj.
    destruct i as [|i].
    + cbn in Hi. injection Hi as ->. rewrite Forall_forall in Hx.
      eapply Hx, nth_error_In, Hj.
    + cbn [nth_error] in Hi. apply (IH i j); [lia | assumption..].
Qed.

Lemma sorted_occurs_once (l : list Q) (i : nat) (p : Q) :
  StronglySorted Qlt l -> nth_error l i = Some p -> occurs_once l i p.
Proof.
  intros Hs Hi. split; [exact Hi|]. intros j p' Hj He.
  destruct (Nat.lt_trichotomy j i) as [Hlt|[Heq|Hgt]]; [exfalso|exact Heq|exfalso].
  - pose proof (sorted_nth_lt Hs Hlt Hj Hi) as H. rewrite He in H.
    now apply Qlt_irrefl in H.
  - pose proof (sorted_nth_lt Hs Hgt Hi Hj) as H. rewrite He in H.
    now apply Qlt_irrefl in H.
Qed.

Lemma map_index_seq {A : Type} (f : A -> nat) (l : list A) (a : nat) :
  (forall i p, nth_error l i = Some p -> f p = (a + i)%nat) ->
  map f l = seq a (length l).
Proof.
  revert a. induction l as [|x l IH]; intros a H; [reflexivity|].
  cbn [map length seq]. f_equal.
  - rewrite (H 0%nat x eq_refl). lia.
  - apply IH. intros i p Hi. rewrite (H (S i) p Hi). lia.
Qed.

Lemma unique_index_sorted (l : list Q) :
  StronglySorted Qlt l -> unique_index l = seq 0 (length l).
Proof.
  intros Hs. unfold unique_index. rewrite np_unique_sorted_id by assumption.
  apply map_index_seq. intros i p Hi. cbn [plus].
  apply first_index_once. now apply sorted_occurs_once.
Qed.

Lemma filter_none {A : Type} (f : A -> bool) (l : list A) :
  (forall x, In x l -> f x = false) -> filter f l = [].
Proof.
  induction l as [|x l IH]; intros H; [reflexivity|].
  cbn [filter]. rewrite (H x) by now left. apply IH. intros y Hy. apply H. now right.
Qed.

Lemma duplicated_sorted (l : list Q) : StronglySorted Qlt l -> duplicated l = [].
Proof.
  intros Hs. unfold duplicated. rewrite filter_none; [reflexivity|].
  intros i Hi. apply in_seq in Hi. apply negb_false_iff.
  unfold first_mask.
  rewrite (nth_indep _ false (existsb (Nat.eqb 0) (unique_index l)))
    by (rewrite length_map, length_seq; lia).
  rewrite (map_nth (fun i => existsb (Nat.eqb i) (unique_index l))).
  rewrite seq_nth by lia. cbn [plus].
  apply existsb_exists. exists i. split; [|apply Nat.eqb_refl].
  rewrite unique_index_sorted by assumption. apply in_seq. lia.
Qed.

Lemma assign_masked_nil (Y : list Q) (mask : list bool) : assign_masked Y mask [] = Y.
Proof.
  revert mask. induction Y as [|y Y IH]; intros mask; [now destruct mask as [|[] ?]|].
  destruct mask as [|[] mask]; cbn [assign_masked]; [reflexivity|now rewrite IH..].
Qed.

Lemma assign_masked_length (Y : list Q) (mask : list bool) (vals : list Q) :
  length (assign_masked Y mask vals) = length Y.
Proof.
  revert mask vals. induction Y as [|y Y IH]; intros mask vals;
    [now destruct mask as [|[] ?]|].
  destruct mask as [|[] mask]; [reflexivity|destruct vals|]; cbn [assign_masked length];
    now rewrite IH.
Qed.

Lemma mask_assign_length d Y mask vals Y' :
  mask_assign d Y mask vals = Ok Y' -> length Y' = length Y.
Proof.
  unfold mask_assign. destruct (_ =? _)%nat.
  - intros [= <-]. apply assign_masked_length.
  - destruct vals as [|v [|? ?]]; try discriminate.
    intros [= <-]. apply assign_masked_length.
Qed.

Lemma map_nth_seq (l : list Q) : map (fun i => nth i l 0) (seq 0 (length l)) = l.
Proof.
  induction l as [|x l IH]; [reflexivity|].
  cbn [length seq map nth]. f_equal.
  rewrite <- seq_shift, map_map. exact IH.
Qed.

Lemma isin_nothing (X : list Q) : filter (fun b : bool => b) (isin X []) = [].
Proof.
  apply filter_none. intros b Hb. unfold isin in Hb. apply in_map_iff in Hb.
  now destruct Hb as (x & <- & _).
Qed.

Section WithExternals.

Variable rng : Type.
Variable E : externals rng.

Lemma clean_data_is_returned_as_given_aux typeofop op dtAB dtrho AB rhoa (w : world rng) :
  parse_typeofop typeofop = Ok op ->
  StronglySorted Qlt AB ->
  length AB = length rhoa ->
  vesDataOperator E typeofop dtAB dtrho AB rhoa w = (Ok (AB, rhoa), w).
Proof.
  intros Hop Hs Hl. unfold vesDataOperator.
  unfold mbind at 1. unfold lift at 1. rewrite Hop.
  rewrite Hl, Nat.eqb_refl. cbn [negb].
  rewrite duplicated_sorted, np_unique_sorted_id, unique_index_sorted by assumption.
  cbn [fill_d0]. unfold mbind, ret, lift, mask_assign.
  rewrite isin_nothing. cbn [length Nat.eqb map].
  rewrite assign_masked_nil, Hl, map_nth_seq. reflexivity.
Qed.

(** X8: spacings that are already strictly increasing (so none is repeated)
    go through [vesDataOperator] untouched, whatever the operation: the call
    returns [(AB, rhoa)] as given and draws no random number. *)
Theorem clean_data_is_returned_as_given typeofop op dtAB dtrho AB rhoa (w : world rng) :
  parse_typeofop typeofop = Ok op ->
  StronglySorted Qlt AB ->
  length AB = length rhoa ->
  vesDataOperator E typeofop dtAB dtrho AB rhoa w = (Ok (AB, rhoa), w).
Proof. apply clean_data_is_returned_as_given_aux. Qed.

(** X9: [vesDataOperator] is idempotent: what a call returns, a second call
    with the same operation returns unchanged. *)
Theorem reduce_twice_is_reduce_once typeofop dtAB dtrho AB rhoa (w w' : world rng) X Y :
  fst (vesDataOperator E typeofop dtAB dtrho AB rhoa w) = Ok (X, Y) ->
  vesDataOperator E typeofop dtAB dtrho X Y w' = (Ok (X, Y), w').
Proof.
  intros H.
  assert (Hop : exists op, parse_typeofop typeofop = Ok op).
  { unfold vesDataOperator in H. unfold mbind at 1 in H. unfold lift at 1 in H.
    destruct (parse_typeofop typeofop) as [op|e]; [now exists op | discriminate]. }
  destruct Hop as [op Hop].
  apply VesFacts.vesDataOperator_inv in H. destruct H as (Hl & -> & d0 & Hm).
  apply mask_assign_length in Hm. rewrite length_map in Hm. unfold unique_index in Hm.
  rewrite length_map in Hm.
  apply clean_data_is_returned_as_given_aux with (op := op);
    [assumption | apply np_unique_sorted | now symmetry].
Qed.

End WithExternals.

Lemma clean_data_is_returned_as_given_witness :
  vesDataOperator sample_externals (Some "median"%string) float64 float64
                  sample_AB sample_rhoa (mkWorld tt [])
  = (Ok (sample_AB, sample_rhoa), mkWorld tt []).
Proof.
  apply (@clean_data_is_returned_as_given unit sample_externals (Some "median"%string)
           Op_median float64 float64 sample_AB sample_rhoa (mkWorld tt [])).
  - reflexivity.
  - unfold sample_AB. repeat (constructor; [|repeat (constructor; try reflexivity)]).
    constructor.
  - reflexivity.
Defined.

Lemma reduce_twice_is_reduce_once_witness :
  vesDataOperator sample_externals (Some "mean"%string) int64 int64
                  [0; 10; 20] [100; 100; 80] (mkWorld tt [Stage_reduce])
  = (Ok ([0; 10; 20], [100; 100; 80]), mkWorld tt [Stage_reduce]).
Proof.
  apply (@reduce_twice_is_reduce_once unit sample_externals (Some "mean"%string)
           int64 int64 [0; 10; 10; 20] [100; 90; 110; 80]
           (mkWorld tt []) (mkWorld tt [Stage_reduce]) [0; 10; 20] [100; 100; 80]).
  reflexivity.
Defined.

(** *** Randomness *)

Lemma fill_d0_pure rng op dtAB AB rhoa dups :
  op <> Op_leaveoneout ->
  exists vs, forall (E : externals rng) w,
    fill_d0 E op dtAB AB rhoa dups w = (Ok vs, w).
Proof.
  intros Hop. induction dups as [|d dups [vs IH]].
  - exists []. reflexivity.
  - destruct op; [| |congruence].
    + eexists. intros E w. cbn [fill_d0 aggregate]. unfold mbind, ret.
      rewrite IH. reflexivity.
    + eexists. intros E w. cbn [fill_d0 aggregate]. unfold mbind, ret.
      rewrite IH. reflexivity.
Qed.

(** X10: unless the operation is [leaveOneOut], [vesDataOperator] is a
    function of its arguments alone: it leaves the random generator as it
    found it, and its result does not depend on the generator. *)
Theorem only_leaveoneout_is_random rng typeofop dtAB dtrho AB rhoa :
  parse_typeofop typeofop <> Ok Op_leaveoneout ->
  exists r, forall (E : externals rng) (w : world rng),
    vesDataOperator E typeofop dtAB dtrho AB rhoa w = (r, w).
Proof.
  intros Hop. unfold vesDataOperator.
  destruct (parse_typeofop typeofop) as [op|e] eqn:Ep.
  - assert (Hne : op <> Op_leaveoneout) by congruence.
    destruct (negb (length AB =? length rhoa)%nat).
    + eexists. intros E w. reflexivity.
    + destruct (fill_d0_pure rng dtAB AB rhoa (duplicated AB) Hne) as [vs Hvs].
      eexists. intros E w. unfold mbind at 1. unfold lift at 1.
      unfold mbind at 1. rewrite Hvs. unfold mbind, lift, ret.
      instantiate (1 := match mask_assign dtrho
                                (map (fun i => nth i rhoa 0) (unique_index AB))
                                (isin (np_unique AB) (duplicated AB)) vs with
                        | Ok Y' => Ok (np_unique AB, Y')
                        | Err e => Err e
                        end).
      now destruct (mask_assign _ _ _ vs).
  - eexists. intros E w. reflexivity.
Qed.

Lemma only_leaveoneout_is_random_witness :
  exists r, forall (E : externals unit) (w : world unit),
    vesDataOperator E (Some "MEAN"%string) int64 float64
                    [0; 10; 10; 20] [100; 90; 111; 80] w = (r, w).
Proof.
  apply (@only_leaveoneout_is_random unit (Some "MEAN"%string) int64 float64
           [0; 10; 10; 20] [100; 90; 111; 80]).
  discriminate.
Defined.

End VesMore.

(** ** Polynomials and the sampling of [fitfunc] *)

Module FitMore.

Import QArr Poly PolyRead PipelineFacts.
Open Scope list_scope.
Open Scope Q_scope.

(** *** Subtraction of [poly1d] *)

Lemma fold_horner_compat (x : Q) (l : list Q) (u v : Q) :
  u == v -> fold_left (horner x) l u == fold_left (horner x) l v.
Proof.
  revert u v. induction l as [|c l IH]; intros u v H; [exact H|].
  cbn [fold_left]. apply IH. unfold horner. now rewrite H.
Qed.

Lemma fold_horner_zeros (x : Q) (k : nat) (u : Q) :
  u == 0 -> fold_left (horner x) (repeat 0 k) u == 0.
Proof.
  revert u. induction k as [|k IH]; intros u H; [exact H|].
  cbn [repeat fold_left]. apply IH. unfold horner. rewrite H. ring.
Qed.

Lemma polyval_pad (n : nat) (p : list Q) (x : Q) : polyval (pad n p) x == polyval p x.
Proof.
  unfold polyval, pad. change (fun acc c => acc * x + c) with (horner x).
  rewrite fold_left_app. apply fold_horner_compat, fold_horner_zeros. reflexivity.
Qed.

Lemma fold_horner_sub (x : Q) (a b : list Q) (u v w : Q) :
  length a = length b -> w == u - v ->
  fold_left (horner x) (map (fun ab => fst ab - snd ab) (combine a b)) w
  == fold_left (horner x) a u - fold_left (horner x) b v.
Proof.
  revert b u v w. induction a as [|c a IH]; intros b u v w Hl Hw.
  - destruct b; [exact Hw | discriminate].
  - destruct b as [|d b]; [discriminate|].
    cbn [combine map fold_left fst snd]. apply IH; [now injection Hl|].
    unfold horner. rewrite Hw. ring.
Qed.

Lemma length_pad (n : nat) (p : list Q) : (length p <= n)%nat -> length (pad n p) = n.
Proof.
  intros H. unfold pad. rewrite length_app, repeat_length. lia.
Qed.

(** X11: subtracting two [poly1d] subtracts their values, whatever their
    degrees: [(p - q)(x) = p(x) - q(x)]. The integrand [ff = f45 - f_rhotl] of
    [ohmicArea] is the difference of the local and the global fit. *)
Theorem poly_sub_is_pointwise (p q : list Q) (x : Q) :
  polyval (poly_sub p q) x == polyval p x - polyval q x.
Proof.
  rewrite <- (polyval_pad (Nat.max (length p) (length q)) p x).
  rewrite <- (polyval_pad (Nat.max (length p) (length q)) q x).
  unfold poly_sub, polyval. cbv zeta. change (fun acc c => acc * x + c) with (horner x).
  apply fold_horner_sub; [|ring].
  rewrite !length_pad by lia. reflexivity.
Qed.

(** *** The sample points *)

Lemma fold_min_spec (l : list Q) (x : Q) :
  let r := fold_left (fun m y => if Qltb y m then y else m) l x in
  r <= x /\ Forall (fun y => r <= y) l.
Proof.
  revert x. induction l as [|y l IH]; intros x; cbn [fold_left].
  - split; [apply Qle_refl | constructor].
  - specialize (IH (if Qltb y x then y else x)). cbv zeta in IH.
    destruct IH as [H1 H2]. set (r := fold_left _ l _) in *.
    unfold Qltb in *. destruct (Qle_bool x y) eqn:El; cbn [negb] in *.
    + apply Qle_bool_iff in El. split; [exact H1|].
      constructor; [now apply Qle_trans with x | exact H2].
    + apply (UniqueFacts.Qleb_false x y) in El.
      split; [apply Qle_trans with y; [exact H1 | now apply Qlt_le_weak]|].
      constructor; [exact H1 | exact H2].
Qed.

Lemma min_le_max (x : list Q) (lo hi : Q) :
  Qminimum x = Some lo -> Qmaximum x = Some hi -> lo <= hi.
Proof.
  destruct x as [|x0 x]; [discriminate|]. cbn [Qminimum Qmaximum].
  intros [= <-] [= <-].
  destruct (fold_min_spec x x0) as [H1 _].
  destruct (fold_max_spec x x0) as (_ & H2 & _).
  eapply Qle_trans; eassumption.
Qed.

Lemma length_linspace (a b : Q) (n : nat) : length (linspace a b n) = n.
Proof.
  destruct n as [|[|n]]; [reflexivity..|].
  cbn [linspace]. rewrite length_app, length_map, length_seq. cbn [length]. lia.
Qed.

Lemma linspace_ends (a b : Q) (n : nat) :
  (2 <= n)%nat -> nth 0 (linspace a b n) 0 == a /\ last (linspace a b n) 0 = b.
Proof.
  destruct n as [|[|n]]; [lia..|]. intros _. cbn [linspace]. split.
  - cbn [seq map app nth]. change (inject_Z (Z.of_nat 0)) with 0. ring.
  - apply last_last.
Qed.

Lemma linspace_within (a b : Q) (n : nat) :
  a <= b -> Forall (fun t => a <= t <= b) (linspace a b n).
Proof.
  intros Hab. destruct n as [|[|n]]; [constructor|repeat constructor|].
  - apply Qle_refl.
  - exact Hab.
  - cbn [linspace]. apply Forall_app. split.
    + apply Forall_forall. intros t Ht. apply in_map_iff in Ht.
      destruct Ht as (i & <- & Hi). apply in_seq in Hi.
      set (N := inject_Z (Z.of_nat (S n))).
      set (I := inject_Z (Z.of_nat i)).
      assert (HN : 0 < N) by (unfold N; change 0 with (inject_Z 0);
                               rewrite <- Zlt_Qlt; lia).
      assert (HI0 : 0 <= I) by (unfold I; change 0 with (inject_Z 0);
                                 rewrite <- Zle_Qle; lia).
      assert (HIN : I <= N) by (unfold I, N; rewrite <- Zle_Qle; lia).
      assert (Hd : 0 <= b - a) by (unfold Qminus; rewrite <- Qle_minus_iff; exact Hab).
      assert (Hs0 : 0 <= (b - a) / N).
      { apply Qle_shift_div_l; [exact HN|]. now rewrite Qmult_0_l. }
      split.
      * rewrite <- (Qplus_0_r a) at 1. apply Qplus_le_r.
        now apply Qmult_le_0_compat.
      * assert (Hm : I * ((b - a) / N) <= N * ((b - a) / N))
          by (now apply Qmult_le_compat_r).
        assert (He : N * ((b - a) / N) == b - a)
          by (field; intros H0; rewrite H0 in HN; now apply Qlt_irrefl in HN).
        rewrite He in Hm.
        apply Qle_trans with (a + (b - a)); [now apply Qplus_le_r|].
        assert (Hb : a + (b - a) == b) by ring. rewrite Hb. apply Qle_refl.
    + repeat constructor; [exact Hab | apply Qle_refl].
Qed.

(** X12: whenever [fitfunc] returns [(f, xn, yp)], the two arrays were of the
    same length, [xn] and [yp] hold exactly [sample] points, [yp] is [f] at
    [xn], every point of [xn] lies between [min(x)] and [max(x)], and for two
    points or more [xn] starts at [min(x)] and ends at [max(x)]. *)
Theorem fitfunc_samples rng (E : externals rng) x y deg sample c xn yp :
  fitfunc E x y deg sample = Ok (c, xn, yp) ->
  length x = length y
  /\ length xn = sample
  /\ yp = map (polyval c) xn
  /\ exists lo hi,
       Qminimum x = Some lo /\ Qmaximum x = Some hi
       /\ Forall (fun t => lo <= t <= hi) xn
       /\ ((2 <= sample)%nat -> nth 0 xn 0 == lo /\ last xn 0 = hi).
Proof.
  unfold fitfunc, polyfit.
  destruct (_ <? 0)%Z; [discriminate|].
  destruct (length x =? 0)%nat; [discriminate|].
  destruct (length x =? length y)%nat eqn:El; cbn [negb]; [|discriminate].
  apply Nat.eqb_eq in El.
  destruct (lstsq E x y _) as [c'|]; cbn [of_option bind]; [|discriminate].
  destruct (Qminimum x) as [lo|] eqn:Elo; cbn [of_option bind]; [|discriminate].
  destruct (Qmaximum x) as [hi|] eqn:Ehi; cbn [of_option bind]; [|discriminate].
  intros [= <- <- <-].
  split; [exact El|]. split; [apply length_linspace|]. split; [reflexivity|].
  exists lo, hi. repeat split; try reflexivity.
  - apply linspace_within. eapply min_le_max; eassumption.
  - now apply linspace_ends.
  - now apply linspace_ends.
Qed.

Lemma fitfunc_samples_witness :
  length sample_AB = length sample_rhoa
  /\ length (linspace 0 60 5) = 5%nat
  /\ map (polyval [1 # 4; 50]) (linspace 0 60 5) = map (polyval [1 # 4; 50]) (linspace 0 60 5)
  /\ exists lo hi,
       Qminimum sample_AB = Some lo /\ Qmaximum sample_AB = Some hi
       /\ Forall (fun t => lo <= t <= hi) (linspace 0 60 5)
       /\ ((2 <= 5)%nat -> nth 0 (linspace 0 60 5) 0 == lo /\ last (linspace 0 60 5) 0 = hi).
Proof.
  apply (@fitfunc_samples unit sample_externals sample_AB sample_rhoa None 5%nat
           [1 # 4; 50] (linspace 0 60 5) (map (polyval [1 # 4; 50]) (linspace 0 60 5))).
  reflexivity.
Defined.

End FitMore.

(** ** When [shape] fails, and what it says of a rising zone *)

Module ShapeMore.

Import IxArr QArr Shape.
Open Scope list_scope.
Open Scope Q_scope.

Lemma argmin_from_bound (l : list Q) (i besti : nat) (best : Q) :
  (besti < i)%nat -> (argmin_from i besti best l < i + length l)%nat.
Proof.
  revert i besti best. induction l as [|x l IH]; intros i besti best H; cbn [argmin_from length].
  - lia.
  - destruct (Qltb x best).
    + specialize (IH (S i) i x). lia.
    + specialize (IH (S i) besti best). lia.
Qed.

Lemma argmin_in_range (cz : list Q) (k : nat) :
  argmin cz = Some k -> (k < length cz)%nat.
Proof.
  destruct cz as [|x l]; [discriminate|]. cbn [argmin length]. intros [= <-].
  pose proof (@argmin_from_bound l 1 0 x). lia.
Qed.

Lemma py_getitem_first {A : Type} (l : list A) :
  l <> [] -> exists a, py_getitem l 0 = Some a.
Proof.
  destruct l as [|a l]; [congruence|]. intros _. now exists a.
Qed.

Lemma py_getitem_last {A : Type} (l : list A) :
  l <> [] -> exists a, py_getitem l (-1) = Some a.
Proof.
  intros Hl. destruct (exists_last Hl) as (pre & a & ->). exists a.
  unfold py_getitem. rewrite length_app. cbn [length].
  replace (-1 <? 0)%Z with true by reflexivity.
  destruct (-1 + Z.of_nat (length pre + 1) <? 0)%Z eqn:E; [apply Z.ltb_lt in E; lia|].
  replace (Z.to_nat (-1 + Z.of_nat (length pre + 1))) with (length pre) by lia.
  rewrite nth_error_app2 by lia. now rewrite Nat.sub_diag.
Qed.

Lemma nonempty_length {A : Type} (l : list A) : (0 < length l)%nat -> l <> [].
Proof.
  destruct l; cbn; [lia | discriminate].
Qed.

Lemma empty_length {A : Type} (l : list A) : length l = 0%nat -> l = [].
Proof.
  now destruct l.
Qed.

Lemma float_argmin_from_bound (l : list PrimFloat.float) (i besti : nat)
  (best : PrimFloat.float) :
  (besti < i)%nat -> (FArr.argmin_from i besti best l < i + length l)%nat.
Proof.
  revert i besti best.
  induction l as [|x l IH]; intros i besti best H; cbn [FArr.argmin_from length].
  - lia.
  - destruct (negb (PrimFloat.leb best x)).
    + destruct (PrimFloat.is_nan x); [lia|]. specialize (IH (S i) i x). lia.
    + specialize (IH (S i) besti best). lia.
Qed.

Lemma float_argmin_in_range (cz : list PrimFloat.float) (k : nat) :
  FArr.argmin cz = Some k -> (k < length cz)%nat.
Proof.
  destruct cz as [|x l]; [discriminate|]. cbn [FArr.argmin length]. intros [= <-].
  destruct (PrimFloat.is_nan x); [lia|].
  pose proof (@float_argmin_from_bound l 1 0 x). lia.
Qed.

(** The two sides of the station [s_index], when both hold a value. *)
Lemma shape_sides_ok (cz : list PrimFloat.float) (s_index : Z) :
  (Z.of_nat (length cz) <=? s_index)%Z = false ->
  slice_to cz (s_index + 1) <> [] -> slice_from cz s_index <> [] ->
  exists sh,
    (if (Z.of_nat (length cz) <=? s_index)%Z then Err StationError
     else
       do ls <- of_option IndexError (py_getitem (slice_to cz (s_index + 1)) 0);
       do rs <- of_option IndexError (py_getitem (slice_from cz s_index) (-1));
       Ok (decide ls rs (FArr.median cz)
                  (length (FArr.argrelextrema (slice_to cz (s_index + 1)) PrimFloat.ltb))
                  (length (FArr.argrelextrema (slice_from cz s_index) PrimFloat.ltb))
                  (length (FArr.argrelextrema (slice_to cz (s_index + 1))
                                              (fun a b => PrimFloat.ltb b a)))
                  (length (FArr.argrelextrema (slice_from cz s_index)
                                              (fun a b => PrimFloat.ltb b a)))))
    = Ok sh.
Proof.
  intros Hn Hl Hr. rewrite Hn.
  destruct (py_getitem_first Hl) as [ls ->].
  destruct (py_getitem_last Hr) as [rs ->].
  cbn [of_option bind]. eauto.
Qed.

(** X13: when [shape] fails. With the station left out it fails on an empty
    zone only; with [s=None] it always fails, on a local variable that was
    never assigned; with an integer station [i] on a zone of [n] values it
    raises StationError for [i >= n] and IndexError for [i = -1] and for
    [i < -n], and returns a shape for every other [i], the negative
    [-n <= i <= -2] included. *)
Theorem shape_failures (cz : list PrimFloat.float) :
  let n := Z.of_nat (length cz) in
  (cz = [] -> shape cz S_default = Err ValueError_zero_size)
  /\ (cz <> [] -> exists sh, shape cz S_default = Ok sh)
  /\ shape cz S_None = Err UnboundLocalError
  /\ (forall i, (n <= i)%Z -> shape cz (S_index i) = Err StationError)
  /\ (forall i, (i = -1 \/ i < - n)%Z -> shape cz (S_index i) = Err IndexError)
  /\ (forall i, (0 <= i < n \/ - n <= i <= -2)%Z -> exists sh, shape cz (S_index i) = Ok sh).
Proof.
  intros n. repeat split.
  - intros ->. reflexivity.
  - intros Hne. unfold shape.
    destruct (FArr.argmin cz) as [k|] eqn:Ek; [|destruct cz; [congruence | discriminate]].
    apply float_argmin_in_range in Ek. cbn [option_map of_option bind].
    apply shape_sides_ok.
    + apply Z.leb_gt. lia.
    + apply nonempty_length. unfold slice_to, slice_bound.
      replace (Z.of_nat k + 1 <? 0)%Z with false by (symmetry; apply Z.ltb_ge; lia).
      rewrite length_firstn. lia.
    + apply nonempty_length. unfold slice_from, slice_bound.
      replace (Z.of_nat k <? 0)%Z with false by (symmetry; apply Z.ltb_ge; lia).
      rewrite length_skipn. lia.
  - intros i Hi. unfold shape. cbn [bind].
    fold n. now replace (n <=? i)%Z with true by (symmetry; apply Z.leb_le; lia).
  - intros i Hi. unfold shape. cbn [bind]. fold n.
    replace (n <=? i)%Z with false by (symmetry; apply Z.leb_gt; lia).
    assert (Hl : slice_to cz (i + 1) = []).
    { apply empty_length. unfold slice_to, slice_bound. rewrite length_firstn.
      destruct (i + 1 <? 0)%Z eqn:E; [apply Z.ltb_lt in E | apply Z.ltb_ge in E]; lia. }
    rewrite Hl. reflexivity.
  - intros i Hi. unfold shape. cbn [bind]. apply shape_sides_ok.
    + apply Z.leb_gt. lia.
    + apply nonempty_length. unfold slice_to, slice_bound. rewrite length_firstn.
      destruct (i + 1 <? 0)%Z eqn:E; [apply Z.ltb_lt in E | apply Z.ltb_ge in E]; lia.
    + apply nonempty_length. unfold slice_from, slice_bound. rewrite length_skipn.
      destruct (i <? 0)%Z eqn:E; [apply Z.ltb_lt in E | apply Z.ltb_ge in E]; lia.
Qed.

End ShapeMore.

(** ** The bounds, the spread and the sides of a conductive zone *)

Module ZoneFacts.

Import IxArr QArr Unique Zone PipelineFacts.
Open Scope list_scope.
Open Scope Q_scope.

(** *** [np.where] *)

Lemma where_from_In (mask : list bool) (a i : nat) :
  In i (where_from a mask)
  <-> (a <= i < a + length mask)%nat /\ nth (i - a) mask false = true.
Proof.
  revert a i. induction mask as [|b mask IH]; intros a i; cbn [where_from length].
  - split; [intros [] | intros [H _]; lia].
  - assert (Hs : forall j, In j (where_from (S a) mask)
                           <-> (S a <= j < S a + length mask)%nat
                               /\ nth (j - a) (b :: mask) false = true).
    { intros j. rewrite IH. split; intros [Hr Hn]; (split; [exact Hr|]).
      - replace (j - a)%nat with (S (j - S a)) by lia. exact Hn.
      - replace (j - a)%nat with (S (j - S a)) in Hn by lia. exact Hn. }
    destruct b; cbn [In]; rewrite Hs; split.
    + intros [<-|[Hr Hn]]; [split; [lia | now rewrite Nat.sub_diag] | split; [lia | exact Hn]].
    + intros [Hr Hn]. destruct (Nat.eq_dec a i) as [->|Hne]; [now left | right].
      split; [lia | exact Hn].
    + intros [Hr Hn]. split; [lia | exact Hn].
    + intros [Hr Hn]. destruct (Nat.eq_dec a i) as [->|Hne].
      * rewrite Nat.sub_diag in Hn. discriminate.
      * split; [lia | exact Hn].
Qed.

Lemma where_from_sorted (mask : list bool) (a : nat) :
  StronglySorted lt (where_from a mask).
Proof.
  revert a. induction mask as [|b mask IH]; intros a; cbn [where_from]; [constructor|].
  destruct b; [|apply IH]. constructor; [apply IH|].
  apply Forall_forall. intros j Hj. apply where_from_In in Hj. lia.
Qed.

Lemma sorted_first_last (l : list nat) (lb ub : nat) :
  StronglySorted lt l ->
  py_getitem l 0 = Some lb -> py_getitem l (-1) = Some ub ->
  In lb l /\ In ub l /\ forall i, In i l -> (lb <= i <= ub)%nat.
Proof.
  intros Hs Hlb Hub.
  assert (Hne : l <> []) by (intros ->; discriminate).
  destruct l as [|x l]; [congruence|].
  cbn in Hlb. injection Hlb as ->.
  destruct (@exists_last _ (lb :: l) Hne) as (pre & z & Hz).
  assert (Hub' : py_getitem (pre ++ [z]) (-1) = Some z).
  { unfold py_getitem. rewrite length_app. cbn [length].
    replace (-1 <? 0)%Z with true by reflexivity.
    destruct (-1 + Z.of_nat (length pre + 1) <? 0)%Z eqn:E; [apply Z.ltb_lt in E; lia|].
    replace (Z.to_nat (-1 + Z.of_nat (length pre + 1))) with (length pre) by lia.
    rewrite nth_error_app2 by lia. now rewrite Nat.sub_diag. }
  rewrite Hz in Hub. rewrite Hub' in Hub. injection Hub as ->.
  split; [now left|]. split; [rewrite Hz; apply in_or_app; right; now left|].
  intros i Hi. split.
  - inversion Hs as [|? ? _ Hx]; subst. destruct Hi as [<-|Hi]; [lia|].
    rewrite Forall_forall in Hx. specialize (Hx i Hi). lia.
  - rewrite Hz in Hs, Hi. clear Hz Hub' Hne.
    induction pre as [|y pre IH]; cbn [app] in *.
    + destruct Hi as [<-|[]]. lia.
    + inversion Hs as [|? ? Hs' Hy]; subst. destruct Hi as [<-|Hi].
      * rewrite Forall_forall in Hy. specialize (Hy ub). 
        assert (In ub (pre ++ [ub])) by (apply in_or_app; right; now left).
        specialize (Hy H). lia.
      * now apply IH.
Qed.

Lemma isin_nth (erp cz : list Q) (i : nat) :
  (i < length erp)%nat ->
  nth i (isin erp cz) false = existsb (Qeqb (nth i erp 0)) cz.
Proof.
  intros Hi. unfold isin.
  rewrite (nth_indep _ false (existsb (Qeqb 0) cz)) by (now rewrite length_map).
  apply (map_nth (fun x => existsb (Qeqb x) cz)).
Qed.

Lemma np_where_isin (erp cz : list Q) (i : nat) :
  In i (np_where (isin erp cz)) <-> in_zone erp cz i.
Proof.
  unfold np_where, in_zone. rewrite where_from_In, Nat.sub_0_r.
  unfold isin at 1. rewrite length_map. split; intros [Hr Hn].
  - split; [lia|]. rewrite <- isin_nth by lia. exact Hn.
  - split; [lia|]. rewrite isin_nth by lia. exact Hn.
Qed.

Lemma find_cz_returns (erp cz : list Q) (i : nat) :
  in_zone erp cz i -> exists lb ub, _find_cz_bound_indexes erp cz = Return (lb, ub).
Proof.
  intros Hi. unfold _find_cz_bound_indexes.
  assert (Hin : In i (np_where (isin erp cz))) by now apply np_where_isin.
  assert (He : existsb (fun b : bool => b) (isin erp cz) = true).
  { apply existsb_exists. exists true. split; [|reflexivity].
    destruct Hi as [Hl Hv]. rewrite <- isin_nth in Hv by assumption.
    rewrite <- Hv. apply nth_In. unfold isin. now rewrite length_map. }
  rewrite He. cbn [negb].
  assert (Hne : np_where (isin erp cz) <> []) by (intros H0; rewrite H0 in Hin; destruct Hin).
  destruct (ShapeMore.py_getitem_first Hne) as [lb ->].
  destruct (ShapeMore.py_getitem_last Hne) as [ub ->].
  cbn. eauto.
Qed.

Lemma cz_bounds_enclose_the_zone_aux (erp cz : list Q) (lb ub : nat) :
  _find_cz_bound_indexes erp cz = Return (lb, ub) ->
  in_zone erp cz lb /\ in_zone erp cz ub
  /\ forall i, in_zone erp cz i -> (lb <= i <= ub)%nat.
Proof.
  unfold _find_cz_bound_indexes.
  destruct (negb _); [discriminate|].
  destruct (py_getitem (np_where (isin erp cz)) 0) as [lb'|] eqn:Hlb; [|discriminate].
  destruct (py_getitem (np_where (isin erp cz)) (-1)) as [ub'|] eqn:Hub; [|discriminate].
  cbn. intros [= <- <-].
  destruct (sorted_first_last (where_from_sorted (isin erp cz) 0) Hlb Hub)
    as (H1 & H2 & H3).
  split; [now apply np_where_isin|]. split; [now apply np_where_isin|].
  intros i Hi. apply H3. now apply np_where_isin.
Qed.

(** X15: when [_find_cz_bound_indexes] returns [(lb, ub)], both are indices
    of [erp] whose values are in [cz], and every index of [erp] whose value is
    in [cz] lies between them. *)
Theorem cz_bounds_enclose_the_zone (erp cz : list Q) (lb ub : nat) :
  _find_cz_bound_indexes erp cz = Return (lb, ub) ->
  in_zone erp cz lb /\ in_zone erp cz ub
  /\ forall i, in_zone erp cz i -> (lb <= i <= ub)%nat.
Proof. apply cz_bounds_enclose_the_zone_aux. Qed.

Lemma cz_bounds_enclose_the_zone_witness :
  in_zone [50; 55; 40; 20; 25; 60; 65] [40; 20; 25] 2
  /\ in_zone [50; 55; 40; 20; 25; 60; 65] [40; 20; 25] 4
  /\ forall i, in_zone [50; 55; 40; 20; 25; 60; 65] [40; 20; 25] i -> (2 <= i <= 4)%nat.
Proof.
  apply (@cz_bounds_enclose_the_zone [50; 55; 40; 20; 25; 60; 65] [40; 20; 25] 2 4).
  reflexivity.
Defined.

Lemma existsb_Qeqb_false (x : Q) (l : list Q) :
  Forall (fun y => ~ x == y) l -> existsb (Qeqb x) l = false.
Proof.
  induction 1 as [|y l Hy _ IH]; [reflexivity|].
  cbn [existsb]. rewrite IH, orb_false_r. unfold Qeqb.
  destruct (Qeq_bool x y) eqn:E; [|reflexivity]. apply Qeq_bool_iff in E. contradiction.
Qed.

Lemma existsb_Qeqb_self (x : Q) (l : list Q) : In x l -> existsb (Qeqb x) l = true.
Proof.
  intros H. apply existsb_exists. exists x. split; [exact H|].
  unfold Qeqb. apply Qeq_bool_iff. reflexivity.
Qed.

(** X16: slicing and looking the slice up are inverse: for a zone
    [cz = erp[a:b]] that is not empty and whose values occur nowhere else in
    [erp], [_find_cz_bound_indexes] returns [(a, b-1)]. *)
Theorem cz_bounds_of_a_slice (pre cz post : list Q) :
  cz <> [] ->
  Forall (fun x => Forall (fun y => ~ x == y) cz) pre ->
  Forall (fun x => Forall (fun y => ~ x == y) cz) post ->
  _find_cz_bound_indexes (pre ++ cz ++ post) cz
  = Return (length pre, (length pre + length cz - 1)%nat).
Proof.
  intros Hne Hpre Hpost. set (erp := pre ++ cz ++ post).
  assert (Hcz : (0 < length cz)%nat) by (destruct cz; [congruence | cbn; lia]).
  assert (Hin : forall i, in_zone erp cz i
                          <-> (length pre <= i < length pre + length cz)%nat).
  { intros i. unfold in_zone, erp. rewrite !length_app. split.
    - intros [Hl Hv].
      destruct (Nat.lt_ge_cases i (length pre)) as [Hi|Hi].
      + rewrite app_nth1 in Hv by assumption.
        rewrite existsb_Qeqb_false in Hv; [discriminate|].
        rewrite Forall_forall in Hpre. apply Hpre, nth_In, Hi.
      + destruct (Nat.lt_ge_cases i (length pre + length cz)) as [Hj|Hj]; [lia|].
        rewrite app_nth2, app_nth2 in Hv by lia.
        rewrite existsb_Qeqb_false in Hv; [discriminate|].
        rewrite Forall_forall in Hpost. apply Hpost, nth_In. lia.
    - intros Hi. split; [lia|].
      rewrite app_nth2, app_nth1 by lia.
      apply existsb_Qeqb_self, nth_In. lia. }
  assert (Ha : in_zone erp cz (length pre)) by (apply Hin; lia).
  destruct (find_cz_returns Ha) as (lb & ub & Hr).
  rewrite Hr. destruct (cz_bounds_enclose_the_zone_aux _ _ Hr) as (H1 & H2 & H3).
  apply Hin in H1, H2.
  assert (Hb : in_zone erp cz (length pre + length cz - 1)) by (apply Hin; lia).
  apply H3 in Ha, Hb. do 2 f_equal; lia.
Qed.

Lemma cz_bounds_of_a_slice_witness :
  _find_cz_bound_indexes ([50; 55] ++ [40; 20; 25] ++ [60; 65]) [40; 20; 25]
  = Return (length [50; 55], (length [50; 55] + length [40; 20; 25] - 1)%nat).
Proof.
  apply (@cz_bounds_of_a_slice [50; 55] [40; 20; 25] [60; 65]).
  - discriminate.
  - repeat (constructor; [repeat (constructor; [discriminate|]); constructor|]); constructor.
  - repeat (constructor; [repeat (constructor; [discriminate|]); constructor|]); constructor.
Defined.

(** *** The spread of a zone *)

Lemma fold_min_in (l : list Q) (x : Q) :
  let r := fold_left (fun m y => if Qltb y m then y else m) l x in
  r = x \/ In r l.
Proof.
  revert x. induction l as [|y l IH]; intros x; cbn [fold_left]; [now left|].
  specialize (IH (if Qltb y x then y else x)). cbv zeta in IH.
  destruct IH as [H|H]; [|right; now right].
  rewrite H. destruct (Qltb y x); [right; now left | now left].
Qed.

Lemma Qminimum_spec (l : list Q) (m : Q) :
  Qminimum l = Some m -> In m l /\ Forall (fun y => m <= y) l.
Proof.
  destruct l as [|x l]; [discriminate|]. cbn [Qminimum]. intros [= <-].
  destruct (FitMore.fold_min_spec l x) as [H1 H2]. split.
  - destruct (fold_min_in l x) as [H|H]; [left; symmetry; exact H | right; exact H].
  - constructor; assumption.
Qed.

Lemma Qabs_diff_le (lo hi a b : Q) :
  lo <= a -> a <= hi -> lo <= b -> b <= hi -> Qabs (a - b) <= hi - lo.
Proof.
  intros H1 H2 H3 H4. apply Qabs_Qle_condition. split.
  - setoid_replace (- (hi - lo)) with (lo + - hi) by ring.
    apply Qplus_le_compat; [exact H1 | now apply Qopp_le_compat].
  - apply Qplus_le_compat; [exact H2 | now apply Qopp_le_compat].
Qed.

Lemma fold_max_ge (l : list Z) (x : Z) :
  (x <= fold_left Z.max l x)%Z
  /\ Forall (fun y => (y <= fold_left Z.max l x)%Z) l
  /\ (fold_left Z.max l x = x \/ In (fold_left Z.max l x) l).
Proof.
  revert x. induction l as [|y l IH]; intros x; cbn [fold_left].
  - split; [lia|]. split; [constructor | now left].
  - destruct (IH (Z.max x y)) as (H1 & H2 & H3). split; [lia|].
    split; [constructor; [lia | exact H2]|].
    destruct H3 as [H3|H3]; [|right; now right].
    rewrite H3. destruct (Z.max_spec x y) as [[_ ->]|[_ ->]]; [right; now left | now left].
Qed.

Lemma fold_min_le (l : list Z) (x : Z) :
  (fold_left Z.min l x <= x)%Z
  /\ Forall (fun y => (fold_left Z.min l x <= y)%Z) l
  /\ (fold_left Z.min l x = x \/ In (fold_left Z.min l x) l).
Proof.
  revert x. induction l as [|y l IH]; intros x; cbn [fold_left].
  - split; [lia|]. split; [constructor | now left].
  - destruct (IH (Z.min x y)) as (H1 & H2 & H3). split; [lia|].
    split; [constructor; [lia | exact H2]|].
    destruct H3 as [H3|H3]; [|right; now right].
    rewrite H3. destruct (Z.min_spec x y) as [[_ ->]|[_ ->]]; [now left | right; now left].
Qed.

Lemma np_max_spec (p : list Z) (m : Z) :
  np_max p = Some m -> In m p /\ forall y, In y p -> (y <= m)%Z.
Proof.
  destruct p as [|x l]; [discriminate|]. cbn [np_max]. intros [= <-].
  destruct (fold_max_ge l x) as (H1 & H2 & H3). rewrite Forall_forall in H2. split.
  - destruct H3 as [->|H3]; [now left | now right].
  - intros y [<-|Hy]; [exact H1 | now apply H2].
Qed.

Lemma np_min_spec (p : list Z) (m : Z) :
  np_min p = Some m -> In m p /\ forall y, In y p -> (m <= y)%Z.
Proof.
  destruct p as [|x l]; [discriminate|]. cbn [np_min]. intros [= <-].
  destruct (fold_min_le l x) as (H1 & H2 & H3). rewrite Forall_forall in H2. split.
  - destruct H3 as [->|H3]; [now left | now right].
  - intros y [<-|Hy]; [exact H1 | now apply H2].
Qed.

Lemma pow2_double (bits : Z) : (0 < bits)%Z -> (2 ^ bits = 2 * 2 ^ (bits - 1))%Z.
Proof.
  intros Hb. replace bits with (Z.succ (bits - 1)) at 1 by lia.
  apply Z.pow_succ_r. lia.
Qed.

Lemma wrap_within (bits z : Z) :
  (0 < bits)%Z -> (- 2 ^ (bits - 1) <= z < 2 ^ (bits - 1))%Z ->
  wrap (signed bits) z = z.
Proof.
  intros Hb Hz. unfold wrap. rewrite (pow2_double Hb).
  rewrite Z.mod_small; lia.
Qed.

Lemma wrap_above (bits z : Z) :
  (0 < bits)%Z -> (2 ^ (bits - 1) <= z < 3 * 2 ^ (bits - 1))%Z ->
  wrap (signed bits) z = (z - 2 ^ bits)%Z.
Proof.
  intros Hb Hz. unfold wrap. rewrite (pow2_double Hb).
  rewrite <- (Z.mod_unique (z + 2 ^ (bits - 1)) (2 * 2 ^ (bits - 1)) 1
                           (z - 2 ^ (bits - 1))); lia.
Qed.

Lemma wrap_below (bits z : Z) :
  (0 < bits)%Z -> (- 3 * 2 ^ (bits - 1) <= z < - 2 ^ (bits - 1))%Z ->
  wrap (signed bits) z = (z + 2 ^ bits)%Z.
Proof.
  intros Hb Hz. unfold wrap. rewrite (pow2_double Hb).
  rewrite <- (Z.mod_unique (z + 2 ^ (bits - 1)) (2 * 2 ^ (bits - 1)) (-1)
                           (z + 3 * 2 ^ (bits - 1))); lia.
Qed.

(** The spread [hi - lo] of an array, as its dtype keeps it, from
    [max - min] and from [min - max]. *)
Lemma wrapped_spread (dt : int_dtype) (lo hi : Z) :
  (0 < match dt with signed bits | unsigned bits => bits end)%Z ->
  fits dt lo -> fits dt hi -> (lo <= hi)%Z ->
  wrap dt (Z.abs (wrap dt (hi - lo)))
  = match dt with
    | signed bits =>
        if (hi - lo <? 2 ^ (bits - 1))%Z then (hi - lo)%Z
        else if (hi - lo =? 2 ^ (bits - 1))%Z then (- 2 ^ (bits - 1))%Z
             else (2 ^ bits - (hi - lo))%Z
    | unsigned bits => (hi - lo)%Z
    end
  /\ wrap dt (Z.abs (wrap dt (lo - hi)))
     = match dt with
       | signed bits =>
           if (hi - lo <? 2 ^ (bits - 1))%Z then (hi - lo)%Z
           else if (hi - lo =? 2 ^ (bits - 1))%Z then (- 2 ^ (bits - 1))%Z
                else (2 ^ bits - (hi - lo))%Z
       | unsigned bits => if (hi =? lo)%Z then 0%Z else (2 ^ bits - (hi - lo))%Z
       end.
Proof.
  destruct dt as [bits|bits]; intros Hb Hlo Hhi Hle; unfold fits in *.
  - assert (Hh : (0 < 2 ^ (bits - 1))%Z) by (apply Z.pow_pos_nonneg; lia).
    pose proof (pow2_double Hb) as H2.
    destruct (hi - lo <? 2 ^ (bits - 1))%Z eqn:E1;
      [apply Z.ltb_lt in E1|apply Z.ltb_ge in E1].
    + split.
      * rewrite (@wrap_within bits (hi - lo)) by lia.
        rewrite Z.abs_eq by lia. apply wrap_within; lia.
      * rewrite (@wrap_within bits (lo - hi)) by lia.
        rewrite Z.abs_neq by lia. rewrite wrap_within; lia.
    + destruct (hi - lo =? 2 ^ (bits - 1))%Z eqn:E2;
        [apply Z.eqb_eq in E2|apply Z.eqb_neq in E2]; split.
      * rewrite (@wrap_above bits (hi - lo)) by lia.
        rewrite Z.abs_neq by lia. rewrite wrap_above; lia.
      * rewrite (@wrap_within bits (lo - hi)) by lia.
        rewrite Z.abs_neq by lia. rewrite wrap_above; lia.
      * rewrite (@wrap_above bits (hi - lo)) by lia.
        rewrite Z.abs_neq by lia. rewrite wrap_within; lia.
      * rewrite (@wrap_below bits (lo - hi)) by lia.
        rewrite Z.abs_eq by lia. rewrite wrap_within; lia.
  - cbn [wrap]. split.
    + rewrite (Z.mod_small (hi - lo)) by lia.
      rewrite Z.abs_eq by lia. apply Z.mod_small. lia.
    + destruct (hi =? lo)%Z eqn:E; [apply Z.eqb_eq in E|apply Z.eqb_neq in E].
      * subst hi. rewrite Z.sub_diag. reflexivity.
      * rewrite <- (Z.mod_unique (lo - hi) (2 ^ bits) (-1) (2 ^ bits - (hi - lo))) by lia.
        rewrite Z.abs_eq by lia. apply Z.mod_small. lia.
Qed.

(** X17: for a zone of floats that is not empty, [magnitude] returns the
    spread of its values: a non-negative number that bounds the distance
    between any two values of the zone and is the distance between two of
    them; [power] returns the same number on the same array. On an array of
    an integer dtype of [bits] bits that is not empty, of minimum [lo] and
    maximum [hi], both return the spread [hi - lo] as the dtype keeps it. For
    a signed dtype both return [hi - lo] where it is below [2 ** (bits - 1)],
    [- 2 ** (bits - 1)] where it is equal to it, and [2 ** bits - (hi - lo)]
    above. For an unsigned dtype [magnitude] returns [hi - lo], and [power]
    returns [0] where [hi = lo] and [2 ** bits - (hi - lo)] elsewhere. *)
Theorem magnitude_is_the_spread (cz : list Q) (dt : int_dtype) (p : list Z) :
  cz <> [] -> p <> [] ->
  (0 < match dt with signed bits | unsigned bits => bits end)%Z ->
  Forall (fits dt) p ->
  (exists m,
      magnitude (float_array cz) = Return (float_scalar m)
      /\ 0 <= m
      /\ (forall a b, In a cz -> In b cz -> Qabs (a - b) <= m)
      /\ (exists a b, In a cz /\ In b cz /\ m = Qabs (a - b))
      /\ exists m', power (float_array cz) = Return (float_scalar m') /\ m' == m)
  /\ exists lo hi,
      np_min p = Some lo /\ np_max p = Some hi
      /\ magnitude (int_array dt p)
         = Return (int_scalar dt
             match dt with
             | signed bits =>
                 if (hi - lo <? 2 ^ (bits - 1))%Z then (hi - lo)%Z
                 else if (hi - lo =? 2 ^ (bits - 1))%Z then (- 2 ^ (bits - 1))%Z
                      else (2 ^ bits - (hi - lo))%Z
             | unsigned bits => (hi - lo)%Z
             end)
      /\ power (int_array dt p)
         = Return (int_scalar dt
             match dt with
             | signed bits =>
                 if (hi - lo <? 2 ^ (bits - 1))%Z then (hi - lo)%Z
                 else if (hi - lo =? 2 ^ (bits - 1))%Z then (- 2 ^ (bits - 1))%Z
                      else (2 ^ bits - (hi - lo))%Z
             | unsigned bits =>
                 if (hi =? lo)%Z then 0%Z else (2 ^ bits - (hi - lo))%Z
             end).
Proof.
  intros Hne Hp Hb Hfit. split.
  - unfold magnitude, power.
    destruct (Qmaximum cz) as [hi|] eqn:Hhi; [|destruct cz; [congruence | discriminate]].
    destruct (Qminimum cz) as [lo|] eqn:Hlo; [|destruct cz; [congruence | discriminate]].
    cbn [or_raise pybind]. exists (Qabs (hi - lo)).
    destruct (Qmaximum_spec _ Hhi) as [Ihi Uhi].
    destruct (Qminimum_spec _ Hlo) as [Ilo Ulo].
    rewrite Forall_forall in Uhi, Ulo.
    assert (Hle : lo <= hi) by (apply Ulo, Ihi).
    assert (Hpos : Qabs (hi - lo) == hi - lo).
    { apply Qabs_pos. apply -> Qle_minus_iff. exact Hle. }
    split; [reflexivity|]. split; [apply Qabs_nonneg|]. split; [|split].
    + intros a b Ha Hb'. rewrite Hpos. apply Qabs_diff_le; auto.
    + exists hi, lo. repeat split; assumption.
    + exists (Qabs (lo - hi)). split; [reflexivity|].
      rewrite (Qabs_Qminus lo hi). reflexivity.
  - destruct (np_min p) as [lo|] eqn:Hlo; [|destruct p; [congruence | discriminate]].
    destruct (np_max p) as [hi|] eqn:Hhi; [|destruct p; [congruence | discriminate]].
    exists lo, hi. split; [reflexivity|]. split; [reflexivity|].
    destruct (np_min_spec _ Hlo) as [Ilo Ulo].
    destruct (np_max_spec _ Hhi) as [Ihi Uhi].
    rewrite Forall_forall in Hfit.
    destruct (@wrapped_spread dt lo hi Hb (Hfit _ Ilo) (Hfit _ Ihi) (Ulo _ Ihi))
      as [Hm Hw].
    unfold magnitude, power. rewrite Hlo, Hhi. cbn [or_raise pybind].
    rewrite Hm, Hw. split; reflexivity.
Qed.

Lemma magnitude_is_the_spread_witness :
  (exists m,
      magnitude (float_array [40; 20; 25]) = Return (float_scalar m)
      /\ 0 <= m
      /\ (forall a b, In a [40; 20; 25] -> In b [40; 20; 25] -> Qabs (a - b) <= m)
      /\ (exists a b, In a [40; 20; 25] /\ In b [40; 20; 25] /\ m = Qabs (a - b))
      /\ exists m', power (float_array [40; 20; 25]) = Return (float_scalar m') /\ m' == m)
  /\ exists lo hi,
      np_min [-100; 0; 100]%Z = Some lo /\ np_max [-100; 0; 100]%Z = Some hi
      /\ magnitude (int_array (signed 8) [-100; 0; 100]%Z)
         = Return (int_scalar (signed 8)
                     (if (hi - lo <? 2 ^ (8 - 1))%Z then (hi - lo)%Z
                      else if (hi - lo =? 2 ^ (8 - 1))%Z then (- 2 ^ (8 - 1))%Z
                           else (2 ^ 8 - (hi - lo))%Z))
      /\ power (int_array (signed 8) [-100; 0; 100]%Z)
         = Return (int_scalar (signed 8)
                     (if (hi - lo <? 2 ^ (8 - 1))%Z then (hi - lo)%Z
                      else if (hi - lo =? 2 ^ (8 - 1))%Z then (- 2 ^ (8 - 1))%Z
                           else (2 ^ 8 - (hi - lo))%Z)).
Proof.
  apply (@magnitude_is_the_spread [40; 20; 25] (signed 8) [-100; 0; 100]%Z).
  - discriminate.
  - discriminate.
  - lia.
  - unfold fits. repeat constructor; cbn; lia.
Defined.

(** *** The two sides of a zone *)

Lemma Qmaximum_none (l : list Q) : Qmaximum l = None <-> length l = 0%nat.
Proof.
  destruct l; cbn; split; intros H; try reflexivity; discriminate.
Qed.

Lemma length_slice_to (l : list Q) (i : Z) :
  length (slice_to l i) = slice_bound (length l) i.
Proof.
  unfold slice_to. rewrite length_firstn. unfold slice_bound.
  destruct (i <? 0)%Z eqn:E; [apply Z.ltb_lt in E|]; lia.
Qed.

Lemma length_slice_from (l : list Q) (i : Z) :
  length (slice_from l i) = (length l - slice_bound (length l) i)%nat.
Proof. unfold slice_from. apply length_skipn. Qed.

Lemma sves_inv (cz : list Q) (s : Z) :
  match Qmaximum (slice_to cz (s + 1)), Qmaximum (slice_from cz s) with
  | Some ml, Some mr =>
      __sves__ s cz
      = Return ((if Qltb ml mr then ml else mr, Some leftside), (ml, mr))
  | _, _ => __sves__ s cz = Raise (Exn ValueError_empty_sequence)
  end.
Proof.
  unfold __sves__.
  destruct (Qmaximum (slice_to cz (s + 1))) as [ml|]; [|reflexivity].
  destruct (Qmaximum (slice_from cz s)) as [mr|]; reflexivity.
Qed.

(** X18: for a station index [0 <= s_index < len(cz)], [__sves__] returns;
    the side it names is ['leftside'] whatever the zone is; [rmax_ls] and
    [rmax_rs] are the maxima of [cz[:s_index+1]] and [cz[s_index:]]; and
    [rho_ls] is one of the two, not above either and not below the value at
    the station. *)
Theorem sves_names_the_left_side (cz : list Q) (s : Z) :
  (0 <= s < Z.of_nat (length cz))%Z ->
  exists rho ml mr,
    __sves__ s cz = Return ((rho, Some leftside), (ml, mr))
    /\ Qmaximum (firstn (Z.to_nat s + 1) cz) = Some ml
    /\ Qmaximum (skipn (Z.to_nat s) cz) = Some mr
    /\ (rho = ml \/ rho = mr) /\ rho <= ml /\ rho <= mr
    /\ nth (Z.to_nat s) cz 0 <= rho.
Proof.
  intros Hs. pose proof (sves_inv cz s) as Hinv.
  assert (Hto : slice_to cz (s + 1) = firstn (Z.to_nat s + 1) cz).
  { unfold slice_to, slice_bound.
    destruct (s + 1 <? 0)%Z eqn:E; [apply Z.ltb_lt in E; lia|].
    f_equal. lia. }
  assert (Hfrom : slice_from cz s = skipn (Z.to_nat s) cz).
  { unfold slice_from, slice_bound.
    destruct (s <? 0)%Z eqn:E; [apply Z.ltb_lt in E; lia|].
    f_equal. lia. }
  rewrite Hto, Hfrom in Hinv.
  set (k := Z.to_nat s) in *. assert (Hk : (k < length cz)%nat) by lia.
  assert (Hl : In (nth k cz 0) (firstn (k + 1) cz)).
  { rewrite <- (firstn_skipn (k + 1) cz) at 1.
    rewrite app_nth1 by (rewrite length_firstn; lia).
    apply nth_In. rewrite length_firstn. lia. }
  assert (Hr : In (nth k cz 0) (skipn k cz)).
  { rewrite <- (firstn_skipn k cz) at 1.
    rewrite app_nth2 by (rewrite length_firstn; lia).
    apply nth_In. rewrite length_firstn, length_skipn. lia. }
  destruct (Qmaximum (firstn (k + 1) cz)) as [ml|] eqn:Hml;
    [|apply Qmaximum_none in Hml; rewrite length_firstn in Hml; lia].
  destruct (Qmaximum (skipn k cz)) as [mr|] eqn:Hmr;
    [|apply Qmaximum_none in Hmr; rewrite length_skipn in Hmr; lia].
  destruct (Qmaximum_spec _ Hml) as [_ Ul]. destruct (Qmaximum_spec _ Hmr) as [_ Ur].
  rewrite Forall_forall in Ul, Ur. specialize (Ul _ Hl). specialize (Ur _ Hr).
  exists (if Qltb ml mr then ml else mr), ml, mr.
  split; [exact Hinv|]. split; [reflexivity|]. split; [reflexivity|].
  unfold Qltb. destruct (Qle_bool mr ml) eqn:E; cbn [negb].
  - apply Qle_bool_iff in E. repeat split; auto using Qle_refl.
  - apply UniqueFacts.Qleb_false in E.
    repeat split; auto using Qle_refl, Qlt_le_weak.
Qed.

Lemma sves_names_the_left_side_witness :
  exists rho ml mr,
    __sves__ 1 [40; 20; 25; 10] = Return ((rho, Some leftside), (ml, mr))
    /\ Qmaximum (firstn (Z.to_nat 1 + 1) [40; 20; 25; 10]) = Some ml
    /\ Qmaximum (skipn (Z.to_nat 1) [40; 20; 25; 10]) = Some mr
    /\ (rho = ml \/ rho = mr) /\ rho <= ml /\ rho <= mr
    /\ nth (Z.to_nat 1) [40; 20; 25; 10] 0 <= rho.
Proof.
  apply (@sves_names_the_left_side [40; 20; 25; 10] 1). cbn. lia.
Defined.

(** X19: [__sves__] raises the [ValueError] of [max()] on an empty sequence
    exactly when the station index is [-1], or is below [-len(cz)], or is
    [len(cz)] or more; for every other index it returns. *)
Theorem sves_rejected_indices (cz : list Q) (s : Z) :
  __sves__ s cz = Raise (Exn ValueError_empty_sequence)
  <-> (s = -1 \/ s < - Z.of_nat (length cz) \/ Z.of_nat (length cz) <= s)%Z.
Proof.
  pose proof (sves_inv cz s) as Hinv.
  pose proof (length_slice_to cz (s + 1)) as Hl.
  pose proof (length_slice_from cz s) as Hr.
  unfold slice_bound in Hl, Hr.
  destruct (Qmaximum (slice_to cz (s + 1))) as [ml|] eqn:Hml.
  - assert (Hl0 : length (slice_to cz (s + 1)) <> 0%nat).
    { intros H0. apply Qmaximum_none in H0. congruence. }
    destruct (Qmaximum (slice_from cz s)) as [mr|] eqn:Hmr.
    + assert (Hr0 : length (slice_from cz s) <> 0%nat).
      { intros H0. apply Qmaximum_none in H0. congruence. }
      rewrite Hinv. split; [discriminate|]. intros Hc. exfalso.
      destruct (s + 1 <? 0)%Z eqn:E1; destruct (s <? 0)%Z eqn:E2;
        try apply Z.ltb_lt in E1; try apply Z.ltb_ge in E1;
        try apply Z.ltb_lt in E2; try apply Z.ltb_ge in E2; lia.
    + split; [intros _ | intros _; exact Hinv].
      apply Qmaximum_none in Hmr.
      destruct (s + 1 <? 0)%Z eqn:E1; destruct (s <? 0)%Z eqn:E2;
        try apply Z.ltb_lt in E1; try apply Z.ltb_ge in E1;
        try apply Z.ltb_lt in E2; try apply Z.ltb_ge in E2; lia.
  - split; [intros _ | intros _; exact Hinv].
    apply Qmaximum_none in Hml.
    destruct (s + 1 <? 0)%Z eqn:E1;
      try apply Z.ltb_lt in E1; try apply Z.ltb_ge in E1; lia.
Qed.

End ZoneFacts.

(** ** The type of an anomaly *)

Module TypeFacts.

Import IxArr QArr Unique AnomalyType PipelineFacts.
Open Scope list_scope.
Open Scope Q_scope.

(** *** The width of a window *)

Lemma py_getitem_In {A : Type} (l : list A) (i : Z) (a : A) :
  py_getitem l i = Some a -> In a l.
Proof.
  unfold py_getitem.
  destruct (i <? 0)%Z; [destruct (_ <? 0)%Z; [discriminate|]|]; apply nth_error_In.
Qed.

Lemma where_eq_range (a : list Q) (m : Q) (x : Z) :
  In x (where_eq a m) -> (0 <= x < Z.of_nat (length a))%Z.
Proof.
  unfold where_eq, np_where. intros H. apply in_map_iff in H.
  destruct H as (i & <- & Hi). apply ZoneFacts.where_from_In in Hi.
  rewrite length_map in Hi. lia.
Qed.

Lemma where_eq_max (a : list Q) (m : Q) : Qmaximum a = Some m -> where_eq a m <> [].
Proof.
  intros Hm. destruct (Qmaximum_spec _ Hm) as [Hin _].
  destruct (In_nth _ _ 0 Hin) as (i & Hi & Hnth).
  assert (H : In (Z.of_nat i) (where_eq a m)).
  { unfold where_eq, np_where. apply in_map. apply ZoneFacts.where_from_In.
    rewrite length_map, Nat.sub_0_r. split; [lia|].
    rewrite (nth_indep _ false (Qeqb 0 m)) by (now rewrite length_map).
    rewrite (map_nth (fun x => Qeqb x m)), Hnth.
    unfold Qeqb. apply Qeq_bool_iff. reflexivity. }
  intros E. rewrite E in H. destruct H.
Qed.

Lemma select_first (l : list Z) :
  l <> [] ->
  exists v x,
    (if (1 <? length l)%nat
     then pybind (or_raise (Exn IndexError) (py_getitem l 0)) (fun i => Return (Scalar i))
     else Return (Array l)) = Return v
    /\ int_of v = Return x /\ In x l.
Proof.
  intros Hl. destruct l as [|a [|b l]]; [congruence| |].
  - exists (Array [a]), a. cbn. auto.
  - exists (Scalar a), a. cbn. auto.
Qed.

Lemma select_last (l : list Z) (k : Z) :
  l <> [] ->
  exists v x,
    (if (1 <? length l)%nat
     then pybind (or_raise (Exn IndexError) (py_getitem l (-1)))
                 (fun i => Return (Scalar (i + k)))
     else Return (Array (map (fun i => (i + k)%Z) l))) = Return v
    /\ int_of v = Return (x + k)%Z /\ In x l.
Proof.
  intros Hl. destruct l as [|a [|b l]]; [congruence| |].
  - exists (Array [(a + k)%Z]), a. cbn. auto.
  - destruct (@ShapeMore.py_getitem_last _ (a :: b :: l) Hl) as [x Hx].
    exists (Scalar (x + k)), x.
    replace (1 <? length (a :: b :: l))%nat with true by reflexivity.
    rewrite Hx. cbn [or_raise pybind int_of]. repeat split.
    eapply py_getitem_In; eassumption.
Qed.

(** The two indices whose distance is the width: one on either side of the
    minimum. *)
Lemma type_mechanism_inv (cz : list Q) (dl : Q) :
  cz <> [] ->
  exists k il ir,
    argmin cz = Some k
    /\ (0 <= il <= Z.of_nat k)%Z /\ (Z.of_nat k <= ir < Z.of_nat (length cz))%Z
    /\ _type_mechanism cz dl
       = Return (if Qltb (4 * dl) (dl * inject_Z (Z.abs (il - ir))) then yes else no,
                 dl * inject_Z (Z.abs (il - ir))).
Proof.
  intros Hne. unfold _type_mechanism.
  destruct (argmin cz) as [k|] eqn:Hk; [|destruct cz; [congruence | discriminate]].
  pose proof (ShapeMore.argmin_in_range _ Hk) as Hlt.
  cbn [option_map or_raise pybind].
  assert (Hto : slice_to cz (Z.of_nat k + 1) = firstn (k + 1) cz).
  { unfold slice_to, slice_bound.
    destruct (Z.of_nat k + 1 <? 0)%Z eqn:E; [apply Z.ltb_lt in E; lia|].
    f_equal. lia. }
  assert (Hfrom : slice_from cz (Z.of_nat k) = skipn k cz).
  { unfold slice_from, slice_bound.
    destruct (Z.of_nat k <? 0)%Z eqn:E; [apply Z.ltb_lt in E; lia|].
    f_equal. lia. }
  rewrite Hto, Hfrom.
  destruct (Qmaximum (firstn (k + 1) cz)) as [lm|] eqn:Hlm;
    [|apply ZoneFacts.Qmaximum_none in Hlm; rewrite length_firstn in Hlm; lia].
  destruct (Qmaximum (skipn k cz)) as [rm|] eqn:Hrm;
    [|apply ZoneFacts.Qmaximum_none in Hrm; rewrite length_skipn in Hrm; lia].
  cbn [or_raise pybind].
  destruct (select_first (where_eq_max _ Hlm)) as (vl & il & -> & Hil & Iil).
  cbn [pybind].
  destruct (select_last (Z.of_nat k) (where_eq_max _ Hrm)) as (vr & ir & -> & Hir & Iir).
  cbn [pybind]. rewrite Hil. cbn [pybind]. rewrite Hir. cbn [pybind].
  apply where_eq_range in Iil, Iir. rewrite length_firstn in Iil. rewrite length_skipn in Iir.
  exists k, il, (ir + Z.of_nat k)%Z. split; [reflexivity|].
  split; [lia|]. split; [lia|]. reflexivity.
Qed.

(** X20: on a zone that is not empty and for a dipole length that is not
    negative, [_type_mechanism] returns; its width is between [0] and the
    length of the zone, [dipolelength * (len(cz) - 1)]; and its status is
    ['yes'] exactly when the width is more than four dipole lengths. *)
Theorem width_is_within_the_zone (cz : list Q) (dl : Q) :
  cz <> [] -> 0 <= dl ->
  exists status wcz,
    _type_mechanism cz dl = Return (status, wcz)
    /\ 0 <= wcz
    /\ wcz <= dl * inject_Z (Z.of_nat (length cz) - 1)
    /\ (status = yes <-> 4 * dl < wcz).
Proof.
  intros Hne Hdl.
  destruct (type_mechanism_inv dl Hne) as (k & il & ir & _ & Hl & Hr & ->).
  eexists. eexists. split; [reflexivity|].
  assert (H0 : 0 <= inject_Z (Z.abs (il - ir))).
  { change 0 with (inject_Z 0). rewrite <- Zle_Qle. apply Z.abs_nonneg. }
  split; [|split].
  - apply Qmult_le_0_compat; assumption.
  - rewrite !(Qmult_comm dl). apply Qmult_le_compat_r; [|exact Hdl].
    rewrite <- Zle_Qle. lia.
  - unfold Qltb. destruct (Qle_bool _ _) eqn:E; cbn [negb].
    + apply Qle_bool_iff in E. split; [discriminate|].
      intros Hlt. exfalso. eapply Qlt_not_le; eassumption.
    + split; [intros _ | reflexivity]. apply UniqueFacts.Qleb_false. exact E.
Qed.

Lemma width_is_within_the_zone_witness :
  exists status wcz,
    _type_mechanism [5; 4; 3; 1; 3; 4; 9] 10 = Return (status, wcz)
    /\ 0 <= wcz
    /\ wcz <= 10 * inject_Z (Z.of_nat (length [5; 4; 3; 1; 3; 4; 9]) - 1)
    /\ (status = yes <-> 4 * 10 < wcz).
Proof.
  apply (@width_is_within_the_zone [5; 4; 3; 1; 3; 4; 9] 10).
  - discriminate.
  - discriminate.
Defined.

(** *** The windows *)

Lemma chunks_lengths (k size : nat) (a : list Q) :
  (k * size <= length a)%nat -> Forall (fun c => length c = size) (chunks k size a).
Proof.
  revert a. induction k as [|k IH]; intros a H; cbn [chunks]; constructor.
  - rewrite length_firstn. lia.
  - apply IH. rewrite length_skipn. lia.
Qed.

Lemma skipn_firstn_app (A : Type) (a : list A) (st en : nat) :
  (st <= en)%nat -> skipn st (firstn en a) ++ skipn en a = skipn st a.
Proof.
  intros H. rewrite <- (firstn_skipn en a) at 3. rewrite skipn_app.
  f_equal. rewrite length_firstn.
  destruct (Nat.le_gt_cases en (length a)) as [Hle|Hgt].
  - replace (st - Nat.min en (length a))%nat with 0%nat by lia. reflexivity.
  - rewrite !skipn_all2 by lia. symmetry. apply skipn_nil.
Qed.

Lemma split_from_sevens (a : list Q) (c j : nat) :
  (7 * (j + c + 1) <= length a)%nat ->
  let w := split_from a (7 * j) (map (fun i => (7 + i * 7)%nat) (seq j c)) in
  concat w = skipn (7 * j) a /\ length w = (c + 1)%nat
  /\ Forall (fun x => (7 <= length x)%nat) w.
Proof.
  revert j. induction c as [|c IH]; intros j H; cbv zeta.
  - cbn [seq map split_from concat length]. rewrite app_nil_r.
    split; [reflexivity|]. split; [reflexivity|].
    constructor; [|constructor]. rewrite length_skipn. lia.
  - cbn [seq map split_from concat length].
    replace (7 + j * 7)%nat with (7 * S j)%nat by lia.
    destruct (IH (S j)) as (H1 & H2 & H3); [lia|]. cbv zeta in H1, H2, H3.
    rewrite H1, H2. split; [apply skipn_firstn_app; lia|]. split; [lia|].
    constructor; [|exact H3]. rewrite length_skipn, length_firstn. lia.
Qed.

Lemma arange_sevens (k : nat) :
  (1 <= k)%nat ->
  np_arange 7 (7 * k) 7 = map (fun i => (7 + i * 7)%nat) (seq 0 (k - 1)).
Proof.
  intros Hk. unfold np_arange. f_equal. f_equal.
  replace (7 * k - 7 + 7 - 1)%nat with ((k - 1) * 7 + 6)%nat by lia.
  rewrite Nat.div_add_l by lia. change (6 / 7)%nat with 0%nat. lia.
Qed.

Lemma windows_cover_the_profile_aux (erp : list Q) :
  (7 <= length erp)%nat ->
  exists w,
    ssets erp = Return w
    /\ concat w = erp
    /\ length w = (length erp / 7)%nat
    /\ Forall (fun c => (7 <= length c)%nat) w.
Proof.
  intros Hn. set (n := length erp) in *. set (k := (n / 7)%nat).
  assert (Hk7 : (7 * k <= n)%nat) by (apply Nat.Div0.mul_div_le).
  assert (Hk : (1 <= k)%nat).
  { unfold k. change 1%nat with (7 / 7)%nat. apply Nat.Div0.div_le_mono. exact Hn. }
  unfold ssets, np_split_sections. fold n. fold k.
  destruct (k =? 0)%nat eqn:E0; [apply Nat.eqb_eq in E0; lia|].
  destruct (n mod k =? 0)%nat eqn:Em; cbn [negb].
  - apply Nat.eqb_eq in Em. apply Nat.Div0.div_exact in Em.
    exists (chunks k (n / k) erp). split; [reflexivity|].
    split; [rewrite chunks_concat, <- Em; apply firstn_all|].
    split; [apply PipelineMore.length_chunks|].
    assert (H7 : (7 <= n / k)%nat) by (apply Nat.div_le_lower_bound; lia).
    eapply Forall_impl; [|apply chunks_lengths; fold n; lia].
    cbn beta. intros c ->. exact H7.
  - cbn [class_of].
    destruct (n <? 7)%nat eqn:E7; [apply Nat.ltb_lt in E7; lia|].
    assert (Hr : (n - n mod 7 = 7 * k)%nat).
    { pose proof (Nat.div_mod_eq n 7). fold k in H. lia. }
    rewrite Hr, arange_sevens by exact Hk. unfold np_split_indices.
    destruct (@split_from_sevens erp (k - 1) 0) as (H1 & H2 & H3); [fold n; lia|].
    cbv zeta in H1, H2, H3. change (7 * 0)%nat with 0%nat in H1, H2, H3.
    eexists. split; [reflexivity|]. split; [exact H1|]. split; [lia | exact H3].
Qed.

(** X21: for a profile of seven points or more, the windows of [type_] are
    [len(erp) // 7] consecutive pieces of the profile, which put end to end
    give the profile back, each of seven points or more. *)
Theorem windows_cover_the_profile (erp : list Q) :
  (7 <= length erp)%nat ->
  exists w,
    ssets erp = Return w
    /\ concat w = erp
    /\ length w = (length erp / 7)%nat
    /\ Forall (fun c => (7 <= length c)%nat) w.
Proof. apply windows_cover_the_profile_aux. Qed.

Lemma windows_cover_the_profile_witness :
  exists w,
    ssets (map inject_Z (arange 0 15)) = Return w
    /\ concat w = map inject_Z (arange 0 15)
    /\ length w = (length (map inject_Z (arange 0 15)) / 7)%nat
    /\ Forall (fun c => (7 <= length c)%nat) w.
Proof.
  apply (@windows_cover_the_profile (map inject_Z (arange 0 15))).
  cbn. lia.
Defined.

(** X22: a profile of fewer than seven points is not given a type: the
    number of windows is [0], [np.split] divides by it, and the
    [ZeroDivisionError] passes the [except ValueError]. *)
Theorem short_profile_has_no_type (erp : list Q) :
  (length erp < 7)%nat -> type_ erp = Raise ZeroDivisionError.
Proof.
  intros H. unfold type_, ssets, np_split_sections.
  rewrite Nat.div_small by exact H. reflexivity.
Qed.

Lemma short_profile_has_no_type_witness :
  type_ [5; 4; 3; 1; 3; 4] = Raise ZeroDivisionError.
Proof.
  apply (@short_profile_has_no_type [5; 4; 3; 1; 3; 4]). cbn. lia.
Defined.

(** *** The statuses and the type *)

Lemma status_loop_returns (w : list (list Q)) :
  Forall (fun c => c <> []) w ->
  exists status, status_loop w = Return status /\ length status = length w.
Proof.
  induction 1 as [|c w Hc _ (status & Hs & Hl)]; [now exists []|].
  destruct (type_mechanism_inv 10 Hc) as (k & il & ir & _ & _ & _ & Hm).
  cbn [status_loop]. rewrite Hm, Hs. cbn [pybind].
  eexists. split; [reflexivity|]. cbn [length]. now rewrite Hl.
Qed.

Lemma comprehension_str_sub (ps : list (status_name * status_name)) :
  comprehension (fun '(a, b) => pybind (str_sub a b) (fun d => Return (Z.abs d))) ps
  = match ps with
    | [] => Return []
    | _ :: _ => Raise TypeError_operand
    end.
Proof. destruct ps as [|[a b] ps]; reflexivity. Qed.

Lemma sorted_pairs (l : list nat) :
  StronglySorted lt l ->
  forallb (fun '(a, b) => (a <? b)%Z) (pairs (map Z.of_nat l)) = true.
Proof.
  induction 1 as [|a l Hs IH Ha]; [reflexivity|].
  destruct l as [|b l]; [reflexivity|].
  change (pairs (map Z.of_nat (a :: b :: l)))
    with ((Z.of_nat a, Z.of_nat b) :: pairs (map Z.of_nat (b :: l))).
  cbn [forallb]. rewrite IH, andb_true_r.
  inversion Ha; subst. apply Z.ltb_lt. lia.
Qed.

Lemma sorted_strings (l : list status_name) :
  forallb (fun '(a, b) => str_lt a b) (pairs l) = true ->
  pairs l <> [] -> l = [no; yes].
Proof.
  destruct l as [|a [|b [|c l]]]; cbn [pairs forallb]; try congruence.
  - destruct a, b; cbn; congruence.
  - destruct a, b, c; cbn; congruence.
Qed.

Lemma length_yes_ix (status : list status_name) (i : nat) :
  length (map Z.of_nat (where_from i (map (status_eqb yes) status)))
  = count_occ status_eq_dec status yes.
Proof.
  rewrite length_map. revert i.
  induction status as [|s status IH]; intros i; [reflexivity|].
  cbn [map where_from count_occ]. destruct s.
  - cbn. now rewrite IH.
  - cbn. now rewrite IH.
Qed.

Lemma distinct_two (l : list status_name) :
  In yes l -> In no l -> length (nodup status_eq_dec l) = 2%nat.
Proof.
  intros Hy Hn. apply Nat.le_antisymm.
  - change 2%nat with (length [yes; no]).
    apply NoDup_incl_length; [apply NoDup_nodup|].
    intros [] _; cbn; auto.
  - change 2%nat with (length [yes; no]).
    apply NoDup_incl_length.
    + constructor; [cbn; intros [H|[]]; discriminate|].
      constructor; [intros []|constructor].
    + intros x [<-|[<-|[]]]; now apply nodup_In.
Qed.

Lemma classify_cases (status : list status_name) :
  (classify status = Return EC \/ classify status = Return NC
   \/ classify status = Return PC)
  \/ (classify status = Raise TypeError_operand
      /\ skipn (count_occ status_eq_dec status yes) status = [no; yes]).
Proof.
  unfold classify. cbv zeta. unfold np_where. rewrite length_yes_ix.
  set (c := count_occ status_eq_dec status yes).
  destruct (length (nodup status_eq_dec status) =? 1)%nat eqn:E1.
  - destruct status as [|[] status]; [discriminate|cbn; auto..].
  - destruct (length (nodup status_eq_dec status) =? 2)%nat; [|auto].
    rewrite (sorted_pairs (ZoneFacts.where_from_sorted _ 0)).
    rewrite comprehension_str_sub.
    destruct (forallb _ (pairs (skipn c status))) eqn:Es; cbn [Bool.eqb andb]; [|auto].
    destruct (pairs (skipn c status)) as [|pr ps] eqn:Ep.
    + cbn [pybind]. left. right. right.
      change (set_eq [] [1%Z]) with false. now rewrite andb_false_r.
    + right. split; [reflexivity|].
      apply sorted_strings; [rewrite Ep; exact Es | rewrite Ep; discriminate].
Qed.

Lemma classify_raises (status : list status_name) :
  skipn (count_occ status_eq_dec status yes) status = [no; yes] ->
  classify status = Raise TypeError_operand.
Proof.
  intros Hs.
  assert (Hin : forall x, In x [no; yes] -> In x status).
  { intros x Hx. rewrite <- Hs in Hx.
    rewrite <- (firstn_skipn (count_occ status_eq_dec status yes) status).
    apply in_or_app. now right. }
  unfold classify. cbv zeta. unfold np_where. rewrite length_yes_ix.
  rewrite distinct_two by (apply Hin; cbn; auto).
  cbn [Nat.eqb].
  rewrite (sorted_pairs (ZoneFacts.where_from_sorted _ 0)).
  rewrite comprehension_str_sub, Hs. reflexivity.
Qed.

Lemma type_inv (erp : list Q) :
  (7 <= length erp)%nat ->
  exists w status,
    ssets erp = Return w /\ status_loop w = Return status
    /\ length status = (length erp / 7)%nat
    /\ type_ erp = classify status.
Proof.
  intros Hn. destruct (@windows_cover_the_profile_aux erp Hn) as (w & Hw & _ & Hl & H7).
  destruct (@status_loop_returns w) as (status & Hs & Hls).
  { eapply Forall_impl; [|exact H7]. cbn beta. intros c Hc ->. cbn in Hc. lia. }
  exists w, status. split; [exact Hw|]. split; [exact Hs|].
  split; [congruence|]. unfold type_. rewrite Hw. cbn [pybind]. rewrite Hs. reflexivity.
Qed.

(** X23: [type_] never returns ['CB2P']: the set [no] of the source is
    empty whenever it is computed, so it is never [{1}]. *)
Theorem CB2P_is_never_returned (erp : list Q) : type_ erp <> Return CB2P.
Proof.
  unfold type_. destruct (ssets erp) as [w|f]; [|discriminate]. cbn [pybind].
  destruct (status_loop w) as [status|f]; [|discriminate]. cbn [pybind].
  destruct (classify_cases status) as [[H|[H|H]]|[H _]]; rewrite H; discriminate.
Qed.

(** X24: on a profile of seven points or more, every window gets a status,
    and [type_] fails exactly when the statuses that follow the first
    [count('yes')] of them are ['no', 'yes']: the two strings are then
    subtracted, a [TypeError]. *)
Theorem type_fails_on_a_trailing_no_yes (erp : list Q) :
  (7 <= length erp)%nat ->
  exists w status,
    ssets erp = Return w /\ status_loop w = Return status
    /\ length status = (length erp / 7)%nat
    /\ forall f, type_ erp = Raise f
                 <-> f = TypeError_operand
                     /\ skipn (count_occ status_eq_dec status yes) status = [no; yes].
Proof.
  intros Hn. destruct (@type_inv erp Hn) as (w & status & Hw & Hs & Hl & Ht).
  exists w, status. split; [exact Hw|]. split; [exact Hs|]. split; [exact Hl|].
  intros f. rewrite Ht. split.
  - intros Hf. destruct (classify_cases status) as [[H|[H|H]]|[H H']];
      rewrite H in Hf; try discriminate.
    injection Hf as <-. now split.
  - intros [-> H]. now apply classify_raises.
Qed.

Lemma type_fails_on_a_trailing_no_yes_witness :
  exists w status,
    ssets (map inject_Z (arange 0 15)) = Return w /\ status_loop w = Return status
    /\ length status = (length (map inject_Z (arange 0 15)) / 7)%nat
    /\ forall f, type_ (map inject_Z (arange 0 15)) = Raise f
                 <-> f = TypeError_operand
                     /\ skipn (count_occ status_eq_dec status yes) status = [no; yes].
Proof.
  apply (@type_fails_on_a_trailing_no_yes (map inject_Z (arange 0 15))).
  cbn. lia.
Defined.

(** X25: a profile of seven to twenty points always gets a type, and the
    type is ['EC'], ['NC'] or ['PC']. *)
Theorem up_to_two_windows_are_typed (erp : list Q) :
  (7 <= length erp < 21)%nat ->
  type_ erp = Return EC \/ type_ erp = Return NC \/ type_ erp = Return PC.
Proof.
  intros [Hn Hm]. destruct (@type_inv erp Hn) as (w & status & _ & _ & Hl & ->).
  destruct (classify_cases status) as [H|[_ H]]; [exact H|]. exfalso.
  assert (Hlt : (length erp / 7 < 3)%nat) by (apply Nat.Div0.div_lt_upper_bound; lia).
  assert (Hy : In yes status).
  { rewrite <- (firstn_skipn (count_occ status_eq_dec status yes) status), H.
    apply in_or_app. right. cbn. auto. }
  apply (count_occ_In status_eq_dec) in Hy.
  apply (f_equal (@length _)) in H. rewrite length_skipn in H. cbn [length] in H. lia.
Qed.

Lemma up_to_two_windows_are_typed_witness :
  type_ (map inject_Z (arange 0 15)) = Return EC
  \/ type_ (map inject_Z (arange 0 15)) = Return NC
  \/ type_ (map inject_Z (arange 0 15)) = Return PC.
Proof.
  apply (@up_to_two_windows_are_typed (map inject_Z (arange 0 15))).
  cbn. lia.
Defined.

(** X26: a profile of seven to thirteen points is one window, and its type
    is read off [_type_mechanism] on the whole profile: ['EC'] for the status
    ['yes'], ['NC'] for ['no']. *)
Theorem one_window_is_EC_or_NC (erp : list Q) :
  (7 <= length erp < 14)%nat ->
  exists status wcz,
    _type_mechanism erp 10 = Return (status, wcz)
    /\ type_ erp = Return (match status with yes => EC | no => NC end).
Proof.
  intros [Hn Hm].
  assert (Hk : (length erp / 7 = 1)%nat).
  { apply Nat.le_antisymm.
    - apply Nat.lt_succ_r. apply Nat.Div0.div_lt_upper_bound. lia.
    - change 1%nat with (7 / 7)%nat. apply Nat.Div0.div_le_mono. exact Hn. }
  assert (Hne : erp <> []) by (intros ->; cbn in Hn; lia).
  destruct (type_mechanism_inv 10 Hne) as (k & il & ir & _ & _ & _ & Hmech).
  eexists. eexists. split; [exact Hmech|].
  unfold type_, ssets, np_split_sections. rewrite Hk.
  cbn [Nat.eqb Nat.modulo Nat.divmod snd negb Nat.sub chunks pybind].
  rewrite Nat.div_1_r, firstn_all.
  cbn [status_loop pybind]. rewrite Hmech. cbn [pybind].
  destruct (if Qltb _ _ then yes else no); reflexivity.
Qed.

Lemma one_window_is_EC_or_NC_witness :
  exists status wcz,
    _type_mechanism [5; 4; 3; 1; 3; 4; 9] 10 = Return (status, wcz)
    /\ type_ [5; 4; 3; 1; 3; 4; 9]
       = Return (match status with yes => EC | no => NC end).
Proof.
  apply (@one_window_is_EC_or_NC [5; 4; 3; 1; 3; 4; 9]). cbn. lia.
Defined.

End TypeFacts.

(** ** The station of the drilling *)

Module StationFacts.

Import IxArr QArr Station.
Open Scope list_scope.
Open Scope Q_scope.

Lemma wrap32_id (z : Z) : int32 z -> wrap32 z = z.
Proof.
  unfold int32, wrap32. intros H. rewrite Z.mod_small; lia.
Qed.

Lemma floor_unique (q : Q) (z : Z) :
  inject_Z z <= q -> q < inject_Z (z + 1) -> floor q = z.
Proof.
  destruct q as [a b]. unfold Qle, Qlt, floor, inject_Z. cbn [Qnum Qden].
  intros H1 H2. symmetry. apply (Z.div_unique a (Z.pos b) z (a - Z.pos b * z)); lia.
Qed.

Lemma floor_inject_Z (z : Z) : floor (inject_Z z) = z.
Proof. unfold floor, inject_Z. cbn [Qnum Qden]. apply Z.div_1_r. Qed.

Lemma floor_quotient (s d : Z) (dl : Q) :
  (0 < d)%Z -> dl == inject_Z d -> floor (inject_Z s / dl) = (s / d)%Z.
Proof.
  intros Hd Hdl.
  assert (Hpos : 0 < inject_Z d) by (change 0 with (inject_Z 0); now rewrite <- Zlt_Qlt).
  apply floor_unique; rewrite Hdl.
  - apply Qle_shift_div_l; [exact Hpos|].
    rewrite <- inject_Z_mult, <- Zle_Qle. rewrite Z.mul_comm. apply Z.mul_div_le. exact Hd.
  - apply Qlt_shift_div_r; [exact Hpos|].
    rewrite <- inject_Z_mult, <- Zlt_Qlt.
    pose proof (Z.mul_succ_div_gt s d Hd). lia.
Qed.

(** The mean spacing [dl], when it is the integer [d]. *)
Lemma mean_spacing (d n : Z) :
  (1 < n)%Z -> inject_Z (d * (n - 1)) / inject_Z (n - 1) == inject_Z d.
Proof.
  intros Hn. rewrite inject_Z_mult. apply Qdiv_mult_l.
  change 0 with (inject_Z 0). rewrite inject_Z_injective. lia.
Qed.

Lemma cast_int32_id (p : list Z) : Forall int32 p -> map wrap32 p = p.
Proof.
  induction 1 as [|x l Hx Hl IH]; [reflexivity|].
  cbn [map]. now rewrite wrap32_id, IH.
Qed.

Lemma station_as_position_aux (s d lo hi : Z) (p : list Z) :
  (2 <= length p)%nat -> Forall int32 p ->
  np_min p = Some lo -> np_max p = Some hi ->
  (0 < d)%Z -> (hi - lo = d * (Z.of_nat (length p) - 1))%Z -> int32 (hi - lo) ->
  (Z.of_nat (length p) < s)%Z ->
  (s mod d <> 0 -> detect_station_position s p = Raise WATexError_station)%Z
  /\ (s mod d = 0 -> hi < s ->
      detect_station_position s p = Raise StationError_out_of_range)%Z
  /\ ((s mod d = 0)%Z -> (s <= hi)%Z ->
      exists v, detect_station_position s p = Return ((s / d)%Z, v)
                /\ v == inject_Z s).
Proof.
  intros H2 Hp Hlo Hhi Hd Hsp H32 Hs.
  assert (Hn : (1 < Z.of_nat (length p))%Z) by lia.
  set (n := Z.of_nat (length p)) in *.
  unfold detect_station_position. cbv zeta. rewrite (cast_int32_id Hp), Hhi, Hlo. cbn [or_raise pybind]. fold n.
  rewrite wrap32_id by exact H32. rewrite Hsp.
  unfold true_divide. destruct (n - 1 =? 0)%Z eqn:E0; [apply Z.eqb_eq in E0; lia|].
  destruct (n <? s)%Z eqn:E1; [|apply Z.ltb_ge in E1; lia].
  pose proof (mean_spacing d Hn) as Hdl.
  set (dl := inject_Z (d * (n - 1)) / inject_Z (n - 1)) in *.
  unfold remainder, floor_divide.
  assert (Hnz : Qeqb dl 0 = false).
  { unfold Qeqb. destruct (Qeq_bool dl 0) eqn:E; [|reflexivity].
    apply Qeq_bool_iff in E. rewrite Hdl in E.
    change 0 with (inject_Z 0) in E. rewrite inject_Z_injective in E. lia. }
  rewrite Hnz, (floor_quotient s Hd Hdl), floor_inject_Z.
  assert (Hr : inject_Z s - dl * inject_Z (s / d) == inject_Z (s mod d)).
  { rewrite Hdl, <- inject_Z_mult. unfold Qminus. rewrite <- inject_Z_opp, <- inject_Z_plus.
    rewrite inject_Z_injective. rewrite Z.mod_eq by lia. lia. }
  assert (Hz : Qeqb (inject_Z s - dl * inject_Z (s / d)) 0 = (s mod d =? 0)%Z).
  { unfold Qeqb. destruct (s mod d =? 0)%Z eqn:E.
    - apply Z.eqb_eq in E. apply Qeq_bool_iff. rewrite Hr, E. reflexivity.
    - apply Z.eqb_neq in E. destruct (Qeq_bool _ 0) eqn:E'; [|reflexivity].
      apply Qeq_bool_iff in E'. rewrite Hr in E'.
      change 0 with (inject_Z 0) in E'. rewrite inject_Z_injective in E'. contradiction. }
  rewrite Hz. split; [|split].
  - intros Hm. apply Z.eqb_neq in Hm. rewrite Hm. reflexivity.
  - intros Hm Hgt. apply Z.eqb_eq in Hm. rewrite Hm. cbn [negb andb].
    unfold Qleb. destruct (Qle_bool (inject_Z s) (inject_Z hi)) eqn:E; [|reflexivity].
    apply Qle_bool_iff in E. rewrite <- Zle_Qle in E. lia.
  - intros Hm Hle. pose proof Hm as Hm'. apply Z.eqb_eq in Hm'. rewrite Hm'. cbn [negb andb].
    unfold Qleb. destruct (Qle_bool (inject_Z s) (inject_Z hi)) eqn:E.
    + eexists. split; [reflexivity|].
      rewrite Hdl, <- inject_Z_mult, inject_Z_injective.
      rewrite Z.mod_eq in Hm by lia. lia.
    + exfalso. assert (Hq : inject_Z s <= inject_Z hi) by (rewrite <- Zle_Qle; exact Hle).
      apply Qle_bool_iff in Hq. congruence.
Qed.

(** X27: a station number above [len(p)] (and below [2 ** 53], so that it
    is a float exactly) is read as a position.  When there are two positions
    or more, all of them [np.int32] values, and their mean spacing is an
    integer [d > 0] (their spread fits [np.int32]), a station that is not a
    multiple of [d] is not found, a multiple of [d] above the last position
    is out of range, and any other multiple [s] of [d] is returned with the
    index [s // d], whatever the first position is. *)
Theorem station_as_position (s d lo hi : Z) (p : list Z) :
  (2 <= length p)%nat -> Forall int32 p ->
  np_min p = Some lo -> np_max p = Some hi ->
  (0 < d)%Z -> (hi - lo = d * (Z.of_nat (length p) - 1))%Z -> int32 (hi - lo) ->
  (Z.of_nat (length p) < s < 2 ^ 53)%Z ->
  (s mod d <> 0 -> detect_station_position s p = Raise WATexError_station)%Z
  /\ (s mod d = 0 -> hi < s ->
      detect_station_position s p = Raise StationError_out_of_range)%Z
  /\ ((s mod d = 0)%Z -> (s <= hi)%Z ->
      exists v, detect_station_position s p = Return ((s / d)%Z, v)
                /\ v == inject_Z s).
Proof.
  intros H2 Hp Hlo Hhi Hd Hsp H32 [Hs _].
  now apply station_as_position_aux with lo.
Qed.

Lemma station_as_position_witness :
  (120 mod 10 <> 0 ->
   detect_station_position 120 [100; 110; 120]%Z = Raise WATexError_station)%Z
  /\ (120 mod 10 = 0 -> 120 < 120 ->
      detect_station_position 120 [100; 110; 120]%Z = Raise StationError_out_of_range)%Z
  /\ ((120 mod 10 = 0)%Z -> (120 <= 120)%Z ->
      exists v, detect_station_position 120 [100; 110; 120]%Z = Return ((120 / 10)%Z, v)
                /\ v == inject_Z 120).
Proof.
  apply (@station_as_position 120 10 100 120 [100; 110; 120]%Z).
  - cbn. lia.
  - unfold int32. repeat constructor; lia.
  - reflexivity.
  - reflexivity.
  - lia.
  - reflexivity.
  - unfold int32. cbn. lia.
  - cbn. lia.
Defined.

(** The positions [0, d, 2d, ...] of [n] stations. *)
Lemma progression_bounds (d : Z) (n : nat) :
  (0 < d)%Z -> (1 <= n)%nat ->
  let p := map (fun i => (d * Z.of_nat i)%Z) (seq 0 n) in
  np_min p = Some 0%Z /\ np_max p = Some (d * (Z.of_nat n - 1))%Z.
Proof.
  intros Hd Hn p.
  assert (Hin : forall y, In y p <-> exists i, (i < n)%nat /\ y = (d * Z.of_nat i)%Z).
  { intros y. unfold p. rewrite in_map_iff. split.
    - intros (i & <- & Hi). apply in_seq in Hi. exists i. split; [lia | reflexivity].
    - intros (i & Hi & ->). exists i. split; [reflexivity | apply in_seq; lia]. }
  assert (Hne : p <> []).
  { intros E. assert (H0 : In 0%Z p) by (apply Hin; exists 0%nat; split; [lia | lia]).
    rewrite E in H0. destruct H0. }
  split.
  - destruct (np_min p) as [m|] eqn:Em; [|destruct p; [congruence | discriminate]].
    destruct (ZoneFacts.np_min_spec _ Em) as [Hm Hle]. f_equal.
    apply Hin in Hm. destruct Hm as (i & Hi & ->).
    assert (H0 : In 0%Z p) by (apply Hin; exists 0%nat; split; [lia | lia]).
    specialize (Hle _ H0). nia.
  - destruct (np_max p) as [m|] eqn:Em; [|destruct p; [congruence | discriminate]].
    destruct (ZoneFacts.np_max_spec _ Em) as [Hm Hge]. f_equal.
    apply Hin in Hm. destruct Hm as (i & Hi & ->).
    assert (H0 : In (d * Z.of_nat (n - 1))%Z p) by (apply Hin; exists (n - 1)%nat; split; [lia | lia]).
    specialize (Hge _ H0). nia.
Qed.

(** X28: for [n] stations at the positions [0, d, 2d, ...] (which fit
    [np.int32]), the position of station [i], when it is above [n], is
    found again at the index [i]. *)
Theorem position_of_a_station_is_found (d : Z) (n i : nat) :
  (0 < d)%Z -> (i < n)%nat -> (d * (Z.of_nat n - 1) < 2 ^ 31)%Z ->
  (Z.of_nat n < d * Z.of_nat i)%Z ->
  exists v,
    detect_station_position (d * Z.of_nat i)
      (map (fun i => (d * Z.of_nat i)%Z) (seq 0 n))
    = Return (Z.of_nat i, v)
    /\ v == inject_Z (d * Z.of_nat i).
Proof.
  intros Hd Hi H32 Hs.
  destruct (@progression_bounds d n Hd) as [Hlo Hhi]; [lia|]. cbv zeta in Hlo, Hhi.
  set (p := map (fun i => (d * Z.of_nat i)%Z) (seq 0 n)) in *.
  assert (Hlen : length p = n) by (unfold p; now rewrite length_map, length_seq).
  destruct (@station_as_position_aux (d * Z.of_nat i) d 0 (d * (Z.of_nat n - 1)) p)
    as (_ & _ & H); try assumption.
  - rewrite Hlen. nia.
  - unfold p. apply Forall_forall. intros y Hy. apply in_map_iff in Hy.
    destruct Hy as (j & <- & Hj). apply in_seq in Hj. unfold int32. nia.
  - rewrite Hlen. lia.
  - unfold int32. nia.
  - rewrite Hlen. exact Hs.
  - destruct H as (v & Hv & Hq).
    + rewrite Z.mul_comm. apply Z.mod_mul. lia.
    + nia.
    + exists v. split; [|exact Hq].
      rewrite Hv. do 2 f_equal. rewrite Z.mul_comm. apply Z.div_mul. lia.
Qed.

Lemma position_of_a_station_is_found_witness :
  exists v,
    detect_station_position (10 * Z.of_nat 3)
      (map (fun i => (10 * Z.of_nat i)%Z) (seq 0 5))
    = Return (Z.of_nat 3, v)
    /\ v == inject_Z (10 * Z.of_nat 3).
Proof.
  apply (@position_of_a_station_is_found 10 5 3).
  - lia.
  - lia.
  - cbn. lia.
  - cbn. lia.
Defined.

End StationFacts.

(** ** The shape of a range of resistivities *)

Module RangeShapeFacts.

Import IxArr QArr Shape RangeShape.
Open Scope list_scope.
Open Scope Q_scope.

Lemma sorted_nth (R : Q -> Q -> Prop) (l : list Q) :
  StronglySorted R l ->
  forall i j, (i < j)%nat -> (j < length l)%nat -> R (nth i l 0) (nth j l 0).
Proof.
  induction 1 as [|x l Hs IH Hx]; intros i j Hij Hj; [cbn in Hj; lia|].
  destruct j as [|j]; [lia|]. cbn [length] in Hj.
  destruct i as [|i]; cbn [nth].
  - rewrite Forall_forall in Hx. apply Hx, nth_In. lia.
  - apply IH; lia.
Qed.

Lemma monotone_no_minimum (l : list Q) :
  StronglySorted Qle l \/ StronglySorted (fun a b => b <= a) l ->
  argrelextrema l Qltb = [].
Proof.
  intros Hs. unfold argrelextrema. cbv zeta. apply VesMore.filter_none.
  intros i Hi. apply in_seq in Hi. apply andb_false_iff.
  unfold Qltb. rewrite !negb_false_iff, !Qle_bool_iff.
  destruct Hs as [Hs|Hs].
  - right. destruct i as [|i]; [apply Qle_refl|].
    replace (S i - 1)%nat with i by lia.
    apply (sorted_nth Hs); lia.
  - left. destruct (Nat.eq_dec i (length l - 1)) as [->|Hne].
    + replace (Nat.min (length l - 1 + 1) (length l - 1)) with (length l - 1)%nat by lia.
      apply Qle_refl.
    + replace (Nat.min (i + 1) (length l - 1)) with (i + 1)%nat by lia.
      apply (sorted_nth Hs); lia.
Qed.

(** X30: a range that never falls, or never rises, has no local minimum, and
    [get_shape] calls it [V]. *)
Theorem monotone_range_is_V (rhoa_range : list Q) :
  StronglySorted Qle rhoa_range \/ StronglySorted (fun a b => b <= a) rhoa_range ->
  get_shape rhoa_range = Return V.
Proof.
  intros Hs. unfold get_shape. cbv zeta. now rewrite (monotone_no_minimum Hs).
Qed.

Lemma monotone_range_is_V_witness : get_shape [1; 2; 2; 5] = Return V.
Proof.
  apply (@monotone_range_is_V [1; 2; 2; 5]). left.
  repeat (constructor; [|repeat (constructor; [discriminate|]); constructor]).
  constructor.
Defined.

End RangeShapeFacts.
